(** * SHIELDS-PTM post-processing: flux mapping, pitch-angle integration, cutoffs

    A shallow embedding of the Python scripts
      - [scripts/ptm_tools.py]           (parsers, distribution models, integrator,
                                          plasma sheet model)
      - [scripts/ptm_postprocessing.py]  (the [ptm_postprocessor] object)
      - [scripts/omni_quicklook_sep.py]  (flux mapper with masks, cutoff analysis)

    Numbers.  The scripts compute with IEEE double precision numbers through
    numpy.  Here every float is a real number ([R]): rounding, overflow,
    infinities and NaN are not modelled, so [x / 0] and [x ** y] for a
    non-positive [x] are outside the model (statements that depend on them carry
    the corresponding hypothesis).  Integer indices are [Z], as Python indices
    may be negative.

    Errors.  A Python exception is a value of [exn]; a function that may raise
    returns a [result].  The trajectory parser and the methods for the RAM
    boundary raise exceptions of their own ([UnboundLocalError], [KeyError]):
    the modules [traj] and [ram] have their error type and [outcome].

    Files.  What a function reads from a file (the lines of a trajectory
    file, the table of a map file, the run grid) is an argument of its model,
    and [os.path.isfile], [np.loadtxt] and the conversions [int] and [float]
    of strings are parameters of the sections that use them. *)

From Stdlib Require Import String Ascii.
From Stdlib Require Import Reals Lra Lia List ZArith Arith Bool Sorted
  Permutation.
From Stdlib Require DecimalString.
Import ListNotations.
Open Scope R_scope.

(** ** Python exceptions and the error monad *)

Inductive exn : Type :=
| IndexError
| ValueError
| AttributeError
| Exception (msg : string).

Inductive result (A : Type) : Type :=
| Ok (a : A)
| Raise (e : exn).
Arguments Ok {A} a.
Arguments Raise {A} e.

Definition bind {A B : Type} (m : result A) (k : A -> result B) : result B :=
  match m with
  | Ok a => k a
  | Raise e => Raise e
  end.

Notation "x <- m ;; k" := (bind m (fun x => k))
  (at level 61, m at next level, right associativity).

Fixpoint mapM {A B : Type} (f : A -> result B) (l : list A) : result (list B) :=
  match l with
  | [] => Ok []
  | a :: t => b <- f a ;; bs <- mapM f t ;; Ok (b :: bs)
  end.

(** ** Decidable comparisons on the reals, as the boolean tests of the code *)

Definition Rgeb (x y : R) : bool := if Rge_dec x y then true else false.
Definition Rgtb (x y : R) : bool := if Rgt_dec x y then true else false.
Definition Rltb (x y : R) : bool := if Rlt_dec x y then true else false.
Definition Reqb (x y : R) : bool := if Req_dec_T x y then true else false.

(** ** numpy *)

Module np.

Definition vec3 : Type := (R * R * R)%type.

(** [np.linalg.norm] of a 3-vector. *)
Definition linalg_norm (v : vec3) : R :=
  let '(x, y, z) := v in sqrt (x * x + y * y + z * z).

(** [a[i]] for a Python integer [i]: negative indices count from the end. *)
Definition getitem {A : Type} (l : list A) (i : Z) : result A :=
  let n := Z.of_nat (length l) in
  let j := if (i <? 0)%Z then (i + n)%Z else i in
  if ((0 <=? j) && (j <? n))%Z%bool then
    match nth_error l (Z.to_nat j) with
    | Some a => Ok a
    | None => Raise IndexError
    end
  else Raise IndexError.

(** [np.sum] of a boolean array: the number of [True]. *)
Definition count_true (l : list bool) : nat :=
  length (filter (fun b => b) l).

(** [np.sum] of a float array. *)
Definition sum (l : list R) : R := fold_right Rplus 0 l.

(** [np.diff] on integers. *)
Fixpoint diffZ (l : list Z) : list Z :=
  match l with
  | [] => []
  | x :: t => match t with
              | [] => []
              | y :: _ => (y - x)%Z :: diffZ t
              end
  end.

(** [np.where(cond)[0]] / [np.nonzero(a)[0]]: indices where the test holds,
    counted from [i]. *)
Fixpoint where_from {A : Type} (p : A -> bool) (i : Z) (l : list A) : list Z :=
  match l with
  | [] => []
  | x :: t => if p x then i :: where_from p (i + 1)%Z t
              else where_from p (i + 1)%Z t
  end.

Definition where_ {A : Type} (p : A -> bool) (l : list A) : list Z :=
  where_from p 0%Z l.

Definition nonzero (l : list R) : list Z :=
  where_ (fun a => negb (Reqb a 0)) l.

(** [a.reshape(-1, 2)] of a flat array: [ValueError] on an odd size. *)
Fixpoint reshape2 (l : list Z) : result (list (Z * Z)) :=
  match l with
  | [] => Ok []
  | [_] => Raise ValueError
  | a :: b :: t => r <- reshape2 t ;; Ok ((a, b) :: r)
  end.

End np.

(** ** The flux map ([newDict] returned by [parse_map_file]) *)

Record fluxmap : Type := {
  position : np.vec3;               (* attrs['position'] *)
  energies : list R;                (* fluxmap['energies'] *)
  angles   : list R;                (* fluxmap['angles'] *)
  init_E   : list (list R);
  final_E  : list (list R);
  final_x  : list (list np.vec3);
  init_v   : list (list np.vec3)
}.

(** ** omni_quicklook_sep.py: find_runs and cutoffs *)

(** [find_runs(invec, value=True)]: starts and ends of contiguous blocks. *)
Definition find_runs (invec : list bool) (value : bool) : result (list (Z * Z)) :=
  let isvalue :=
    [0%Z] ++ map (fun b => if Bool.eqb b value then 1%Z else 0%Z) invec ++ [0%Z] in
  let absdiff := map Z.abs (np.diffZ isvalue) in
  let ranges := np.where_ (fun d => (d =? 1)%Z) absdiff in
  np.reshape2 ranges.

Record cdict : Type := {
  ec_low : R;
  r_low : R;
  ec_high : R;
  r_high : R;
  r_eff : R;
  ec_eff : R
}.

Section Cutoffs.

(** [ptt.Proton(E).getRigidity()] and [ptt.Proton.fromRigidity(r).energy]:
    the class [Proton] of [ptm_tools] is not among the sources at hand, so
    the two conversions are parameters of the cutoff analysis. *)
Variable getRigidity : R -> R.
Variable fromRigidity : R -> R.

(** The fractional access vector [allow] (the [else] branch of [cutoffs]). *)
Definition access_counts (fm : fluxmap) : result (list R) :=
  mapM (fun n =>
          row <- np.getitem (final_x fm) (Z.of_nat n) ;;
          Ok (INR (np.count_true
                     (map (fun v => Rgeb (np.linalg_norm v) 14.99) row))))
       (seq 0 (length (energies fm))).

Definition access_fraction (fm : fluxmap) : result (list R) :=
  counts <- access_counts fm ;;
  Ok (map (fun c => c / INR (length (angles fm))) counts).

(** [try: idx_high = find_runs(full_access)[-1][0]
     except IndexError: idx_high = -1] *)
Definition idx_high_of (full_access : list bool) : result Z :=
  runs <- find_runs full_access true ;;
  match np.getitem runs (-1)%Z with
  | Ok r => Ok (fst r)
  | Raise IndexError => Ok (-1)%Z
  | Raise e => Raise e
  end.

Definition cutoffs (fm : fluxmap) : result (cdict * list R) :=
  allow <- access_fraction fm ;;
  let en_mev := map (fun e => e / 1e3) (energies fm) in
  let not_forbidden := np.nonzero allow in
  let full_access := map (fun a => Rgtb a 0.82) allow in
  idx_low <- np.getitem not_forbidden 0%Z ;;
  ec_low <- np.getitem en_mev idx_low ;;
  idx_high <- idx_high_of full_access ;;
  ec_high <- np.getitem en_mev idx_high ;;
  let Nforbid := np.sum (map (fun a => a * INR (length (angles fm))) allow) in
  let Ntot := INR (length allow * length (angles fm)) in
  let r_low := getRigidity ec_low in
  let r_high := getRigidity ec_high in
  let r_effect := r_low + (r_high - r_low) * Nforbid / Ntot in
  Ok ({| ec_low := ec_low; r_low := r_low;
         ec_high := ec_high; r_high := r_high;
         r_eff := r_effect;
         ec_eff := fromRigidity r_effect |}, allow).

End Cutoffs.

(** ** Helpers on lists used as numpy arrays *)

(** Elementwise binary operation on two arrays of one shape. *)
Fixpoint map2 {A B C : Type} (f : A -> B -> C) (l1 : list A) (l2 : list B)
  : list C :=
  match l1, l2 with
  | a :: t1, b :: t2 => f a b :: map2 f t1 t2
  | _, _ => []
  end.

(** [l[n] = v] for an index in range (no effect out of range: the callers
    check the range and raise [IndexError] themselves). *)
Fixpoint set_nth {A : Type} (l : list A) (n : nat) (v : A) : list A :=
  match l, n with
  | [], _ => []
  | _ :: t, O => v :: t
  | x :: t, S m => x :: set_nth t m v
  end.

(** [g[i, j]] *)
Definition getitem2 {A : Type} (g : list (list A)) (i j : Z) : result A :=
  row <- np.getitem g i ;; np.getitem row j.

(** [g[i, j] = v] for non-negative indices. *)
Definition setitem2 {A : Type} (g : list (list A)) (i j : Z) (v : A)
  : result (list (list A)) :=
  row <- np.getitem g i ;;
  _ <- np.getitem row j ;;
  if ((0 <=? i) && (0 <=? j))%Z%bool
  then Ok (set_nth g (Z.to_nat i) (set_nth row (Z.to_nat j) v))
  else Raise IndexError.

(** Total read of a cell, for statements. *)
Definition cell {A : Type} (d : A) (g : list (list A)) (i j : nat) : A :=
  nth j (nth i g []) d.

(** [np.zeros([n, m])] and its vector-valued variant [np.zeros([n, m, 3])]. *)
Definition zeros2 {A : Type} (z : A) (n m : nat) : list (list A) :=
  repeat (repeat z m) n.

(** A list of rows has shape [(n, m)]. *)
Definition has_shape {A : Type} (g : list (list A)) (n m : nat) : Prop :=
  length g = n /\ Forall (fun row => length row = m) g.

Fixpoint foldM {A S : Type} (f : S -> A -> result S) (l : list A) (s : S)
  : result S :=
  match l with
  | [] => Ok s
  | a :: t => s' <- f s a ;; foldM f t s'
  end.

(** ** ptm_tools.py: parse_map_file *)

(** One line of the table of a map file, columns 0..9:
    index, final position (1..3), source energy (4), pitch angle (5),
    final energy (6), initial velocity (7..9). *)
Record maprow : Type := {
  col0 : R;
  col_x : np.vec3;
  col_E : R;
  col_pa : R;
  col_Ef : R;
  col_v : np.vec3
}.

Module unique.

(** [np.unique]: the sorted distinct values. *)
Fixpoint insert (x : R) (l : list R) : list R :=
  match l with
  | [] => [x]
  | y :: t => if Rlt_dec x y then x :: y :: t
              else if Req_dec_T x y then y :: t
              else y :: insert x t
  end.

Definition unique (l : list R) : list R := fold_right insert [] l.

(** [np.sort]: insertion in non-decreasing order. *)
Fixpoint insert_sorted (x : R) (l : list R) : list R :=
  match l with
  | [] => [x]
  | y :: t => if Rle_dec x y then x :: y :: t else y :: insert_sorted x t
  end.

Definition sort (l : list R) : list R := fold_right insert_sorted [] l.

End unique.

(** [np.argwhere(x == vec)]: the indices of [vec] holding exactly [x]. *)
Definition argwhere_eq (x : R) (vec : list R) : list Z :=
  np.where_ (fun e => Reqb x e) vec.

(** The index pairs addressed by [G[idex, jdex]] for two column arrays of
    indices: numpy broadcasts them to one shape, or raises [IndexError]. *)
Definition broadcast_index (idex jdex : list Z) : result (list (Z * Z)) :=
  if (length idex =? length jdex)%nat then Ok (combine idex jdex)
  else match idex, jdex with
       | [i], _ => Ok (map (fun j => (i, j)) jdex)
       | _, [j] => Ok (map (fun i => (i, j)) idex)
       | _, _ => Raise IndexError
       end.

(** [G[idex, jdex] = v] *)
Definition assign_at {A : Type} (idex jdex : list Z) (v : A) (g : list (list A))
  : result (list (list A)) :=
  ij <- broadcast_index idex jdex ;;
  foldM (fun g' p => setitem2 g' (fst p) (snd p) v) ij g.

Record grids : Type := {
  Einit : list (list R);
  Efinal : list (list R);
  xfinal : list (list np.vec3);
  vinit : list (list np.vec3)
}.

(** The body of the loop over the rows of the table. *)
Definition assign_row (envec pavec : list R) (g : grids) (r : maprow)
  : result grids :=
  let idex := argwhere_eq (col_E r) envec in
  let jdex := argwhere_eq (col_pa r) pavec in
  e1 <- assign_at idex jdex (col_E r) (Einit g) ;;
  e2 <- assign_at idex jdex (col_Ef r) (Efinal g) ;;
  x <- assign_at idex jdex (col_x r) (xfinal g) ;;
  v <- assign_at idex jdex (col_v r) (vinit g) ;;
  Ok {| Einit := e1; Efinal := e2; xfinal := x; vinit := v |}.

Definition vzero : np.vec3 := (0, 0, 0).

(** [parse_map_file], from the position read in the header of the first file
    and the rows [res] of the table: the rows of the one file that
    [np.loadtxt] reads or, for several files (none of them without rows), of
    their tables stacked by [np.vstack].  For fewer than two rows [np.loadtxt]
    returns an array of one dimension and [res[:, 5]] raises [IndexError]. *)
Definition parse_map_file (sourcepos : np.vec3) (res : list maprow)
  : result fluxmap :=
  if (length res <? 2)%nat then Raise IndexError else
  let pavec := unique.sort (unique.unique (map col_pa res)) in
  let envec := unique.sort (unique.unique (map col_E res)) in
  let n := length envec in
  let m := length pavec in
  let g0 := {| Einit := zeros2 0 n m; Efinal := zeros2 0 n m;
               xfinal := zeros2 vzero n m; vinit := zeros2 vzero n m |} in
  g <- foldM (assign_row envec pavec) res g0 ;;
  Ok {| position := sourcepos;
        energies := envec;
        angles := pavec;
        init_E := Einit g;
        final_E := Efinal g;
        final_x := xfinal g;
        init_v := vinit g |}.

(** ** scipy.special *)

(** The special functions the scripts take from [scipy.special]. *)
Record special : Type := {
  gamma : R -> R;
  gammaln : R -> R;
  kn : Z -> R -> R
}.

(** ** ptm_tools.py: distribution models *)

(** [ckm = constants.speed_of_light/1e3] *)
Definition ckm : R := 299792458 / 1e3.

(** [str.lower] on ASCII characters (statements on [lower] are about strings
    of ASCII characters; [str.lower] also maps letters outside ASCII). *)
Definition lower_ascii (c : ascii) : ascii :=
  let n := nat_of_ascii c in
  if ((65 <=? n) && (n <=? 90))%nat%bool then ascii_of_nat (n + 32) else c.

Fixpoint lower (s : string) : string :=
  match s with
  | EmptyString => EmptyString
  | String c t => String (lower_ascii c) (lower t)
  end.

(** [energy_to_flux], for Python floats.  The model is of the calls in which
    no divisor is zero and both powers have a positive base: there Python
    raises [ZeroDivisionError] ([mc2 = 0], [kap = 0], [ec = 0] or
    [kap = 1.5]) or leaves the real numbers, and the statements that need a
    result carry the hypotheses that exclude it. *)
Definition energy_to_flux (sp : special) (ei ef ec n mc2 : R) (kind : string)
  (kap : R) (energyFlux : bool) : result R :=
  let gami := 1 + ei / mc2 in
  let gamc := 1 + ec / mc2 in
  let gamf := 1 + ef / mc2 in
  let u := ckm * sqrt (gami * gami - 1.0) / gami in
  let w := ckm * sqrt (gamc * gamc - 1.0) / gamc in
  let v := ckm * sqrt (gamf * gamf - 1.0) / gamf in
  f <- (if String.eqb (lower kind) "maxwell" then
          let Q := ec / mc2 in
          let f0 := n / (4 * PI * ckm ^ 3 * Q * kn sp 2 (1.0 / Q)) in
          Ok (f0 * exp (- gami / Q))
        else if String.eqb (lower kind) "kappa" then
          let Wc := ec * (1.0 - 1.5 / kap) in
          let f0 := n * Rpower (mc2 / (ckm * ckm * Wc * 2 * PI * kap)) 1.5
                    * (gamma sp (kap + 1) / gamma sp (kap - 0.5)) in
          Ok (f0 * Rpower (1 + ei / (kap * Wc)) (- (kap + 1)))
        else
          Raise (Exception ("Error in energy_to_flux: kind= " ++ kind
                            ++ " is not supported"))) ;;
  let j := 1e5 * ckm * ckm * v * v / mc2 * f in
  Ok (if energyFlux then j * ef else j).

(** [calculate_electron_flux], for a list [x] of Python floats.  As for
    [energy_to_flux], the model is of the calls in which no divisor is zero
    ([k = 0], [E = 0] or [k = 1.5] raise [ZeroDivisionError] in Python). *)
Definition calculate_electron_flux (sp : special) (ei ef : R) (x : list R)
  : result R :=
  let mc2 := 511.0 in
  k1 <- np.getitem x 0 ;;
  E1 <- np.getitem x 1 ;;
  n1 <- np.getitem x 2 ;;
  k2 <- np.getitem x 3 ;;
  E2 <- np.getitem x 4 ;;
  n2 <- np.getitem x 5 ;;
  let W1 := E1 * (1.0 - 1.5 / k1) in
  let W2 := E2 * (1.0 - 1.5 / k2) in
  let kf1 := exp (gammaln sp (k1 + 1) - gammaln sp (k1 - 0.5)) in
  let g1 := n1 * Rpower (mc2 / (ckm * ckm * W1 * PI * k1)) 1.5 * kf1 in
  let f1 := g1 * Rpower (1 + ei / (k1 * W1)) (- (k1 + 1)) in
  let kf2 := exp (gammaln sp (k2 + 1) - gammaln sp (k2 - 0.5)) in
  let g2 := n2 * Rpower (mc2 / (ckm * ckm * W2 * PI * k2)) 1.5 * kf2 in
  let f2 := g2 * Rpower (1 + ei / (k2 * W2)) (- (k2 + 1)) in
  let gamf := 1 + ef / mc2 in
  let v := ckm * sqrt (gamf * gamf - 1.0) / gamf in
  Ok (1e5 * ckm * ckm * v * v / mc2 * (f1 + f2)).

(** ** ptm_tools.py: calculate_omnidirectional_flux *)

(** A 2-D float array with its shape (an array without rows still has a
    number of columns). *)
Record ndarray2 : Type := {
  shape0 : nat;
  shape1 : nat;
  rows : list (list R)
}.

Definition wf_ndarray2 (a : ndarray2) : Prop :=
  has_shape (rows a) (shape0 a) (shape1 a).

(** [a.T] *)
Definition transpose (a : ndarray2) : ndarray2 :=
  {| shape0 := shape1 a;
     shape1 := shape0 a;
     rows := map (fun j => map (fun row => nth j row 0) (rows a))
                 (seq 0 (shape1 a)) |}.

Definition deg2rad (x : R) : R := x * (PI / 180).
Definition rad2deg (x : R) : R := x * (180 / PI).

(** [v[1:]] and [v[:-1]] *)
Definition from1 {A : Type} (l : list A) : list A := tl l.
Definition upto_last {A : Type} (l : list A) : list A := removelast l.

(** [np.diff] on floats: [v[1:] - v[:-1]]. *)
Definition diff (l : list R) : list R := map2 Rminus (from1 l) (upto_last l).

(** [np.einsum("i,ji", w, f)]: for every row [j], the sum over [i] of
    [w[i] * f[j, i]]. *)
Definition einsum_i_ji (w : list R) (f : list (list R)) : list R :=
  map (fun frow => np.sum (map2 Rmult w frow)) f.

(** The reduction of [calculate_omnidirectional_flux], once the array is
    oriented with the pitch angle on its second axis. *)
Definition omni_reduce (Q : list R) (flux : list (list R)) (symmetry : bool)
  : list R :=
  let coef := map (fun d => 2.0 * PI * d) (diff Q) in
  let coef := if symmetry then map (fun c => c * 2.0) coef else coef in
  let favg := map (fun row =>
                     map (fun s => 0.5 * s)
                         (map2 Rplus (from1 row) (upto_last row))) flux in
  let savg := map (fun s => sin (0.5 * s)) (map2 Rplus (from1 Q) (upto_last Q)) in
  einsum_i_ji (map2 Rmult coef savg) favg.

Definition dimension_mismatch : exn :=
  Exception "Error in calculate_omnidirectional_flux: Dimension mismatch between PAV and DIFFJ".

Definition calculate_omnidirectional_flux (pav : list R) (diffJ : ndarray2)
  (angleDegrees symmetry : bool) : result (list R) :=
  if negb ((length pav =? shape0 diffJ)%nat || (length pav =? shape1 diffJ)%nat)
  then Raise dimension_mismatch
  else
    let Q := if angleDegrees then map deg2rad pav else pav in
    let flux := if (length pav =? shape1 diffJ)%nat then diffJ
                else transpose diffJ in
    Ok (omni_reduce Q (rows flux) symmetry).

(** ** ptm_postprocessing.py: the ptm_postprocessor object *)

Module ptm_postprocessor.

(** Class attributes. *)
Definition cls_ckm : R := 2.998e5.
Definition cls_csq : R := 8.988e10.
Definition cls_mc2 : R := 5.11e2.

(** The attributes of one instance.  An attribute that was never assigned
    on the instance is [None]; a read of [self.__mc2] then finds the class
    attribute. *)
Record t : Type := {
  filedir : string;
  set_defaults : bool;
  mc2 : option R;
  ec : option R;
  n : option R;
  kappa : option R
}.

(** [__init__(filedir)], with [filedir] already resolved. *)
Definition init (dir : string) : t :=
  {| filedir := dir; set_defaults := true;
     mc2 := None; ec := None; n := None; kappa := None |}.

(** A read of [self.__mc2]. *)
Definition get_mc2 (self : t) : R :=
  match mc2 self with
  | Some v => v
  | None => cls_mc2
  end.

Definition getattr (a : option R) : result R :=
  match a with
  | Some v => Ok v
  | None => Raise AttributeError
  end.

Definition set_source_parameters (self : t) (n_dens e_char kap mass : R) : t :=
  {| filedir := filedir self;
     mc2 := Some (get_mc2 self * mass);
     ec := Some e_char;
     n := Some n_dens;
     kappa := Some kap;
     set_defaults := false |}.

(** [set_source_parameters()] with the default arguments. *)
Definition set_source_parameters_default (self : t) : t :=
  set_source_parameters self 1.0 0.5 2.5 1.0.

(** The differential flux of one cell, from the attributes read by
    [calculate_flux].  The attributes are Python floats: for [kappa = 0],
    [kappa = 1.5] or [ec = 0] Python raises [ZeroDivisionError]; the model is
    of the other calls ([positive_source] below). *)
Definition flux_cell (sp : special) (mc2 ec n kappa : R) (ef ei : R) : R :=
  let gamf := 1 + ef / mc2 in
  let v := cls_ckm * sqrt (gamf * gamf - 1.0) / gamf in
  let Wc := ec * (1.0 - 1.5 / kappa) in
  let f0 := n * Rpower (mc2 / (cls_csq * Wc * 2 * PI * kappa)) 1.5
            * (gamma sp (kappa + 1) / gamma sp (kappa - 0.5)) in
  let f := f0 * Rpower (1 + ei / (kappa * Wc)) (- (kappa + 1)) in
  f * 1e5 * cls_csq * v * v / mc2.

(** [calculate_flux(fluxmap)]: the instance after the call and the array
    of differential fluxes. *)
Definition calculate_flux (sp : special) (self : t) (fm : fluxmap)
  : t * result (list (list R)) :=
  let self := if set_defaults self then set_source_parameters_default self
              else self in
  (self,
   e <- getattr (ec self) ;;
   k <- getattr (kappa self) ;;
   nd <- getattr (n self) ;;
   Ok (map2 (map2 (flux_cell sp (get_mc2 self) e nd k))
            (final_E fm) (init_E fm))).

End ptm_postprocessor.

(** ** omni_quicklook_sep.py: instrFOV and calculate_omni *)

Definition dot (a b : np.vec3) : R :=
  let '(a1, a2, a3) := a in
  let '(b1, b2, b3) := b in
  a1 * b1 + a2 * b2 + a3 * b3.

Definition scale (c : R) (a : np.vec3) : np.vec3 :=
  let '(a1, a2, a3) := a in (c * a1, c * a2, c * a3).

(** [a / c] on a vector *)
Definition vdiv (a : np.vec3) (c : R) : np.vec3 :=
  let '(a1, a2, a3) := a in (a1 / c, a2 / c, a3 / c).

(** [instrFOV]: the angle, in degrees, between the inverse of the axis of
    the field of view and every initial velocity.  The cosine is exact here;
    in floats it is rounded, and [np.arccos] returns NaN when the rounded
    cosine of two (anti)parallel directions leaves [-1, 1]. *)
Definition instrFOV (fm : fluxmap) : list (list R) :=
  let fovaxis := scale (-1) (position fm) in
  let fovaxis := vdiv fovaxis (np.linalg_norm fovaxis) in
  map (map (fun v =>
              rad2deg (acos (dot (scale (-1) fovaxis)
                                 (vdiv v (np.linalg_norm v))))))
      (init_v fm).

(** [a.shape] of a 2-D array given by its rows. *)
Definition shape_of {A : Type} (g : list (list A)) : nat * nat :=
  (length g, length (hd [] g)).

(** [a[mask] = v] for a boolean mask of the shape of [a]. *)
Definition mask_assign (a : list (list R)) (mask : list (list bool)) (v : R)
  : result (list (list R)) :=
  if (length a =? length mask)%nat
     && forallb (fun p => (length (fst p) =? length (snd p))%nat) (combine a mask)
  then Ok (map2 (map2 (fun x (m : bool) => if m then v else x)) a mask)
  else Raise IndexError.

(** [fluxmap['final_E'] = fluxmap['init_E']] *)
Definition set_final_E (fm : fluxmap) (v : list (list R)) : fluxmap :=
  {| position := position fm; energies := energies fm; angles := angles fm;
     init_E := init_E fm; final_E := v;
     final_x := final_x fm; init_v := init_v fm |}.

Section CalculateOmni.

(** [pp.map_flux] and [pp.get_omni_flux], for the postprocessor [pp] that
    [calculate_omni] creates and configures: these two methods are not in
    the sources at hand and stay parameters. *)
Variable map_flux : fluxmap -> result (list (list R)).
Variable get_omni_flux : list R -> list (list R) -> result (list R).

(** One step of the loop of the geometric access mask. *)
Definition access_mask_step (fm : fluxmap) (diff_flux : list (list R))
  (p : nat * nat) : result (list (list R)) :=
  let idx := Z.of_nat (fst p) in
  let jdx := Z.of_nat (snd p) in
  x <- getitem2 (final_x fm) idx jdx ;;
  if Rgeb (np.linalg_norm x) 14.99 then Ok diff_flux
  else setitem2 diff_flux idx jdx 0.

(** The differential flux [diff_flux] as it is handed to [get_omni_flux],
    with the flux map as the call leaves it. *)
Definition calculate_omni_diff_flux (fm : fluxmap) (fov initialE : bool)
  : result (fluxmap * list (list R)) :=
  let fm := if initialE then set_final_E fm (init_E fm) else fm in
  diff_flux <- map_flux fm ;;
  diff_flux <-
    (if negb initialE then
       let '(nener, nalph) := shape_of diff_flux in
       foldM (access_mask_step fm)
             (list_prod (seq 0 nener) (seq 0 nalph)) diff_flux
     else Ok diff_flux) ;;
  diff_flux <-
    (if fov then
       let angles := instrFOV fm in
       let amask := map (map (fun a => Rltb a 90)) angles in
       mask_assign diff_flux amask 0
     else Ok diff_flux) ;;
  Ok (fm, diff_flux).

Definition calculate_omni (fm : fluxmap) (fov initialE : bool)
  : result (fluxmap * list R) :=
  r <- calculate_omni_diff_flux fm fov initialE ;;
  omni <- get_omni_flux (angles (fst r)) (snd r) ;;
  Ok (fst r, omni).

End CalculateOmni.

(** * Vocabulary of the statements *)

(** The access fraction of every energy, as [cutoffs] computes it when the
    rows of [final_x] exist. *)
Definition access_count_row (row : list np.vec3) : nat :=
  np.count_true (map (fun v => Rgeb (np.linalg_norm v) 14.99) row).

Definition allow_of (fm : fluxmap) : list R :=
  map (fun row => INR (access_count_row row) / INR (length (angles fm)))
      (firstn (length (energies fm)) (final_x fm)).

Definition en_mev_of (fm : fluxmap) : list R :=
  map (fun e => e / 1e3) (energies fm).

Definition full_access_of (fm : fluxmap) : list bool :=
  map (fun a => Rgtb a 0.82) (allow_of fm).

(** Index [k] starts a contiguous run of [true] in [fa]. *)
Definition run_start (fa : list bool) (k : nat) : Prop :=
  nth k fa false = true /\ (k = O \/ nth (k - 1) fa false = false).

Definition first_run_start (fa : list bool) (k : nat) : Prop :=
  run_start fa k /\ forall j, run_start fa j -> (k <= j)%nat.

Definition last_run_start (fa : list bool) (k : nat) : Prop :=
  run_start fa k /\ forall j, run_start fa j -> (j <= k)%nat.

(** The starts of the runs of [true] of [l], by a scan from the left;
    [prev] is the element before [l] and [i] the index of its head. *)
Fixpoint run_starts (prev : bool) (i : nat) (l : list bool) : list nat :=
  match l with
  | [] => []
  | b :: t => if b && negb prev then i :: run_starts b (S i) t
              else run_starts b (S i) t
  end.

(** The cells of the grid that lack geometric access, and all cells. *)
Definition forbidden_count_row (row : list np.vec3) : nat :=
  length (filter (fun v => negb (Rgeb (np.linalg_norm v) 14.99)) row).

Definition N_forbidden (fm : fluxmap) : nat :=
  list_sum (map forbidden_count_row
                (firstn (length (energies fm)) (final_x fm))).

Definition N_accessible (fm : fluxmap) : nat :=
  list_sum (map access_count_row
                (firstn (length (energies fm)) (final_x fm))).

Definition N_total (fm : fluxmap) : nat :=
  (length (energies fm) * length (angles fm))%nat.

(** The instance after [k] calls [set_source_parameters(n_dens, e_char, kap,
    mass)] on a new [ptm_postprocessor]. *)
Definition after_calls (dir : string) (n_dens e_char kap mass : R) (k : nat)
  : ptm_postprocessor.t :=
  Nat.iter k
    (fun self => ptm_postprocessor.set_source_parameters self n_dens e_char kap mass)
    (ptm_postprocessor.init dir).

(** The single-component kappa flux, as [energy_to_flux] evaluates it for
    [kind='kappa'] without energy flux. *)
Definition kappa_flux (sp : special) (ei ef ec n mc2 kap : R) : R :=
  let gamf := 1 + ef / mc2 in
  let v := ckm * sqrt (gamf * gamf - 1.0) / gamf in
  let Wc := ec * (1.0 - 1.5 / kap) in
  let f0 := n * Rpower (mc2 / (ckm * ckm * Wc * 2 * PI * kap)) 1.5
            * (gamma sp (kap + 1) / gamma sp (kap - 0.5)) in
  let f := f0 * Rpower (1 + ei / (kap * Wc)) (- (kap + 1)) in
  1e5 * ckm * ckm * v * v / mc2 * f.

(** The position of [x] in a vector, if it occurs. *)
Fixpoint index_of (x : R) (vec : list R) : option nat :=
  match vec with
  | [] => None
  | y :: t => if Reqb x y then Some O else option_map S (index_of x t)
  end.

(** The row of the table that is written last into the cell of energy [e]
    and pitch angle [pa]. *)
Definition row_matches (e pa : R) (r : maprow) : bool :=
  Reqb (col_E r) e && Reqb (col_pa r) pa.

Definition last_match (res : list maprow) (e pa : R) : option maprow :=
  find (row_matches e pa) (rev res).

(** The four grids hold, at cell [(i, j)], the values of the row [r], or
    the zeros they were created with. *)
Definition cell_holds (g : grids) (i j : nat) (r : option maprow) : Prop :=
  match r with
  | Some r =>
      cell 0 (Einit g) i j = col_E r /\ cell 0 (Efinal g) i j = col_Ef r /\
      cell vzero (xfinal g) i j = col_x r /\ cell vzero (vinit g) i j = col_v r
  | None =>
      cell 0 (Einit g) i j = 0 /\ cell 0 (Efinal g) i j = 0 /\
      cell vzero (xfinal g) i j = vzero /\ cell vzero (vinit g) i j = vzero
  end.

Definition grids_shape (g : grids) (n m : nat) : Prop :=
  has_shape (Einit g) n m /\ has_shape (Efinal g) n m /\
  has_shape (xfinal g) n m /\ has_shape (vinit g) n m.

Definition grids_of (fm : fluxmap) : grids :=
  {| Einit := init_E fm; Efinal := final_E fm;
     xfinal := final_x fm; vinit := init_v fm |}.

(** * The rigidity conversions of the class Proton *)

Module Proton.

(** Modelled from the spec: the charge [q] of the proton, in elementary
    charges (the class [Proton] of [ptm_tools] is missing from the sources at
    hand). *)
Definition q : R := 1.

(** Modelled from the spec: [Proton(E).getRigidity()], missing from the
    sources at hand; the rigidity of a proton of kinetic energy [E] is
    [sqrt (E (E + 2 mc2_p)) / q], for a rest energy [mc2_p] in the units of
    [E]. *)
Definition getRigidity (mc2_p : R) (E : R) : R :=
  sqrt (E * (E + 2 * mc2_p)) / q.

(** Modelled from the spec: [Proton.fromRigidity(r).energy], missing from the
    sources at hand; the algebraic inverse of [getRigidity]. *)
Definition fromRigidity (mc2_p : R) (r : R) : R :=
  sqrt ((r * q) * (r * q) + mc2_p * mc2_p) - mc2_p.

(** The rest energy of the proton in MeV, for the examples. *)
Definition mc2_p : R := 938.272.

End Proton.

(** * scipy.special at the points of the examples *)

(** The values of the Gamma function at 2, 7/2, 9/2 and 6, which are the
    arguments [kappa + 1] and [kappa - 0.5] for [kappa = 2.5] and
    [kappa = 5]; the examples read no other value (1 stands for them). *)
Definition gamma_table (x : R) : R :=
  if Req_dec_T x 6 then 120
  else if Req_dec_T x 4.5 then 105 / 16 * sqrt PI
  else if Req_dec_T x 3.5 then 15 / 8 * sqrt PI
  else if Req_dec_T x 2 then 1
  else 1.

Definition sp_table : special :=
  {| gamma := gamma_table;
     gammaln := fun x => ln (gamma_table x);
     kn := fun _ _ => 1 |}.

(** The differential flux of the postprocessor of [ptm_postprocessing], set
    up with the parameters that [calculate_omni] passes to its own. *)
Definition map_flux_kappa (sp : special) (fm : fluxmap)
  : result (list (list R)) :=
  snd (ptm_postprocessor.calculate_flux sp
         (ptm_postprocessor.set_source_parameters
            (ptm_postprocessor.init "") 5e-6 752.0 5.0 1847.0)
         fm).

(** * Sample inputs *)

(** A final position on the outer boundary and one at the origin. *)
Definition x_far : np.vec3 := (15, 0, 0).
Definition x_near : np.vec3 := (0, 0, 0).

(** Three energies, two pitch angles; full access at the first and the last
    energy, half access in between. *)
Definition fm_runs : fluxmap :=
  {| position := (4, 0, 0);
     energies := [1000; 2000; 3000];
     angles := [0; 90];
     init_E := [[1000; 1000]; [2000; 2000]; [3000; 3000]];
     final_E := [[1000; 1000]; [2000; 2000]; [3000; 3000]];
     final_x := [[x_far; x_far]; [x_far; x_near]; [x_far; x_far]];
     init_v := [[(1, 0, 0); (1, 0, 0)]; [(1, 0, 0); (1, 0, 0)];
                [(1, 0, 0); (1, 0, 0)]] |}.

(** Two energies, two pitch angles, no cell with access. *)
Definition fm_dark : fluxmap :=
  {| position := (4, 0, 0);
     energies := [1000; 2000];
     angles := [0; 90];
     init_E := [[1000; 1000]; [2000; 2000]];
     final_E := [[1000; 1000]; [2000; 2000]];
     final_x := [[x_near; x_near]; [x_near; x_near]];
     init_v := [[(1, 0, 0); (1, 0, 0)]; [(1, 0, 0); (1, 0, 0)]] |}.

(** A uniform flux given with the pitch angle on the first axis
    (three angles, two energies). *)
Definition pav_3 : list R := [0; 90; 180].

Definition diffJ_3x2 : ndarray2 :=
  {| shape0 := 3; shape1 := 2; rows := [[1; 1]; [1; 1]; [1; 1]] |}.

(** One energy and two pitch angles, seen from (4, 0, 0): both particles end
    on the boundary; the first starts along the inverse of the field-of-view
    axis (into the aperture), the second against it. *)
Definition fm_fov : fluxmap :=
  {| position := (4, 0, 0);
     energies := [1000];
     angles := [0; 180];
     init_E := [[1000; 1000]];
     final_E := [[1000; 1000]];
     final_x := [[x_far; x_far]];
     init_v := [[(1, 0, 0); (-1, 0, 0)]] |}.

(** A table of two rows. *)
Definition row_a : maprow :=
  {| col0 := 1; col_x := x_far; col_E := 1000; col_pa := 0;
     col_Ef := 900; col_v := (1, 0, 0) |}.

Definition row_b : maprow :=
  {| col0 := 2; col_x := x_near; col_E := 2000; col_pa := 90;
     col_Ef := 1800; col_v := (0, 1, 0) |}.

Definition table_ab : list maprow := [row_a; row_b].

(** * Auxiliary definitions of the proofs *)

(** The flat array that [reshape(-1, 2)] turns into the pairs [ps]. *)
Definition flatten_pairs (ps : list (Z * Z)) : list Z :=
  flat_map (fun p => [fst p; snd p]) ps.

(** [np.equal(invec, True).view(np.int8)], element by element. *)
Definition bitZ (b : bool) : Z := if b then 1%Z else 0%Z.

(** The index of the upper cutoff: the start of the last run of full access,
    or the last energy when there is no such run. *)
Definition ec_high_of (fm : fluxmap) : R :=
  match run_starts false 0 (full_access_of fm) with
  | [] => last (en_mev_of fm) 0
  | _ :: _ => nth (last (run_starts false 0 (full_access_of fm)) 0%nat)
                  (en_mev_of fm) 0
  end.

(** The dictionary that [cutoffs] returns when the lower cutoff is at index
    [idx_low]. *)
Definition cutoffs_value (getRigidity fromRigidity : R -> R) (fm : fluxmap)
  (idx_low : Z) : cdict :=
  let allow := allow_of fm in
  let ec_low := nth (Z.to_nat idx_low) (en_mev_of fm) 0 in
  let ec_high := ec_high_of fm in
  let Nforbid := np.sum (map (fun a => a * INR (length (angles fm))) allow) in
  let Ntot := INR (length allow * length (angles fm)) in
  let r_low := getRigidity ec_low in
  let r_high := getRigidity ec_high in
  let r_effect := r_low + (r_high - r_low) * Nforbid / Ntot in
  {| ec_low := ec_low; r_low := r_low;
     ec_high := ec_high; r_high := r_high;
     r_eff := r_effect;
     ec_eff := fromRigidity r_effect |}.

(** The array after [g[i, j] = v], for an index in range. *)
Definition set_cell {A : Type} (g : list (list A)) (i j : nat) (v : A)
  : list (list A) :=
  set_nth g i (set_nth (nth i g []) j v).

(** The particle of cell [(i, j)] did not reach the boundary. *)
Definition below_boundary (fm : fluxmap) (i j : nat) : Prop :=
  np.linalg_norm (cell vzero (final_x fm) i j) < 14.99.

(** The invariant of the loop of [parse_map_file] once the rows [pre] are
    done. *)
Definition grids_inv (envec pavec : list R) (pre : list maprow) (g : grids)
  : Prop :=
  grids_shape g (length envec) (length pavec) /\
  forall i j, (i < length envec)%nat -> (j < length pavec)%nat ->
    cell_holds g i j (last_match pre (nth i envec 0) (nth j pavec 0)).

(** * ptm_tools.py: parse_trajectory_file *)

Module traj.

(** The exceptions of [parse_trajectory_file]. *)
Inductive error : Type :=
| UnboundLocalError
| IndexError
| ValueError.

Inductive outcome (A : Type) : Type :=
| Done (a : A)
| Fail (e : error).
Arguments Done {A} a.
Arguments Fail {A} e.

Definition andThen {A B : Type} (m : outcome A) (k : A -> outcome B)
  : outcome B :=
  match m with
  | Done a => k a
  | Fail e => Fail e
  end.

(** A read of a local variable, bound or not yet. *)
Definition local {A : Type} (v : option A) : outcome A :=
  match v with
  | Some a => Done a
  | None => Fail UnboundLocalError
  end.

(** [str.isspace] of an ASCII character: tab to carriage return, the four
    separators 28 to 31, and the space.  White space outside ASCII (U+0085,
    U+00A0, ...) is not modelled: the statements are about lines of ASCII
    characters. *)
Definition is_space (c : ascii) : bool :=
  let n := nat_of_ascii c in
  ((9 <=? n)%nat && (n <=? 13)%nat) || ((28 <=? n)%nat && (n <=? 32)%nat).

Fixpoint lstrip (s : string) : string :=
  match s with
  | EmptyString => EmptyString
  | String c t => if is_space c then lstrip t else s
  end.

Fixpoint rstrip (s : string) : string :=
  match s with
  | EmptyString => EmptyString
  | String c t =>
      match rstrip t with
      | EmptyString => if is_space c then EmptyString else String c EmptyString
      | t' => String c t'
      end
  end.

(** [s.strip()] *)
Definition strip (s : string) : string := lstrip (rstrip s).

(** [s.split()]: the maximal runs of characters that are not spaces; [acc]
    is the run being read. *)
Fixpoint split_from (acc : string) (s : string) : list string :=
  match s with
  | EmptyString => match acc with
                   | EmptyString => []
                   | _ => [acc]
                   end
  | String c t =>
      if is_space c then
        match acc with
        | EmptyString => split_from EmptyString t
        | _ => acc :: split_from EmptyString t
        end
      else split_from (acc ++ String c EmptyString) t
  end.

Definition split (s : string) : list string := split_from EmptyString s.

(** [s.startswith('#')] *)
Definition startswith_hash (s : string) : bool :=
  match s with
  | String c _ => Ascii.eqb c "#"
  | EmptyString => false
  end.

(** The dictionary [dataDict], particle number to array. *)
Definition dict : Type := list (Z * list (list R)).

Fixpoint dict_get (d : dict) (k : Z) : option (list (list R)) :=
  match d with
  | [] => None
  | (k', v) :: t => if (k =? k')%Z then Some v else dict_get t k
  end.

(** [d[k] = v] *)
Fixpoint dict_set (d : dict) (k : Z) (v : list (list R)) : dict :=
  match d with
  | [] => [(k, v)]
  | (k', v') :: t => if (k =? k')%Z then (k, v) :: t
                     else (k', v') :: dict_set t k v
  end.

Section Parse.

(** [int(s)] and [float(s)] of Python on a token: [None] stands for their
    [ValueError]. *)
Variable int_of_string : string -> option Z.
Variable float_of_string : string -> option R.

Fixpoint floats (toks : list string) : outcome (list R) :=
  match toks with
  | [] => Done []
  | t :: r =>
      match float_of_string t with
      | Some x => andThen (floats r) (fun xs => Done (x :: xs))
      | None => Fail ValueError
      end
  end.

Fixpoint float_rows (width : nat) (rows : list (list string))
  : outcome (list (list R)) :=
  match rows with
  | [] => Done []
  | r :: t =>
      if (length r =? width)%nat then
        andThen (floats r) (fun x =>
        andThen (float_rows width t) (fun xs => Done (x :: xs)))
      else Fail ValueError
  end.

(** [np.array(parr, dtype=np.float)] for a list of lists of tokens, with a
    NumPy that has the alias [np.float] (before 1.24): the rows have one
    length and every token reads as a float, or [ValueError]. *)
Definition np_array (parr : list (list string)) : outcome (list (list R)) :=
  float_rows (length (hd [] parr)) parr.

(** The local variables of the loop. *)
Record locals : Type := {
  pnum : option Z;
  parr : option (list (list string));
  dataDict : dict
}.

(** [dataDict[pnum] = np.array(parr, dtype=np.float)] *)
Definition store (s : locals) : outcome dict :=
  andThen (local (parr s)) (fun rows =>
  andThen (np_array rows) (fun arr =>
  andThen (local (pnum s)) (fun p =>
  Done (dict_set (dataDict s) p arr)))).

(** The body of the loop over [enumerate(flines)]. *)
Definition step (idx : nat) (s : locals) (line : string) : outcome locals :=
  let line := strip line in
  if startswith_hash line then
    andThen (if negb (idx =? 0)%nat then store s else Done (dataDict s))
      (fun d =>
    andThen (match nth_error (split line) 1 with
             | Some tok => Done tok
             | None => Fail IndexError
             end) (fun tok =>
    andThen (match int_of_string tok with
             | Some p => Done p
             | None => Fail ValueError
             end) (fun p =>
    Done {| pnum := Some p; parr := Some []; dataDict := d |})))
  else
    andThen (local (parr s)) (fun rows =>
    Done {| pnum := pnum s; parr := Some (rows ++ [split line]);
            dataDict := dataDict s |}).

Fixpoint loop (idx : nat) (s : locals) (flines : list string)
  : outcome locals :=
  match flines with
  | [] => Done s
  | line :: t => andThen (step idx s line) (fun s' => loop (S idx) s' t)
  end.

(** [parse_trajectory_file], from the lines of the file. *)
Definition parse_trajectory_file (flines : list string) : outcome dict :=
  andThen (loop 0 {| pnum := None; parr := None; dataDict := [] |} flines)
          store.

(** A block of the file: the tokens of its header line and of its data
    lines. *)
Definition block : Type := (list string * list (list string))%type.

(** The blocks of the lines that follow the header [hdr], whose data lines
    read so far are [rows]. *)
Fixpoint blocks (hdr : list string) (rows : list (list string))
  (flines : list string) : list block :=
  match flines with
  | [] => [(hdr, rows)]
  | line :: t =>
      if startswith_hash (strip line)
      then (hdr, rows) :: blocks (split (strip line)) [] t
      else blocks hdr (rows ++ [split (strip line)]) t
  end.

(** The particle number of a block, when its header has one. *)
Definition block_id (b : block) : option Z :=
  match nth_error (fst b) 1 with
  | Some tok => int_of_string tok
  | None => None
  end.

End Parse.

End traj.

(** * Vocabulary of the further properties *)

(** A string of ASCII characters: on such strings [lower] is [str.lower] and
    [traj.is_space] is the white space of [str.strip] and [str.split]. *)
Fixpoint ascii_only (s : string) : bool :=
  match s with
  | EmptyString => true
  | String c t => (nat_of_ascii c <? 128)%nat && ascii_only t
  end.

(** The source parameters of an instance, once they are set, are those of a
    kappa distribution: a positive characteristic energy, kappa above 1.5 and
    a positive mass energy.  [calculate_flux] divides by
    [csq * Wc * 2 * pi * kappa] and by [kappa], and Python raises
    [ZeroDivisionError] for a divisor that is zero. *)
Definition positive_source (self : ptm_postprocessor.t) : Prop :=
  match ptm_postprocessor.ec self, ptm_postprocessor.kappa self with
  | Some e, Some k => 0 < e /\ 1.5 < k /\ 0 < ptm_postprocessor.get_mc2 self
  | _, _ => True
  end.

(** The maximal blocks of [true] of [l] as half-open index ranges, by a scan
    from the left; [i] is the index of the head of [l] and [open] the start
    of the block that is open there. *)
Fixpoint scan_runs (open : option nat) (i : nat) (l : list bool)
  : list (nat * nat) :=
  match l with
  | [] => match open with
          | Some s => [(s, i)]
          | None => []
          end
  | true :: t => scan_runs (match open with
                            | Some s => Some s
                            | None => Some i
                            end) (S i) t
  | false :: t => match open with
                  | Some s => (s, i) :: scan_runs None (S i) t
                  | None => scan_runs None (S i) t
                  end
  end.

(** Ranges that are not empty, in increasing order, with a gap between two
    of them, from [lo] on. *)
Fixpoint separated (lo : nat) (ps : list (nat * nat)) : Prop :=
  match ps with
  | [] => True
  | (s, e) :: r => (lo <= s)%nat /\ (s < e)%nat /\ separated (S e) r
  end.

Definition zpair (p : nat * nat) : Z * Z := (Z.of_nat (fst p), Z.of_nat (snd p)).

(** The exception of [energy_to_flux] for a kind it does not know. *)
Definition unsupported_kind (kind : string) : exn :=
  Exception ("Error in energy_to_flux: kind= " ++ kind ++ " is not supported").

(** ** ptm_postprocessing.py: calculate_omnidirectional_flux *)

(** [np.einsum("i,ji", w, f)] with its check of the operands: the two sizes
    of the summed axis agree, or one of them is 1 and is broadcast; the call
    raises [ValueError] otherwise. *)
Definition einsum_i_ji_checked (w : list R) (f : ndarray2) : result (list R) :=
  if (length w =? shape1 f)%nat then
    Ok (map (fun frow => np.sum (map2 Rmult w frow)) (rows f))
  else if (length w =? 1)%nat then
    Ok (map (fun frow => np.sum (map (fun x => hd 0 w * x) frow)) (rows f))
  else if (shape1 f =? 1)%nat then
    Ok (map (fun frow => np.sum (map (fun wi => wi * hd 0 frow) w)) (rows f))
  else Raise ValueError.

(** The class attribute [__dtor]. *)
Definition cls_dtor : R := PI / 180.0.

(** The method [calculate_omnidirectional_flux(pav, flux)] of
    [ptm_postprocessor] ([self] is only read for [__dtor]). *)
Definition pp_calculate_omnidirectional_flux (pav : list R) (flux : ndarray2)
  : result (list R) :=
  let Q := map (fun a => a * cls_dtor) pav in
  let coef := map (fun d => 4.0 * PI * d) (diff Q) in
  let favg :=
    {| shape0 := shape0 flux;
       shape1 := shape1 flux - 1;
       rows := map (fun row =>
                      map (fun s => 0.5 * s)
                          (map2 Rplus (from1 row) (upto_last row)))
                   (rows flux) |} in
  let savg := map (fun s => sin (0.5 * s)) (map2 Rplus (from1 Q) (upto_last Q)) in
  einsum_i_ji_checked (map2 Rmult coef savg) favg.

(** The array [c * a]. *)
Definition scale_array (c : R) (a : ndarray2) : ndarray2 :=
  {| shape0 := shape0 a; shape1 := shape1 a;
     rows := map (map (fun x => c * x)) (rows a) |}.

(** ** ptm_postprocessing.py: seconds_to_hhmmss *)

(** [a // b] on floats: the floor of the quotient, as a float. *)
Definition floordiv (a b : R) : R := IZR (Int_part (a / b)).

(** [int(x)] of a float: truncation toward zero. *)
Definition int_of_float (x : R) : Z :=
  if Rle_dec 0 x then Int_part x else (- Int_part (- x))%Z.

(** The method [seconds_to_hhmmss(tsec)] ([self] is not used).  The
    arithmetic is exact here, as it is in floats for the times of a day
    ([0 <= tsec < 86400], the range of the docstring); for large floats the
    products and differences are rounded. *)
Definition seconds_to_hhmmss (tsec : R) : Z * Z * Z :=
  let hh := floordiv tsec 3600 in
  let mm := floordiv (tsec - 3600 * hh) 60 in
  let ss := tsec - 3600 * hh - 60 * mm in
  (int_of_float hh, int_of_float mm, int_of_float ss).

(** The instances of [ptm_postprocessor] that a program can hold: a new
    one, and one after a call of [set_source_parameters] or of
    [calculate_flux]. *)
Inductive reachable : ptm_postprocessor.t -> Prop :=
| reach_init (dir : string) : reachable (ptm_postprocessor.init dir)
| reach_set (self : ptm_postprocessor.t) (n_dens e_char kap mass : R) :
    reachable self ->
    reachable (ptm_postprocessor.set_source_parameters
                 self n_dens e_char kap mass)
| reach_flux (sp : special) (self : ptm_postprocessor.t) (fm : fluxmap) :
    reachable self ->
    reachable (fst (ptm_postprocessor.calculate_flux sp self fm)).

(** The store of one block of a trajectory file, number first, then array. *)
Definition store_block (int_of_string : string -> option Z)
  (float_of_string : string -> option R) (d : traj.dict) (b : traj.block)
  : traj.outcome traj.dict :=
  traj.andThen (match nth_error (fst b) 1 with
                | Some tok => traj.Done tok
                | None => traj.Fail traj.IndexError
                end) (fun tok =>
  traj.andThen (match int_of_string tok with
                | Some p => traj.Done p
                | None => traj.Fail traj.ValueError
                end) (fun p =>
  traj.andThen (traj.np_array float_of_string (snd b)) (fun arr =>
  traj.Done (traj.dict_set d p arr)))).

Fixpoint store_blocks (int_of_string : string -> option Z)
  (float_of_string : string -> option R) (d : traj.dict)
  (bs : list traj.block) : traj.outcome traj.dict :=
  match bs with
  | [] => traj.Done d
  | b :: t =>
      traj.andThen (store_block int_of_string float_of_string d b)
        (fun d' => store_blocks int_of_string float_of_string d' t)
  end.

(** The block [b] is the block of particle [k]. *)
Definition has_id (int_of_string : string -> option Z) (k : Z)
  (b : traj.block) : bool :=
  match traj.block_id int_of_string b with
  | Some p => (p =? k)%Z
  | None => false
  end.

(** Decimal digits read as a natural number, for the examples: what [int]
    and [float] return on such tokens. *)
Fixpoint digits (acc : Z) (s : string) : option Z :=
  match s with
  | EmptyString => Some acc
  | String c t =>
      let n := nat_of_ascii c in
      if ((48 <=? n)%nat && (n <=? 57)%nat)%bool
      then digits (10 * acc + Z.of_nat (n - 48))%Z t
      else None
  end.

Definition int_digits (s : string) : option Z :=
  match s with
  | EmptyString => None
  | _ => digits 0 s
  end.

Definition float_digits (s : string) : option R := option_map IZR (int_digits s).

(** A trajectory file of two particles, the second one written twice. *)
Definition traj_lines : list string :=
  ["# 1 "; " 0 1 2"; "3 4 5"; "# 2"; "6 7 8"; "# 2"; "9 9 9"]%string.

(** ** ptm_postprocessing.py: process_run, process_ram_boundary, write_ram_fluxes *)

Module ram.

(** ['{:04}'.format(z)] for an integer: the decimal digits, filled with
    zeros after the sign up to four characters. *)
Fixpoint zeros (k : nat) : string :=
  match k with
  | O => EmptyString
  | S k' => String "0" (zeros k')
  end.

Definition zfill (w : nat) (s : string) : string :=
  (zeros (w - String.length s) ++ s)%string.

Definition format04 (z : Z) : string :=
  let s := DecimalString.NilZero.string_of_uint (N.to_uint (Z.abs_N z)) in
  if (z <? 0)%Z then String "-" (zfill 3 s) else zfill 4 s.

(** The values that [process_run] stores in [results]: the grid of final
    positions and floats. *)
Inductive value : Type :=
| Array3 (a : list (list np.vec3))
| Float (x : R).

(** A dictionary with string keys, in the order of insertion. *)
Fixpoint get {A : Type} (d : list (string * A)) (k : string) : option A :=
  match d with
  | [] => None
  | (k', v) :: t => if String.eqb k k' then Some v else get t k
  end.

(** [d[k] = v] *)
Fixpoint set {A : Type} (d : list (string * A)) (k : string) (v : A)
  : list (string * A) :=
  match d with
  | [] => [(k, v)]
  | (k', v') :: t => if String.eqb k k' then (k, v) :: t
                     else (k', v') :: set t k v
  end.

Definition results : Type := list (string * value).

(** The entries of a dictionary under integer keys. *)
Fixpoint get_int {A : Type} (d : list (Z * A)) (k : Z) : option A :=
  match d with
  | [] => None
  | (k', v) :: t => if (k =? k')%Z then Some v else get_int t k
  end.

Fixpoint set_int {A : Type} (d : list (Z * A)) (k : Z) (v : A)
  : list (Z * A) :=
  match d with
  | [] => [(k, v)]
  | (k', v') :: t => if (k =? k')%Z then (k, v) :: t
                     else (k', v') :: set_int t k v
  end.

(** The dictionary [fluxdata] of [process_ram_boundary]: its five string
    keys, and the results of the runs under their integer identifiers.
    Under the key 'runid' is the iterator [map(int, rungrid[:,0])] of
    Python 3: [runid] holds the identifiers it has yet to give. *)
Record fluxdata : Type := {
  rungrid : list (list R);
  runid : list Z;
  times : list R;
  R_ : R;
  mlt : list R;
  runs : list (Z * results)
}.

(** The exceptions of these methods: [KeyError] with its key, and the
    exceptions of the functions they call. *)
Inductive error : Type :=
| KeyError_str (k : string)
| KeyError_int (k : Z)
| Builtin (e : exn).

Inductive outcome (A : Type) : Type :=
| Done (a : A)
| Fail (e : error).
Arguments Done {A} a.
Arguments Fail {A} e.

Definition andThen {A B : Type} (m : outcome A) (k : A -> outcome B)
  : outcome B :=
  match m with
  | Done a => k a
  | Fail e => Fail e
  end.

Definition lift {A : Type} (m : result A) : outcome A :=
  match m with
  | Ok a => Done a
  | Raise e => Fail (Builtin e)
  end.

(** [d[k]] for a string key and for an integer key. *)
Definition item {A : Type} (d : list (string * A)) (k : string) : outcome A :=
  match get d k with
  | Some v => Done v
  | None => Fail (KeyError_str k)
  end.

Definition item_int {A : Type} (d : list (Z * A)) (k : Z) : outcome A :=
  match get_int d k with
  | Some v => Done v
  | None => Fail (KeyError_int k)
  end.

(** [a[:, j]] for the array that [np.loadtxt] makes of the rows [a] of a
    file: with fewer than two rows the array has one dimension or none, and
    the index raises [IndexError], as it does for a column that is not
    there. *)
Definition column (a : list (list R)) (j : nat) : result (list R) :=
  if (length a <? 2)%nat then Raise IndexError
  else mapM (fun row => match nth_error row j with
                        | Some x => Ok x
                        | None => Raise IndexError
                        end) a.

Definition Rleb (x y : R) : bool := if Rle_dec x y then true else false.

(** [np.allclose(a, b, rtol)] for an array [a] and a float [b], with the
    default [atol=1e-8]. *)
Definition allclose (a : list R) (b rtol : R) : bool :=
  forallb (fun x => Rleb (Rabs (x - b)) (1e-8 + rtol * Rabs b)) a.

Definition not_fixed_distance : exn :=
  Exception "Error in process_ram_boundary: points are not at fixed radial distance.".

(** The flux array with its shape. *)
Definition ndarray (g : list (list R)) : ndarray2 :=
  {| shape0 := fst (shape_of g); shape1 := snd (shape_of g); rows := g |}.

Section Files.

Variable sp : special.

(** [os.path.isfile] *)
Variable isfile : string -> bool.

(** What [parse_map_file] reads from the file of a name: the position in
    its header and the table of [np.loadtxt], or the exception raised on the
    way. *)
Variable read_map : string -> result (np.vec3 * list maprow).

(** [np.loadtxt(fname, skiprows=1)]: the rows of numbers of a file. *)
Variable loadtxt : string -> result (list (list R)).

(** [process_run(runid)]: the instance after the call and [results] (what
    [verbose] prints is not modelled; it reads keys of the flux map that are
    there). *)
Definition process_run (self : ptm_postprocessor.t) (runid : Z)
  : ptm_postprocessor.t * result results :=
  let fname := (ptm_postprocessor.filedir self ++ "/map_" ++ format04 runid
                ++ ".dat")%string in
  if isfile fname then
    match (r <- read_map fname ;; parse_map_file (fst r) (snd r)) with
    | Raise e => (self, Raise e)
    | Ok fm =>
        let (self, flux) := ptm_postprocessor.calculate_flux sp self fm in
        (self,
         flux <- flux ;;
         omni <- pp_calculate_omnidirectional_flux (angles fm) (ndarray flux) ;;
         let results := set [] "position" (Array3 (final_x fm)) in
         kap <- ptm_postprocessor.getattr (ptm_postprocessor.kappa self) ;;
         let results := set results "kappa" (Float kap) in
         nd <- ptm_postprocessor.getattr (ptm_postprocessor.n self) ;;
         let results := set results "n_dens" (Float nd) in
         e <- ptm_postprocessor.getattr (ptm_postprocessor.ec self) ;;
         let results := set results "e_char" (Float e) in
         Ok results)
    end
  else
    (self, Raise (Exception ("Error in process_run: " ++ fname
                             ++ " not found.")))%string.

(** The loop [for runid in runids: fluxdata[runid] = self.process_run(runid)]
    over the identifiers that the iterator [runids] gives. *)
Fixpoint process_runs (self : ptm_postprocessor.t) (runids : list Z)
  (fd : list (Z * results)) : ptm_postprocessor.t * result (list (Z * results)) :=
  match runids with
  | [] => (self, Ok fd)
  | id :: rest =>
      let (self, r) := process_run self id in
      match r with
      | Ok res => process_runs self rest (set_int fd id res)
      | Raise e => (self, Raise e)
      end
  end.

(** The rest of [write_ram_fluxes], from the header lines on: the strings
    it formats and the file it writes, for the date, the cadence and the
    value of [fluxdata[1]['energies']]. *)
Variable write_lines : fluxdata -> Z * Z * Z -> R -> value -> outcome unit.

(** [write_ram_fluxes(fluxdata, date)], for a dictionary [fluxdata] that has
    the string keys of [process_ram_boundary] ([self] is read for
    [seconds_to_hhmmss] only, [outdir] is not used). *)
Definition write_ram_fluxes (fd : fluxdata) (date : list (string * Z))
  : outcome unit :=
  andThen (lift (np.getitem (times fd) 1)) (fun t1 =>
  andThen (lift (np.getitem (times fd) 0)) (fun t0 =>
  let cadence := floordiv (t1 - t0) 60 in
  andThen (item date "year") (fun year =>
  andThen (item date "month") (fun month =>
  andThen (item date "day") (fun day =>
  andThen (item_int (runs fd) 1) (fun run1 =>
  andThen (item run1 "energies") (fun energies =>
  write_lines fd (year, month, day) cadence energies))))))).

(** The dictionary that [process_ram_boundary] makes of the run grid, before
    the runs: the iterator under 'runid' has yet to give every identifier. *)
Definition read_rungrid (fname : string) : result fluxdata :=
  rungrid <- loadtxt fname ;;
  c0 <- column rungrid 0 ;;
  let runids := map int_of_float c0 in
  c2 <- column rungrid 2 ;;
  let times := unique.unique c2 in
  c3 <- column rungrid 3 ;;
  let rvals := unique.unique c3 in
  r0 <- np.getitem rvals 0 ;;
  if negb (allclose rvals r0 1e-3) then Raise not_fixed_distance
  else
    r0 <- np.getitem rvals 0 ;;
    c4 <- column rungrid 4 ;;
    Ok {| rungrid := rungrid; runid := runids; times := times; R_ := r0;
          mlt := unique.sort (unique.unique c4); runs := [] |}.

(** [fluxdata] after the loop over the runs: the results are stored and the
    iterator under 'runid', which the loop has consumed, gives no more
    identifiers. *)
Definition with_runs (fd : fluxdata) (r : list (Z * results)) : fluxdata :=
  {| rungrid := rungrid fd; runid := []; times := times fd;
     R_ := R_ fd; mlt := mlt fd; runs := r |}.

(** [process_ram_boundary(griddir, write_files, date=date)]: the instance
    after the call and [fluxdata]. *)
Definition process_ram_boundary (self : ptm_postprocessor.t)
  (griddir : option string) (write_files : bool) (date : list (string * Z))
  : ptm_postprocessor.t * outcome fluxdata :=
  let mydir := match griddir with
               | None => ptm_postprocessor.filedir self
               | Some d => d
               end in
  let fname := (mydir ++ "/rungrid.txt")%string in
  if isfile fname then
    match read_rungrid fname with
    | Raise e => (self, Fail (Builtin e))
    | Ok fd =>
        let (self, r) := process_runs self (runid fd) (runs fd) in
        match r with
        | Raise e => (self, Fail (Builtin e))
        | Ok r =>
            let fd := with_runs fd r in
            (self,
             if write_files then
               andThen (write_ram_fluxes fd date) (fun _ => Done fd)
             else Done fd)
        end
    end
  else
    (self, Fail (Builtin (Exception ("Error in process_rungrid: " ++ fname
                                     ++ " not found")%string))).

End Files.

(** The default of the argument [date]. *)
Definition date_default : list (string * Z) :=
  [("year", 2000%Z); ("month", 1%Z); ("day", 1%Z)]%string.

End ram.

(** ** ptm_tools.py: tm03_moments *)

Module tm03.

(** The dictionary [swD], with the keys that must be defined. *)
Record solar_wind : Type := {
  bperp : R;
  theta : R;
  vx : R;
  n : R;
  p : R
}.

(** The dictionary [res] of the moments: keys 'P', 'T' and 'n'. *)
Record moments : Type := {
  P : R;
  T : R;
  N : R
}.

Definition aT : list R :=
  [0.0000; 1.6780; -0.1606; 1.6690; 4.8200; 2.8550; -0.6020; -0.8360;
   -2.4910; 0.2568; 0.2249; 0.1887; -0.4458; -0.0331; -0.0241; -2.6890;
   1.2220].

Definition aN : list R :=
  [0.0000; -0.1590; 0.6080; 0.5055; 0.0796; 0.2746; 0.0361; -0.0342;
   -0.7935; 1.1620; 0.4756; 0.7117].

Definition aP : list R :=
  [0.0000; 0.0570; 0.5240; 0.0908; 0.5270; 0.0780; -4.4220; -1.5330;
   -1.2170; 2.5400; 0.3200; 0.7540; 1.0480; -0.0740; 1.0150].

(** [a[i]] for an index of the array. *)
Definition at_ (a : list R) (i : nat) : R := nth i a 0.

(** [x ** y] for floats, for a positive [x]. *)
Definition power (x y : R) : R := Rpower x y.

(** [np.arctan2(y, x)], the angle of the point [(x, y)] in [(-PI, PI]]
    (signed zeros apart). *)
Definition arctan2 (y x : R) : R :=
  if Rlt_dec 0 x then atan (y / x)
  else if Rlt_dec x 0 then
    if Rle_dec 0 y then atan (y / x) + PI else atan (y / x) - PI
  else if Rlt_dec 0 y then PI / 2
  else if Rlt_dec y 0 then - (PI / 2)
  else 0.

(** [tm03_moments(x, y, swD, getDefaults)]: the dictionary of the default
    parameters, or the dictionary of the moments. *)
Definition tm03_moments (x y : R) (swD : solar_wind) (getDefaults : bool)
  : solar_wind + moments :=
  if getDefaults then
    inl {| bperp := 5.0; theta := 90.0; vx := 500.0; n := 10.0; p := 3.0 |}
  else
    let bperp_ := bperp swD / 5 in
    let bz := bperp swD * cos (deg2rad (theta swD)) in
    let bzn := if Rgtb bz 0 then bz / 5.0 else 0.0 in
    let bzs := if Rgtb bz 0 then 0.0 else - bz / 5.0 in
    let vsw := vx swD / 500.0 in
    let nsw := n swD / 10.0 in
    let fsw := bperp_ * sqrt (sin (deg2rad (theta swD) / 2)) in
    let rho := sqrt (x * x + y * y) / 10.0 in
    let psw := p swD / 3.0 in
    let phi := - arctan2 y x in
    let rm1 := rho - 1.0 in
    let T_ :=
      at_ aT 1 * vsw + at_ aT 2 * bzn + at_ aT 3 * bzs
      + at_ aT 4
        * exp (- (at_ aT 9 * power vsw (at_ aT 15) + at_ aT 10 * bzn
                  + at_ aT 11 * bzs) * rm1)
      + (at_ aT 5 * vsw + at_ aT 6 * bzn + at_ aT 7 * bzs
         + at_ aT 8
           * exp (- (at_ aT 12 * power vsw (at_ aT 16) + at_ aT 13 * bzn
                     + at_ aT 14 * bzs) * rm1))
        * sin phi ^ 2 in
    let N_ :=
      (at_ aN 1 + at_ aN 2 * power nsw (at_ aN 10) + at_ aN 3 * bzn
       + at_ aN 4 * vsw * bzs) * power rho (at_ aN 8)
      + (at_ aN 5 * power nsw (at_ aN 11) + at_ aN 6 * bzn
         + at_ aN 7 * vsw * bzs) * power rho (at_ aN 9) * sin phi ^ 2 in
    let P_ :=
      at_ aP 1 * power rho (at_ aP 6)
      + at_ aP 2 * power psw (at_ aP 11) * power rho (at_ aP 7)
      + at_ aP 3 * power fsw (at_ aP 12) * power rho (at_ aP 8)
      + (at_ aP 4 * power psw (at_ aP 13) * exp (- at_ aP 9 * rho)
         + at_ aP 5 * power fsw (at_ aP 14) * exp (- at_ aP 10 * rho))
        * sin phi ^ 2 in
    inr {| P := P_; T := T_; N := N_ |}.

End tm03.

(** The factor between the flux of [calculate_flux] and the flux of
    [energy_to_flux], from the constants of the class and of the module. *)
Definition flux_ratio : R :=
  Rpower (ckm * ckm / ptm_postprocessor.cls_csq) 1.5
  * ptm_postprocessor.cls_csq * ptm_postprocessor.cls_ckm ^ 2 / ckm ^ 4.

(** A run grid of two lines, a directory where every file is there, and map
    files that all hold [table_ab]. *)
Definition grid_2 : list (list R) :=
  [[1; 0; 0; 6.6; 0]; [2; 0; 3600; 6.6; 6]].

Definition files_there : string -> bool := fun _ => true.

Definition map_ab : string -> result (np.vec3 * list maprow) :=
  fun _ => Ok ((4, 0, 0), table_ab).

Definition load_grid_2 : string -> result (list (list R)) :=
  fun _ => Ok grid_2.

Definition write_nothing
  : ram.fluxdata -> Z * Z * Z -> R -> ram.value -> ram.outcome unit :=
  fun _ _ _ _ => ram.Done tt.

(** * Properties *)

(** ** Indexing *)

Lemma getitem_nat {A : Type} (l : list A) (n : nat) :
  np.getitem l (Z.of_nat n) =
  match nth_error l n with
  | Some a => Ok a
  | None => Raise IndexError
  end.
Proof.
  unfold np.getitem.
  destruct (Z.ltb_spec (Z.of_nat n) 0); [lia|].
  rewrite Nat2Z.id.
  destruct (Z.leb_spec 0 (Z.of_nat n)); [|lia]. simpl.
  destruct (Z.ltb_spec (Z.of_nat n) (Z.of_nat (length l))).
  - reflexivity.
  - assert (Hn : nth_error l n = None) by (apply nth_error_None; lia).
    now rewrite Hn.
Qed.

Lemma getitem_nat_ok {A : Type} (l : list A) (n : nat) (d : A) :
  (n < length l)%nat -> np.getitem l (Z.of_nat n) = Ok (nth n l d).
Proof.
  intros H. rewrite getitem_nat.
  now rewrite (nth_error_nth' l d H).
Qed.

Lemma getitem_neg1 {A : Type} (l : list A) (d : A) :
  np.getitem l (-1)%Z =
  match l with
  | [] => Raise IndexError
  | _ :: _ => Ok (last l d)
  end.
Proof.
  unfold np.getitem. cbn [Z.ltb Z.compare].
  destruct l as [|a t]; [reflexivity|].
  set (l := a :: t).
  assert (Hl : (0 < length l)%nat) by (simpl; lia).
  destruct (Z.leb_spec 0 (-1 + Z.of_nat (length l))); [|lia].
  destruct (Z.ltb_spec (-1 + Z.of_nat (length l)) (Z.of_nat (length l))); [|lia].
  simpl andb. cbv iota.
  replace (Z.to_nat (-1 + Z.of_nat (length l))) with (length l - 1)%nat by lia.
  assert (Hn : (length l - 1 < length l)%nat) by lia.
  rewrite (nth_error_nth' l d Hn).
  f_equal. clearbody l. clear -Hl.
  induction l as [|x l IH]; [simpl in Hl; lia|].
  destruct l as [|y l]; [reflexivity|].
  change (last (x :: y :: l) d) with (last (y :: l) d).
  rewrite <- IH by (simpl; lia).
  simpl. now rewrite Nat.sub_0_r.
Qed.

(** ** find_runs *)

Lemma reshape2_flatten (ps : list (Z * Z)) :
  np.reshape2 (flatten_pairs ps) = Ok ps.
Proof.
  induction ps as [|[a b] ps IH]; [reflexivity|].
  cbn [flatten_pairs flat_map fst snd app np.reshape2].
  fold (flatten_pairs ps). now rewrite IH.
Qed.

Lemma diffZ_cons2 (x y : Z) (t : list Z) :
  np.diffZ (x :: y :: t) = (y - x)%Z :: np.diffZ (y :: t).
Proof. reflexivity. Qed.

(** The transitions of the padded 0/1 vector, read from a position whose
    previous element is [p]: an open run contributes its end first, and what
    follows pairs up as (start, end) with the starts of [run_starts]. *)
Lemma transitions_runs (l : list bool) :
  forall (p : bool) (i : nat),
    let T := np.where_from (fun d => (d =? 1)%Z) (Z.of_nat i)
               (map Z.abs (np.diffZ (bitZ p :: map bitZ l ++ [0%Z]))) in
    exists ps,
      map fst ps = map Z.of_nat (run_starts p i l) /\
      if p then exists e, T = e :: flatten_pairs ps
      else T = flatten_pairs ps.
Proof.
  induction l as [|b t IH]; intros p i T.
  - exists []. split; [reflexivity|].
    subst T. destruct p; cbn; [eexists|]; reflexivity.
  - subst T. cbn [map app]. rewrite diffZ_cons2. cbn [map np.where_from].
    replace (Z.of_nat i + 1)%Z with (Z.of_nat (S i)) by lia.
    destruct (IH b (S i)) as (ps & Hfst & HT).
    destruct p, b; cbn [bitZ Z.sub Z.abs Z.eqb Z.opp Z.add Z.pos_sub
                        run_starts andb negb] in *.
    + exists ps. split; [exact Hfst|]. exact HT.
    + exists ps. split; [exact Hfst|].
      exists (Z.of_nat i). now rewrite HT.
    + destruct HT as (e & HT).
      exists ((Z.of_nat i, e) :: ps). split.
      * cbn [map fst]. now rewrite Hfst.
      * now rewrite HT.
    + exists ps. split; [exact Hfst|]. exact HT.
Qed.

Lemma bit_eqb_true (l : list bool) :
  map (fun b => if Bool.eqb b true then 1%Z else 0%Z) l = map bitZ l.
Proof.
  apply map_ext. now intros [|].
Qed.

Lemma find_runs_starts (l : list bool) :
  exists ps, find_runs l true = Ok ps /\
             map fst ps = map Z.of_nat (run_starts false 0 l).
Proof.
  destruct (transitions_runs l false 0) as (ps & Hfst & HT).
  exists ps. split; [|exact Hfst].
  unfold find_runs, np.where_. rewrite bit_eqb_true.
  change ([0%Z] ++ map bitZ l ++ [0%Z]) with (bitZ false :: map bitZ l ++ [0%Z]).
  cbv zeta in HT. change (Z.of_nat 0) with 0%Z in HT.
  rewrite HT. apply reshape2_flatten.
Qed.

Lemma run_starts_In (l : list bool) :
  forall (p : bool) (i j : nat),
    In j (run_starts p i l) <->
    exists m, j = (i + m)%nat /\ nth m l false = true /\
              match m with
              | O => p = false
              | S m' => nth m' l false = false
              end.
Proof.
  induction l as [|b t IH]; intros p i j.
  - simpl. split; [tauto|]. intros (m & _ & H & _). now destruct m.
  - assert (Htail : In j (run_starts b (S i) t) <->
                    exists m, j = (i + S m)%nat /\ nth (S m) (b :: t) false = true
                              /\ nth m (b :: t) false = false).
    { rewrite IH. split; intros (m & Hj & Hm & Hprev).
      - exists m. repeat split; [lia|exact Hm|].
        destruct m; [exact Hprev|exact Hprev].
      - exists m. repeat split; [lia|exact Hm|].
        destruct m; exact Hprev. }
    cbn [run_starts].
    destruct (b && negb p) eqn:Hb.
    + apply andb_true_iff in Hb. destruct Hb as [Hb Hp].
      apply negb_true_iff in Hp. subst b p.
      cbn [In]. rewrite Htail. split.
      * intros [<- | (m & Hj & Hm & Hprev)].
        -- exists O. repeat split. lia.
        -- exists (S m). repeat split; assumption.
      * intros (m & Hj & Hm & Hprev). destruct m as [|m].
        -- left. lia.
        -- right. exists m. repeat split; assumption.
    + rewrite Htail. split.
      * intros (m & Hj & Hm & Hprev). exists (S m). repeat split; assumption.
      * intros (m & Hj & Hm & Hprev). destruct m as [|m].
        -- simpl in Hm. subst b p. discriminate Hb.
        -- exists m. repeat split; assumption.
Qed.

Lemma run_starts_iff (fa : list bool) (k : nat) :
  In k (run_starts false 0 fa) <-> run_start fa k.
Proof.
  rewrite run_starts_In. unfold run_start. split.
  - intros (m & -> & Hm & Hprev). simpl. split; [exact Hm|].
    destruct m as [|m]; [now left|right].
    simpl. now rewrite Nat.sub_0_r.
  - intros (Hk & Hprev). exists k. repeat split; [exact Hk|].
    destruct k as [|k]; [reflexivity|].
    destruct Hprev as [H|H]; [discriminate|].
    simpl in H. now rewrite Nat.sub_0_r in H.
Qed.

Lemma last_In {A : Type} (l : list A) (d : A) : l <> [] -> In (last l d) l.
Proof.
  induction l as [|x l IH]; [congruence|]. intros _.
  destruct l as [|y l]; [now left|].
  right. apply IH. discriminate.
Qed.

Lemma last_map {A B : Type} (f : A -> B) (l : list A) (d : A) :
  last (map f l) (f d) = f (last l d).
Proof.
  induction l as [|x l IH]; [reflexivity|].
  destruct l as [|y l]; [reflexivity|]. exact IH.
Qed.

Lemma run_starts_bounds (l : list bool) :
  forall (p : bool) (i j : nat),
    In j (run_starts p i l) ->
    (i <= j)%nat /\ (j <= last (run_starts p i l) 0)%nat.
Proof.
  induction l as [|b t IH]; intros p i j Hj; [destruct Hj|].
  cbn [run_starts] in *.
  destruct (b && negb p).
  - destruct (run_starts b (S i) t) as [|r rs] eqn:Hrs.
    + destruct Hj as [<- | []]. simpl. lia.
    + assert (Hr : (S i <= last (r :: rs) 0)%nat).
      { assert (Hin : In (last (r :: rs) 0%nat) (run_starts b (S i) t))
          by (rewrite Hrs; apply last_In; discriminate).
        apply IH in Hin. lia. }
      change (last (i :: r :: rs) 0%nat) with (last (r :: rs) 0%nat).
      destruct Hj as [<- | Hj]; [lia|].
      rewrite <- Hrs in Hj. apply IH in Hj. rewrite Hrs in Hj. lia.
  - apply IH in Hj. lia.
Qed.

(** The last start listed by [run_starts] is the start of the last run. *)
Lemma last_run_start_last (fa : list bool) (k : nat) :
  last_run_start fa k <->
  run_starts false 0 fa <> [] /\ last (run_starts false 0 fa) 0%nat = k.
Proof.
  unfold last_run_start. split.
  - intros (Hk & Hmax).
    apply run_starts_iff in Hk.
    assert (Hne : run_starts false 0 fa <> []) by (intros E; now rewrite E in Hk).
    split; [exact Hne|].
    apply run_starts_bounds in Hk.
    pose proof (last_In _ 0%nat Hne) as Hl.
    apply run_starts_iff, Hmax in Hl. lia.
  - intros (Hne & <-). split.
    + apply run_starts_iff. now apply last_In.
    + intros j Hj. apply run_starts_iff, run_starts_bounds in Hj. lia.
Qed.

Lemma no_run_start (fa : list bool) :
  (forall b, In b fa -> b = false) -> run_starts false 0 fa = [].
Proof.
  intros Hall.
  destruct (run_starts false 0 fa) as [|r rs] eqn:E; [reflexivity|].
  assert (Hr : In r (run_starts false 0 fa)) by (rewrite E; now left).
  apply run_starts_iff in Hr. destruct Hr as [Hr _].
  destruct (Nat.lt_ge_cases r (length fa)) as [Hlt|Hge].
  - rewrite (Hall (nth r fa false)) in Hr; [discriminate|now apply nth_In].
  - rewrite nth_overflow in Hr; [discriminate|exact Hge].
Qed.

Lemma run_start_lt (fa : list bool) (k : nat) :
  run_start fa k -> (k < length fa)%nat.
Proof.
  intros [Hk _].
  destruct (Nat.lt_ge_cases k (length fa)) as [Hlt|Hge]; [exact Hlt|].
  rewrite nth_overflow in Hk; [discriminate|exact Hge].
Qed.

Lemma idx_high_of_eval (fa : list bool) :
  idx_high_of fa =
  Ok (match run_starts false 0 fa with
      | [] => (-1)%Z
      | _ :: _ => Z.of_nat (last (run_starts false 0 fa) 0%nat)
      end).
Proof.
  unfold idx_high_of.
  destruct (find_runs_starts fa) as (ps & -> & Hfst).
  cbn [bind]. rewrite (getitem_neg1 ps (0%Z, 0%Z)).
  destruct ps as [|q ps].
  - destruct (run_starts false 0 fa); [reflexivity|discriminate].
  - destruct (run_starts false 0 fa) as [|r rs] eqn:E; [discriminate|].
    f_equal.
    change (fst (last (q :: ps) (0%Z, 0%Z)))
      with ((fun x => fst x) (last (q :: ps) (0%Z, 0%Z))).
    rewrite <- (last_map (@fst Z Z)). cbn [fst].
    rewrite Hfst. change 0%Z with (Z.of_nat 0).
    now rewrite last_map.
Qed.

(** ** The access fraction *)

Lemma skipn_nth_cons {A : Type} (d : A) (l : list A) :
  forall a, (a < length l)%nat -> skipn a l = nth a l d :: skipn (S a) l.
Proof.
  induction l as [|x l IH]; intros a Ha; [simpl in Ha; lia|].
  destruct a as [|a]; [reflexivity|].
  simpl in Ha. cbn [skipn nth]. apply IH. lia.
Qed.

Lemma mapM_getitem_seq {A B : Type} (f : A -> B) (l : list A) (len : nat) :
  forall a, (a + len <= length l)%nat ->
    mapM (fun n => row <- np.getitem l (Z.of_nat n) ;; Ok (f row)) (seq a len)
    = Ok (map f (firstn len (skipn a l))).
Proof.
  induction len as [|len IH]; intros a Ha; [reflexivity|].
  cbn [seq mapM].
  destruct l as [|d0 l0] eqn:El; [simpl in Ha; lia|]. rewrite <- El in *.
  rewrite (getitem_nat_ok l a d0) by lia. cbn [bind].
  rewrite IH by lia. cbn [bind].
  rewrite (skipn_nth_cons d0 l a) by lia. reflexivity.
Qed.

Lemma access_fraction_ok (fm : fluxmap) :
  (length (energies fm) <= length (final_x fm))%nat ->
  access_fraction fm = Ok (allow_of fm).
Proof.
  intros Hrows. unfold access_fraction, access_counts.
  rewrite (mapM_getitem_seq
             (fun row => INR (np.count_true
                (map (fun v => Rgeb (np.linalg_norm v) 14.99) row))))
    by (simpl; lia).
  cbn [bind skipn]. unfold allow_of. now rewrite map_map.
Qed.

Lemma length_allow_of (fm : fluxmap) :
  (length (energies fm) <= length (final_x fm))%nat ->
  length (allow_of fm) = length (energies fm).
Proof.
  intros H. unfold allow_of. rewrite length_map, length_firstn. lia.
Qed.

Lemma where_from_bounds {A : Type} (p : A -> bool) (l : list A) :
  forall s i, In i (np.where_from p s l) ->
              (s <= i < s + Z.of_nat (length l))%Z.
Proof.
  induction l as [|x l IH]; intros s i Hi; [destruct Hi|].
  cbn [np.where_from] in Hi. cbn [length].
  destruct (p x).
  - destruct Hi as [<- | Hi]; [lia|]. apply IH in Hi. lia.
  - apply IH in Hi. lia.
Qed.

Lemma where_from_nil {A : Type} (p : A -> bool) (l : list A) :
  forall s, np.where_from p s l = [] <-> forall x, In x l -> p x = false.
Proof.
  induction l as [|x l IH]; intros s.
  - simpl. tauto.
  - cbn [np.where_from]. destruct (p x) eqn:Hp.
    + split; [discriminate|]. intros H.
      rewrite (H x) in Hp; [discriminate|now left].
    + rewrite IH. split.
      * intros H y [<- | Hy]; [exact Hp|now apply H].
      * intros H y Hy. apply H. now right.
Qed.

(** ** cutoffs, evaluated *)

Lemma cutoffs_eval (getRigidity fromRigidity : R -> R) (fm : fluxmap) :
  (length (energies fm) <= length (final_x fm))%nat ->
  cutoffs getRigidity fromRigidity fm =
  match np.nonzero (allow_of fm) with
  | [] => Raise IndexError
  | idx_low :: _ =>
      Ok (cutoffs_value getRigidity fromRigidity fm idx_low, allow_of fm)
  end.
Proof.
  intros Hrows. unfold cutoffs.
  rewrite (access_fraction_ok fm Hrows). cbn [bind].
  pose proof (length_allow_of fm Hrows) as Hlen.
  destruct (np.nonzero (allow_of fm)) as [|i rest] eqn:Hnz; [reflexivity|].
  change (np.getitem (i :: rest) 0%Z) with (Ok (A := Z) i). cbn [bind].
  assert (Hi : (0 <= i < Z.of_nat (length (allow_of fm)))%Z).
  { assert (Hin : In i (np.nonzero (allow_of fm))) by (rewrite Hnz; now left).
    apply where_from_bounds in Hin. lia. }
  fold (en_mev_of fm).
  assert (Hlen' : length (en_mev_of fm) = length (energies fm))
    by (unfold en_mev_of; apply length_map).
  rewrite <- (Z2Nat.id i) at 1 by lia.
  rewrite (getitem_nat_ok (en_mev_of fm) (Z.to_nat i) 0) by lia.
  cbn [bind]. fold (full_access_of fm).
  rewrite idx_high_of_eval. cbn [bind].
  assert (Hhigh : np.getitem (en_mev_of fm)
                    match run_starts false 0 (full_access_of fm) with
                    | [] => (-1)%Z
                    | _ :: _ => Z.of_nat (last (run_starts false 0
                                                  (full_access_of fm)) 0%nat)
                    end = Ok (ec_high_of fm)).
  { unfold ec_high_of.
    destruct (run_starts false 0 (full_access_of fm)) as [|r rs] eqn:Hrs.
    - rewrite (getitem_neg1 (en_mev_of fm) 0).
      destruct (en_mev_of fm); [simpl in Hlen'; lia|reflexivity].
    - apply getitem_nat_ok.
      assert (Hl : run_start (full_access_of fm) (last (r :: rs) 0%nat)).
      { apply run_starts_iff. rewrite Hrs. apply last_In. discriminate. }
      apply run_start_lt in Hl. unfold full_access_of in Hl.
      rewrite length_map in Hl. lia. }
  rewrite Hhigh. cbn [bind]. reflexivity.
Qed.

(** ** Facts on the sample inputs *)

Lemma norm_x_axis (a : R) : 0 <= a -> np.linalg_norm (a, 0, 0) = a.
Proof.
  intros Ha. unfold np.linalg_norm.
  replace (a * a + 0 * 0 + 0 * 0) with (a * a) by ring.
  now apply sqrt_square.
Qed.

Lemma access_far : Rgeb (np.linalg_norm x_far) 14.99 = true.
Proof.
  unfold x_far. rewrite norm_x_axis by lra.
  unfold Rgeb. destruct (Rge_dec 15 14.99); [reflexivity|lra].
Qed.

Lemma access_near : Rgeb (np.linalg_norm x_near) 14.99 = false.
Proof.
  unfold x_near. rewrite norm_x_axis by lra.
  unfold Rgeb. destruct (Rge_dec 0 14.99); [lra|reflexivity].
Qed.

Lemma Rgtb_true (x y : R) : x > y -> Rgtb x y = true.
Proof. intros H. unfold Rgtb. now destruct (Rgt_dec x y). Qed.

Lemma Rgtb_false (x y : R) : ~ x > y -> Rgtb x y = false.
Proof. intros H. unfold Rgtb. now destruct (Rgt_dec x y). Qed.

Lemma Reqb_true (x y : R) : x = y -> Reqb x y = true.
Proof. intros H. unfold Reqb. now destruct (Req_dec_T x y). Qed.

Lemma Reqb_false (x y : R) : x <> y -> Reqb x y = false.
Proof. intros H. unfold Reqb. now destruct (Req_dec_T x y). Qed.

Lemma allow_fm_runs : allow_of fm_runs = [2 / 2; 1 / 2; 2 / 2].
Proof.
  unfold allow_of, access_count_row, np.count_true.
  cbn [fm_runs energies final_x angles length firstn map].
  rewrite access_far, access_near. cbn [filter length INR].
  repeat f_equal; lra.
Qed.

Lemma full_access_fm_runs : full_access_of fm_runs = [true; false; true].
Proof.
  unfold full_access_of. rewrite allow_fm_runs. cbn [map].
  rewrite !Rgtb_true by lra. rewrite Rgtb_false by lra. reflexivity.
Qed.

Lemma nonzero_fm_runs : np.nonzero (allow_of fm_runs) = [0%Z; 1%Z; 2%Z].
Proof.
  rewrite allow_fm_runs. unfold np.nonzero, np.where_. cbn [np.where_from].
  rewrite !Reqb_false by lra. reflexivity.
Qed.

(** ** The upper cutoff *)

Lemma nonzero_nonempty (allow : list R) :
  (exists a, In a allow /\ a <> 0) -> np.nonzero allow <> [].
Proof.
  intros (a & Ha & Hnz) E.
  unfold np.nonzero, np.where_ in E.
  rewrite where_from_nil in E. specialize (E a Ha).
  rewrite (Reqb_false a 0 Hnz) in E. discriminate.
Qed.

Lemma cutoffs_ok (getRigidity fromRigidity : R -> R) (fm : fluxmap) :
  (length (energies fm) <= length (final_x fm))%nat ->
  (exists a, In a (allow_of fm) /\ a <> 0) ->
  exists cd, cutoffs getRigidity fromRigidity fm = Ok (cd, allow_of fm) /\
             ec_high cd = ec_high_of fm.
Proof.
  intros Hrows Hnz. rewrite (cutoffs_eval _ _ fm Hrows).
  apply nonzero_nonempty in Hnz.
  destruct (np.nonzero (allow_of fm)) as [|i rest]; [congruence|].
  eexists. split; reflexivity.
Qed.

Lemma ec_high_of_last_run (fm : fluxmap) (k : nat) :
  last_run_start (full_access_of fm) k ->
  ec_high_of fm = nth k (en_mev_of fm) 0.
Proof.
  intros H. apply last_run_start_last in H. destruct H as [Hne <-].
  unfold ec_high_of.
  destruct (run_starts false 0 (full_access_of fm)); [congruence|reflexivity].
Qed.

Lemma ec_high_of_no_run (fm : fluxmap) :
  (forall a, In a (allow_of fm) -> ~ a > 0.82) ->
  ec_high_of fm = last (en_mev_of fm) 0.
Proof.
  intros H. unfold ec_high_of.
  rewrite no_run_start; [reflexivity|].
  intros b Hb. unfold full_access_of in Hb. apply in_map_iff in Hb.
  destruct Hb as (a & <- & Ha). apply Rgtb_false. now apply H.
Qed.

Lemma nth_full_access (fm : fluxmap) (j : nat) :
  (j < length (allow_of fm))%nat ->
  nth j (full_access_of fm) false = Rgtb (nth j (allow_of fm) 0) 0.82.
Proof.
  intros Hj. unfold full_access_of.
  rewrite (nth_indep _ false ((fun a => Rgtb a 0.82) 0))
    by (now rewrite length_map).
  apply (map_nth (fun a => Rgtb a 0.82)).
Qed.

(** A non-decreasing access fraction that first exceeds 0.82 at [k] has one
    run of full access, and it starts at [k]. *)
Lemma monotone_last_run_start (fm : fluxmap) (k : nat) :
  (k < length (allow_of fm))%nat ->
  (forall i j, (i <= j < length (allow_of fm))%nat ->
               nth i (allow_of fm) 0 <= nth j (allow_of fm) 0) ->
  nth k (allow_of fm) 0 > 0.82 ->
  (forall j, (j < k)%nat -> ~ nth j (allow_of fm) 0 > 0.82) ->
  last_run_start (full_access_of fm) k.
Proof.
  intros Hk Hmono Hgt Hbefore.
  assert (Hlen : length (full_access_of fm) = length (allow_of fm))
    by (unfold full_access_of; apply length_map).
  assert (Hat : forall j, (k <= j < length (allow_of fm))%nat ->
                          nth j (full_access_of fm) false = true).
  { intros j Hj. rewrite nth_full_access by lia. apply Rgtb_true.
    specialize (Hmono k j ltac:(lia)). lra. }
  assert (Hlow : forall j, (j < k)%nat -> nth j (full_access_of fm) false = false).
  { intros j Hj. rewrite nth_full_access by lia. apply Rgtb_false.
    now apply Hbefore. }
  split.
  - split; [apply Hat; lia|].
    destruct k as [|k]; [now left|right].
    apply Hlow. lia.
  - intros j Hj. pose proof (run_start_lt _ _ Hj) as Hjlt.
    destruct Hj as [Hj Hprev].
    destruct (Nat.le_gt_cases j k) as [Hle|Hgtk]; [exact Hle|].
    destruct Hprev as [-> | Hprev]; [lia|].
    rewrite Hat in Hprev by lia. discriminate.
Qed.

Lemma ascending_last_max (l : list R) :
  (forall i j, (i <= j < length l)%nat -> nth i l 0 <= nth j l 0) ->
  forall e, In e l -> e <= last l 0.
Proof.
  intros Hasc e He.
  destruct (In_nth l e 0 He) as (i & Hi & <-).
  assert (Hlast : last l 0 = nth (length l - 1) l 0).
  { clear. induction l as [|x l IH]; [reflexivity|].
    destruct l as [|y l]; [reflexivity|].
    change (last (x :: y :: l) 0) with (last (y :: l) 0). rewrite IH.
    simpl. now rewrite Nat.sub_0_r. }
  rewrite Hlast. apply Hasc. lia.
Qed.

(** C1 (as the code has it): under the preconditions of [cutoffs] (the rows of
    [final_x] exist and some energy has a non-zero access fraction), the
    analysis returns, and [ec_high] is the energy, in MeV, at the start of the
    LAST contiguous run of energies whose access fraction exceeds 0.82.  For
    a non-decreasing access fraction that first exceeds 0.82 at index [k]
    this is the energy of index [k]; without any energy above 0.82 it is the
    last energy of the grid, which is the highest one of an ascending grid. *)
Theorem cutoffs_ec_high_last_run (getRigidity fromRigidity : R -> R)
  (fm : fluxmap) :
  (length (energies fm) <= length (final_x fm))%nat ->
  (exists a, In a (allow_of fm) /\ a <> 0) ->
  exists cd,
    cutoffs getRigidity fromRigidity fm = Ok (cd, allow_of fm) /\
    (forall k, last_run_start (full_access_of fm) k ->
               ec_high cd = nth k (en_mev_of fm) 0) /\
    (forall k,
        (k < length (allow_of fm))%nat ->
        (forall i j, (i <= j < length (allow_of fm))%nat ->
                     nth i (allow_of fm) 0 <= nth j (allow_of fm) 0) ->
        nth k (allow_of fm) 0 > 0.82 ->
        (forall j, (j < k)%nat -> ~ nth j (allow_of fm) 0 > 0.82) ->
        ec_high cd = nth k (en_mev_of fm) 0) /\
    ((forall a, In a (allow_of fm) -> ~ a > 0.82) ->
     ec_high cd = last (en_mev_of fm) 0 /\
     ((forall i j, (i <= j < length (en_mev_of fm))%nat ->
                   nth i (en_mev_of fm) 0 <= nth j (en_mev_of fm) 0) ->
      forall e, In e (en_mev_of fm) -> e <= ec_high cd)).
Proof.
  intros Hrows Hnz.
  destruct (cutoffs_ok getRigidity fromRigidity fm Hrows Hnz) as (cd & Hcd & Hhigh).
  exists cd. split; [exact Hcd|]. rewrite Hhigh. repeat split.
  - intros k Hk. now apply ec_high_of_last_run.
  - intros k Hk Hmono Hgt Hbefore.
    apply ec_high_of_last_run. now apply monotone_last_run_start.
  - now apply ec_high_of_no_run.
  - intros Hasc e He. rewrite ec_high_of_no_run by assumption.
    now apply ascending_last_max.
Qed.

Lemma fm_runs_nonzero : exists a, In a (allow_of fm_runs) /\ a <> 0.
Proof.
  exists (2 / 2). split; [rewrite allow_fm_runs; now left|lra].
Qed.

Lemma fm_runs_rows : (length (energies fm_runs) <= length (final_x fm_runs))%nat.
Proof. simpl. lia. Qed.

Lemma fm_runs_last_run : last_run_start (full_access_of fm_runs) 2.
Proof.
  apply last_run_start_last. rewrite full_access_fm_runs.
  cbn. split; [discriminate|reflexivity].
Qed.

Lemma fm_runs_first_run : first_run_start (full_access_of fm_runs) 0.
Proof.
  rewrite full_access_fm_runs. split.
  - split; [reflexivity|now left].
  - intros j _. lia.
Qed.

Lemma cutoffs_ec_high_last_run_witness :
  exists cd,
    cutoffs (Proton.getRigidity Proton.mc2_p) (Proton.fromRigidity Proton.mc2_p)
            fm_runs = Ok (cd, allow_of fm_runs) /\
    ec_high cd = 3000 / 1e3.
Proof.
  destruct (cutoffs_ec_high_last_run
              (Proton.getRigidity Proton.mc2_p)
              (Proton.fromRigidity Proton.mc2_p)
              fm_runs fm_runs_rows fm_runs_nonzero) as (cd & Hcd & Hlast & _).
  exists cd. split; [exact Hcd|].
  rewrite (Hlast 2%nat fm_runs_last_run). reflexivity.
Defined.

(** C1 (as stated) fails on [fm_runs]: the access fraction is 1, 1/2, 1, so
    the first run of full access starts at the first energy, and [cutoffs]
    returns the third energy as [ec_high]. *)
Lemma cutoffs_ec_high_first_run_counterexample :
  exists cd,
    cutoffs (Proton.getRigidity Proton.mc2_p) (Proton.fromRigidity Proton.mc2_p)
            fm_runs = Ok (cd, allow_of fm_runs) /\
    first_run_start (full_access_of fm_runs) 0 /\
    ec_high cd <> nth 0 (en_mev_of fm_runs) 0.
Proof.
  destruct (cutoffs_ok (Proton.getRigidity Proton.mc2_p)
              (Proton.fromRigidity Proton.mc2_p)
              fm_runs fm_runs_rows fm_runs_nonzero) as (cd & Hcd & Hhigh).
  exists cd. split; [exact Hcd|]. split; [exact fm_runs_first_run|].
  rewrite Hhigh, (ec_high_of_last_run fm_runs 2 fm_runs_last_run).
  cbn [en_mev_of fm_runs energies map nth]. lra.
Qed.

(** ** No accessible cell *)

Lemma count_true_zero (l : list bool) :
  np.count_true l = O <-> forall b, In b l -> b = false.
Proof.
  unfold np.count_true. induction l as [|x l IH]; [simpl; tauto|].
  cbn [filter]. destruct x; cbn [length].
  - split; [discriminate|]. intros H.
    assert (E : true = false) by (apply H; now left). discriminate E.
  - rewrite IH. split.
    + intros H b [<- | Hb]; [reflexivity|now apply H].
    + intros H b Hb. apply H. now right.
Qed.

Lemma Rgeb_false (x y : R) : x < y -> Rgeb x y = false.
Proof. intros H. unfold Rgeb. destruct (Rge_dec x y); [lra|reflexivity]. Qed.

Lemma Rgeb_true (x y : R) : x >= y -> Rgeb x y = true.
Proof. intros H. unfold Rgeb. destruct (Rge_dec x y); [reflexivity|lra]. Qed.

Lemma access_count_row_zero (row : list np.vec3) :
  (forall v, In v row -> np.linalg_norm v < 14.99) -> access_count_row row = O.
Proof.
  intros H. apply count_true_zero. intros b Hb.
  apply in_map_iff in Hb. destruct Hb as (v & <- & Hv).
  apply Rgeb_false. now apply H.
Qed.

Lemma access_count_row_pos (row : list np.vec3) (v : np.vec3) :
  In v row -> np.linalg_norm v >= 14.99 -> access_count_row row <> O.
Proof.
  intros Hv Hge H. unfold access_count_row in H.
  rewrite count_true_zero in H. specialize (H (Rgeb (np.linalg_norm v) 14.99)).
  rewrite (Rgeb_true _ _ Hge) in H.
  assert (E : true = false).
  { apply H. apply in_map_iff. exists v. split; [now apply Rgeb_true|exact Hv]. }
  discriminate E.
Qed.

(** C10: when the rows of [final_x] exist, there is at least one pitch angle
    and every cell of the grid has a final position below 14.99 Re, [cutoffs]
    raises [IndexError] (at [not_forbidden[0]]) and returns no result; with
    one accessible cell it returns. *)
Theorem cutoffs_no_access_IndexError (getRigidity fromRigidity : R -> R)
  (fm : fluxmap) :
  (length (energies fm) <= length (final_x fm))%nat ->
  angles fm <> [] ->
  ((forall row, In row (firstn (length (energies fm)) (final_x fm)) ->
    forall v, In v row -> np.linalg_norm v < 14.99) ->
   cutoffs getRigidity fromRigidity fm = Raise IndexError) /\
  ((exists row v, In row (firstn (length (energies fm)) (final_x fm)) /\
                  In v row /\ np.linalg_norm v >= 14.99) ->
   exists cd, cutoffs getRigidity fromRigidity fm = Ok (cd, allow_of fm)).
Proof.
  intros Hrows Hang.
  assert (Hn : INR (length (angles fm)) <> 0).
  { apply not_0_INR. destruct (angles fm); [congruence|discriminate]. }
  split.
  - intros Hall. rewrite (cutoffs_eval _ _ fm Hrows).
    assert (Hnz : np.nonzero (allow_of fm) = []).
    { unfold np.nonzero, np.where_. apply where_from_nil.
      intros a Ha. unfold allow_of in Ha. apply in_map_iff in Ha.
      destruct Ha as (row & <- & Hrow).
      rewrite (access_count_row_zero row (Hall row Hrow)).
      rewrite Reqb_true; [reflexivity|]. simpl. unfold Rdiv. ring. }
    now rewrite Hnz.
  - intros (row & v & Hrow & Hv & Hge).
    destruct (cutoffs_ok getRigidity fromRigidity fm Hrows) as (cd & Hcd & _).
    + exists (INR (access_count_row row) / INR (length (angles fm))). split.
      * unfold allow_of. apply in_map_iff. now exists row.
      * pose proof (access_count_row_pos row v Hv Hge) as Hc.
        apply not_0_INR in Hc. intros E.
        apply (Rmult_eq_compat_r (INR (length (angles fm)))) in E.
        unfold Rdiv in E. rewrite Rmult_assoc, Rinv_l, Rmult_1_r, Rmult_0_l in E
          by exact Hn.
        contradiction.
    + now exists cd.
Qed.

Lemma cutoffs_no_access_IndexError_witness :
  cutoffs (Proton.getRigidity Proton.mc2_p) (Proton.fromRigidity Proton.mc2_p)
          fm_dark = Raise IndexError.
Proof.
  apply (cutoffs_no_access_IndexError
           (Proton.getRigidity Proton.mc2_p)
           (Proton.fromRigidity Proton.mc2_p) fm_dark).
  - simpl. lia.
  - discriminate.
  - intros row Hrow v Hv.
    assert (Hnear : v = x_near).
    { cbn in Hrow. destruct Hrow as [<- | [<- | []]];
        cbn in Hv; destruct Hv as [<- | [<- | []]]; reflexivity. }
    subst v. unfold x_near. rewrite norm_x_axis; lra.
Defined.

(** ** The effective rigidity *)

Lemma sum_counts (c : list np.vec3 -> nat) (n : R) (rws : list (list np.vec3)) :
  n <> 0 ->
  np.sum (map (fun a => a * n) (map (fun row => INR (c row) / n) rws))
  = INR (list_sum (map c rws)).
Proof.
  intros Hn. induction rws as [|row rws IH]; [reflexivity|].
  change (list_sum (map c (row :: rws)))
    with (c row + list_sum (map c rws))%nat.
  cbn [map np.sum fold_right]. fold (np.sum
    (map (fun a => a * n) (map (fun row => INR (c row) / n) rws))).
  rewrite IH, plus_INR. field. exact Hn.
Qed.

(** What [cutoffs] names [Nforbid] is the number of cells WITH access. *)
Lemma Nforbid_is_accessible (fm : fluxmap) :
  angles fm <> [] ->
  np.sum (map (fun a => a * INR (length (angles fm))) (allow_of fm))
  = INR (N_accessible fm).
Proof.
  intros Hang. unfold allow_of, N_accessible. apply sum_counts.
  apply not_0_INR. destruct (angles fm); [congruence|discriminate].
Qed.

Lemma cutoffs_r_eff_accessible (getRigidity fromRigidity : R -> R)
  (fm : fluxmap) (cd : cdict) (allow : list R) :
  (length (energies fm) <= length (final_x fm))%nat ->
  angles fm <> [] ->
  cutoffs getRigidity fromRigidity fm = Ok (cd, allow) ->
  r_eff cd = r_low cd + (r_high cd - r_low cd)
                        * INR (N_accessible fm) / INR (N_total fm) /\
  r_low cd = getRigidity (ec_low cd) /\
  r_high cd = getRigidity (ec_high cd) /\
  ec_eff cd = fromRigidity (r_eff cd).
Proof.
  intros Hrows Hang H. rewrite (cutoffs_eval _ _ fm Hrows) in H.
  destruct (np.nonzero (allow_of fm)) as [|i rest]; [discriminate|].
  injection H as <- <-.
  unfold cutoffs_value. cbn [r_eff r_low r_high ec_eff ec_low ec_high].
  rewrite (Nforbid_is_accessible fm Hang), (length_allow_of fm Hrows).
  unfold N_total. repeat split; reflexivity.
Qed.

Lemma counts_fm_runs :
  N_forbidden fm_runs = 1%nat /\ N_accessible fm_runs = 5%nat /\
  N_total fm_runs = 6%nat.
Proof.
  unfold N_forbidden, N_accessible, N_total, forbidden_count_row,
    access_count_row, np.count_true.
  cbn [fm_runs energies final_x angles length firstn map filter].
  rewrite access_far, access_near. cbn. repeat split; reflexivity.
Qed.

(** C3 (what the code computes): on [fm_runs], where one cell of six lacks
    access, the factor of [cutoffs] is 5/6, the share of the cells WITH
    access, and not the 1/6 of the forbidden cells. *)
Theorem cutoffs_r_eff_uses_accessible_count (getRigidity fromRigidity : R -> R) :
  exists cd,
    cutoffs getRigidity fromRigidity fm_runs = Ok (cd, allow_of fm_runs) /\
    N_forbidden fm_runs = 1%nat /\ N_total fm_runs = 6%nat /\
    r_low cd = getRigidity (1000 / 1e3) /\
    r_high cd = getRigidity (3000 / 1e3) /\
    r_eff cd = r_low cd + (r_high cd - r_low cd) * 5 / 6 /\
    ec_eff cd = fromRigidity (r_eff cd).
Proof.
  destruct (cutoffs_ok getRigidity fromRigidity fm_runs fm_runs_rows
              fm_runs_nonzero) as (cd & Hcd & Hhigh).
  exists cd. split; [exact Hcd|].
  destruct counts_fm_runs as (Hf & Ha & Ht).
  destruct (cutoffs_r_eff_accessible getRigidity fromRigidity fm_runs cd _
              fm_runs_rows ltac:(discriminate) Hcd) as (Heff & Hlow & Hhi & Hec).
  rewrite Ha, Ht in Heff.
  assert (Hel : ec_low cd = 1000 / 1e3).
  { rewrite (cutoffs_eval _ _ fm_runs fm_runs_rows), nonzero_fm_runs in Hcd.
    injection Hcd as <-. reflexivity. }
  assert (Heh : ec_high cd = 3000 / 1e3).
  { rewrite Hhigh, (ec_high_of_last_run fm_runs 2 fm_runs_last_run).
    reflexivity. }
  repeat split; try assumption.
  - now rewrite Hlow, Hel.
  - now rewrite Hhi, Heh.
  - rewrite Heff. simpl INR. lra.
Qed.

(** With the rigidity of the spec the two factors give different results. *)
Lemma cutoffs_r_eff_not_forbidden_fraction :
  exists cd,
    cutoffs (Proton.getRigidity Proton.mc2_p) (Proton.fromRigidity Proton.mc2_p)
            fm_runs = Ok (cd, allow_of fm_runs) /\
    r_eff cd <> r_low cd + (r_high cd - r_low cd)
                           * INR (N_forbidden fm_runs) / INR (N_total fm_runs).
Proof.
  destruct (cutoffs_ok (Proton.getRigidity Proton.mc2_p)
              (Proton.fromRigidity Proton.mc2_p) fm_runs fm_runs_rows
              fm_runs_nonzero) as (cd & Hcd & Hhigh).
  exists cd. split; [exact Hcd|].
  destruct counts_fm_runs as (Hf & Ha & Ht).
  destruct (cutoffs_r_eff_accessible _ _ fm_runs cd _
              fm_runs_rows ltac:(discriminate) Hcd) as (Heff & Hlow & Hhi & Hec).
  rewrite Ha, Ht in Heff. rewrite Hf, Ht, Heff.
  assert (Hel : ec_low cd = 1000 / 1e3).
  { rewrite (cutoffs_eval _ _ fm_runs fm_runs_rows), nonzero_fm_runs in Hcd.
    injection Hcd as <-. reflexivity. }
  assert (Heh : ec_high cd = 3000 / 1e3).
  { rewrite Hhigh, (ec_high_of_last_run fm_runs 2 fm_runs_last_run).
    reflexivity. }
  assert (Hlt : r_low cd < r_high cd).
  { rewrite Hlow, Hhi, Hel, Heh. unfold Proton.getRigidity, Proton.q, Proton.mc2_p.
    apply Rmult_lt_compat_r; [lra|]. apply sqrt_lt_1; lra. }
  simpl INR. lra.
Qed.

(** ** Pitch-angle integration *)

Lemma map2_scale_l (w s : list R) :
  map2 Rmult (map (fun c => c * 2.0) w) s
  = map (fun x => 2 * x) (map2 Rmult w s).
Proof.
  revert s. induction w as [|c w IH]; intros [|x s]; try reflexivity.
  cbn [map map2]. rewrite IH. f_equal. lra.
Qed.

Lemma sum_map2_scale (w f : list R) :
  np.sum (map2 Rmult (map (fun x => 2 * x) w) f)
  = 2 * np.sum (map2 Rmult w f).
Proof.
  revert f. induction w as [|c w IH]; intros [|x f];
    cbn [map map2 np.sum fold_right]; try lra.
  fold (np.sum (map2 Rmult (map (fun x => 2 * x) w) f)).
  fold (np.sum (map2 Rmult w f)). rewrite IH. lra.
Qed.

Lemma omni_reduce_symmetry (Q : list R) (flux : list (list R)) :
  omni_reduce Q flux true = map (fun o => 2 * o) (omni_reduce Q flux false).
Proof.
  unfold omni_reduce, einsum_i_ji. cbv iota.
  rewrite map2_scale_l.
  set (W := map2 Rmult (map (fun d => 2.0 * PI * d) (diff Q)) _).
  rewrite (map_map (fun frow => np.sum (map2 Rmult W frow)) (fun o => 2 * o)).
  apply map_ext. intros frow. apply sum_map2_scale.
Qed.

(** C7: for every pitch-angle vector and every flux array one axis of which
    has the length of the vector (no lower bound on that length is needed),
    both calls return, and the result with [symmetry=True] is, energy by
    energy, twice the result with [symmetry=False]. *)
Theorem calculate_omnidirectional_flux_symmetry_doubles
  (pav : list R) (diffJ : ndarray2) (angleDegrees : bool) :
  length pav = shape0 diffJ \/ length pav = shape1 diffJ ->
  exists omni1 omni2,
    calculate_omnidirectional_flux pav diffJ angleDegrees false = Ok omni1 /\
    calculate_omnidirectional_flux pav diffJ angleDegrees true = Ok omni2 /\
    omni2 = map (fun o => 2 * o) omni1 /\
    length omni2 = length omni1 /\
    forall j, nth j omni2 0 = 2 * nth j omni1 0.
Proof.
  intros Hdim. unfold calculate_omnidirectional_flux.
  assert (Hchk : negb ((length pav =? shape0 diffJ)%nat
                       || (length pav =? shape1 diffJ)%nat) = false).
  { apply negb_false_iff, orb_true_iff.
    destruct Hdim as [H|H]; [left|right]; now apply Nat.eqb_eq. }
  rewrite Hchk. eexists. eexists.
  split; [reflexivity|]. split; [reflexivity|].
  rewrite omni_reduce_symmetry. split; [reflexivity|].
  split; [apply length_map|].
  intros j.
  replace 0 with ((fun o => 2 * o) 0) at 1 by lra.
  apply (map_nth (fun o => 2 * o)).
Qed.

Lemma calculate_omnidirectional_flux_symmetry_doubles_witness :
  exists omni1 omni2,
    calculate_omnidirectional_flux pav_3 diffJ_3x2 true false = Ok omni1 /\
    calculate_omnidirectional_flux pav_3 diffJ_3x2 true true = Ok omni2 /\
    omni2 = map (fun o => 2 * o) omni1.
Proof.
  destruct (calculate_omnidirectional_flux_symmetry_doubles
              pav_3 diffJ_3x2 true (or_introl eq_refl))
    as (o1 & o2 & H1 & H2 & H3 & _).
  exists o1, o2. repeat split; assumption.
Defined.

Lemma transpose_cell (a : ndarray2) (i j : nat) :
  wf_ndarray2 a -> (i < shape0 a)%nat -> (j < shape1 a)%nat ->
  cell 0 (rows (transpose a)) j i = cell 0 (rows a) i j.
Proof.
  intros [Hlen Hrows] Hi Hj. unfold cell, transpose. cbn [rows].
  rewrite (nth_indep _ [] ((fun j => map (fun row => nth j row 0) (rows a)) O))
    by (rewrite length_map, length_seq; exact Hj).
  rewrite (map_nth (fun j => map (fun row => nth j row 0) (rows a))).
  rewrite seq_nth by exact Hj. cbn [Nat.add].
  rewrite (nth_indep _ 0 ((fun row => nth j row 0) []))
    by (rewrite length_map; lia).
  now rewrite (map_nth (fun row => nth j row 0)).
Qed.

(** C8: the integration raises its dimension-mismatch exception exactly when
    the number of pitch angles is neither dimension of the flux array, and it
    raises nothing else; when the number matches the second axis the array is
    used as it is, and when it matches the first axis only, its transpose. *)
Theorem calculate_omnidirectional_flux_dimension_check
  (pav : list R) (diffJ : ndarray2) (angleDegrees symmetry : bool) :
  let Q := if angleDegrees then map deg2rad pav else pav in
  (calculate_omnidirectional_flux pav diffJ angleDegrees symmetry
   = Raise dimension_mismatch
   <-> length pav <> shape0 diffJ /\ length pav <> shape1 diffJ) /\
  (forall e, calculate_omnidirectional_flux pav diffJ angleDegrees symmetry
             = Raise e -> e = dimension_mismatch) /\
  (length pav = shape1 diffJ ->
   calculate_omnidirectional_flux pav diffJ angleDegrees symmetry
   = Ok (omni_reduce Q (rows diffJ) symmetry)) /\
  (length pav = shape0 diffJ -> length pav <> shape1 diffJ ->
   calculate_omnidirectional_flux pav diffJ angleDegrees symmetry
   = Ok (omni_reduce Q (rows (transpose diffJ)) symmetry) /\
   shape1 (transpose diffJ) = length pav /\
   (wf_ndarray2 diffJ ->
    forall i j, (i < shape0 diffJ)%nat -> (j < shape1 diffJ)%nat ->
                cell 0 (rows (transpose diffJ)) j i = cell 0 (rows diffJ) i j)).
Proof.
  intros Q. unfold calculate_omnidirectional_flux. fold Q.
  destruct (Nat.eqb_spec (length pav) (shape0 diffJ)) as [H0|H0];
    destruct (Nat.eqb_spec (length pav) (shape1 diffJ)) as [H1|H1];
    cbn [orb negb].
  - split; [split; [discriminate|tauto]|].
    split; [discriminate|]. split; [intros _; reflexivity|tauto].
  - split; [split; [discriminate|tauto]|].
    split; [discriminate|]. split; [tauto|].
    intros _ _. split; [reflexivity|]. split; [now rewrite H0|].
    intros Hwf i j Hi Hj. now apply transpose_cell.
  - split; [split; [discriminate|tauto]|].
    split; [discriminate|]. split; [intros _; reflexivity|tauto].
  - split; [split; [tauto|intros _; reflexivity]|].
    split; [intros e He; congruence|]. split; tauto.
Qed.

Lemma calculate_omnidirectional_flux_dimension_check_witness :
  calculate_omnidirectional_flux pav_3 diffJ_3x2 true false
  = Ok (omni_reduce (map deg2rad pav_3) (rows (transpose diffJ_3x2)) false)
  /\ rows (transpose diffJ_3x2) = [[1; 1; 1]; [1; 1; 1]].
Proof.
  destruct (calculate_omnidirectional_flux_dimension_check
              pav_3 diffJ_3x2 true false) as (_ & _ & _ & Ht).
  destruct (Ht eq_refl ltac:(discriminate)) as (Hcall & _).
  split; [exact Hcall|reflexivity].
Defined.

(** ** The rest-mass attribute of the postprocessor *)

Lemma get_mc2_set_source_parameters (self : ptm_postprocessor.t)
  (n_dens e_char kap mass : R) :
  ptm_postprocessor.get_mc2
    (ptm_postprocessor.set_source_parameters self n_dens e_char kap mass)
  = ptm_postprocessor.get_mc2 self * mass.
Proof. reflexivity. Qed.

Lemma get_mc2_after_calls (dir : string) (n_dens e_char kap mass : R) (k : nat) :
  ptm_postprocessor.get_mc2 (after_calls dir n_dens e_char kap mass k)
  = 511 * mass ^ k.
Proof.
  induction k as [|k IH].
  - cbn. unfold ptm_postprocessor.cls_mc2. lra.
  - change (after_calls dir n_dens e_char kap mass (S k))
      with (ptm_postprocessor.set_source_parameters
              (after_calls dir n_dens e_char kap mass k) n_dens e_char kap mass).
    rewrite get_mc2_set_source_parameters, IH. cbn [pow]. ring.
Qed.

Lemma set_defaults_after_calls (dir : string) (n_dens e_char kap mass : R)
  (k : nat) :
  ptm_postprocessor.set_defaults (after_calls dir n_dens e_char kap mass k)
  = match k with O => true | S _ => false end.
Proof. destruct k; reflexivity. Qed.


(** ** Cells of a 2-D array *)

Lemma length_set_nth {A : Type} (l : list A) (n : nat) (v : A) :
  length (set_nth l n v) = length l.
Proof.
  revert n. induction l as [|x l IH]; intros [|n]; cbn; try reflexivity.
  now rewrite IH.
Qed.

Lemma nth_set_nth_eq {A : Type} (l : list A) (n : nat) (v d : A) :
  (n < length l)%nat -> nth n (set_nth l n v) d = v.
Proof.
  revert n. induction l as [|x l IH]; intros [|n] H; cbn in *; try lia.
  - reflexivity.
  - apply IH. lia.
Qed.

Lemma nth_set_nth_neq {A : Type} (l : list A) (n n' : nat) (v d : A) :
  n <> n' -> nth n' (set_nth l n v) d = nth n' l d.
Proof.
  revert n n'. induction l as [|x l IH]; intros [|n] [|n'] H; cbn;
    try reflexivity; try congruence.
  apply IH. congruence.
Qed.

Lemma has_shape_row {A : Type} (g : list (list A)) (n m i : nat) :
  has_shape g n m -> (i < n)%nat -> length (nth i g []) = m.
Proof.
  intros [Hlen Hrows] Hi. rewrite Forall_forall in Hrows.
  apply Hrows, nth_In. lia.
Qed.

Lemma getitem2_cell {A : Type} (d : A) (g : list (list A)) (n m i j : nat) :
  has_shape g n m -> (i < n)%nat -> (j < m)%nat ->
  getitem2 g (Z.of_nat i) (Z.of_nat j) = Ok (cell d g i j).
Proof.
  intros Hs Hi Hj. unfold getitem2, cell.
  rewrite (getitem_nat_ok g i []) by (destruct Hs; lia). cbn [bind].
  apply getitem_nat_ok. now rewrite (has_shape_row g n m i Hs Hi).
Qed.

Lemma setitem2_set_cell {A : Type} (g : list (list A)) (n m i j : nat) (v : A) :
  has_shape g n m -> (i < n)%nat -> (j < m)%nat ->
  setitem2 g (Z.of_nat i) (Z.of_nat j) v = Ok (set_cell g i j v).
Proof.
  intros Hs Hi Hj. unfold setitem2.
  rewrite (getitem_nat_ok g i []) by (destruct Hs; lia). cbn [bind].
  rewrite (getitem_nat_ok (nth i g []) j v)
    by (now rewrite (has_shape_row g n m i Hs Hi)).
  cbn [bind].
  destruct (Z.leb_spec 0 (Z.of_nat i)); [|lia].
  destruct (Z.leb_spec 0 (Z.of_nat j)); [|lia].
  cbn [andb]. now rewrite !Nat2Z.id.
Qed.

Lemma has_shape_set_cell {A : Type} (g : list (list A)) (n m i j : nat) (v : A) :
  has_shape g n m -> has_shape (set_cell g i j v) n m.
Proof.
  intros Hs. pose proof Hs as [Hlen Hrows]. unfold set_cell. split.
  - now rewrite length_set_nth.
  - rewrite Forall_forall in *. intros row Hrow.
    destruct (In_nth _ _ [] Hrow) as (i' & Hi' & <-).
    rewrite length_set_nth in Hi'.
    destruct (Nat.eq_dec i i') as [<-|Hne].
    + rewrite nth_set_nth_eq by lia. rewrite length_set_nth.
      apply Hrows, nth_In. lia.
    + rewrite nth_set_nth_neq by exact Hne. apply Hrows, nth_In. lia.
Qed.

Lemma cell_set_cell {A : Type} (d : A) (g : list (list A)) (n m i j i' j' : nat)
  (v : A) :
  has_shape g n m -> (i < n)%nat -> (j < m)%nat ->
  cell d (set_cell g i j v) i' j' =
  if ((i =? i') && (j =? j'))%nat%bool then v else cell d g i' j'.
Proof.
  intros Hs Hi Hj. unfold cell, set_cell.
  destruct (Nat.eqb_spec i i') as [<-|Hne]; cbn [andb].
  - rewrite nth_set_nth_eq by (destruct Hs; lia).
    destruct (Nat.eqb_spec j j') as [<-|Hnej].
    + apply nth_set_nth_eq. now rewrite (has_shape_row g n m i Hs Hi).
    + now apply nth_set_nth_neq.
  - now rewrite nth_set_nth_neq.
Qed.

(** ** The geometric access mask *)

Lemma access_mask_step_eval (fm : fluxmap) (g : list (list R)) (n m i j : nat) :
  has_shape g n m -> has_shape (final_x fm) n m ->
  (i < n)%nat -> (j < m)%nat ->
  access_mask_step fm g (i, j) =
  Ok (if Rgeb (np.linalg_norm (cell vzero (final_x fm) i j)) 14.99
      then g else set_cell g i j 0).
Proof.
  intros Hg Hx Hi Hj. unfold access_mask_step. cbn [fst snd].
  rewrite (getitem2_cell vzero (final_x fm) n m i j Hx Hi Hj). cbn [bind].
  destruct (Rgeb _ 14.99); [reflexivity|].
  now apply (setitem2_set_cell g n m).
Qed.

Lemma access_mask_loop (fm : fluxmap) (n m : nat) (l : list (nat * nat)) :
  has_shape (final_x fm) n m ->
  (forall p, In p l -> (fst p < n)%nat /\ (snd p < m)%nat) ->
  forall g, has_shape g n m ->
  exists g',
    foldM (access_mask_step fm) l g = Ok g' /\
    has_shape g' n m /\
    (forall i j, (i < n)%nat -> (j < m)%nat ->
       (below_boundary fm i j /\ cell 0 g' i j = 0) \/
       cell 0 g' i j = cell 0 g i j) /\
    (forall i j, In (i, j) l -> below_boundary fm i j -> cell 0 g' i j = 0).
Proof.
  intros Hx. induction l as [|[i0 j0] l IH]; intros Hin g Hg.
  - exists g. split; [reflexivity|]. split; [exact Hg|]. split.
    + intros i j _ _. now right.
    + intros i j [].
  - destruct (Hin (i0, j0) (or_introl eq_refl)) as [Hi0 Hj0]. cbn [fst snd] in *.
    cbn [foldM].
    rewrite (access_mask_step_eval fm g n m i0 j0 Hg Hx Hi0 Hj0). cbn [bind].
    set (g1 := if Rgeb (np.linalg_norm (cell vzero (final_x fm) i0 j0)) 14.99
               then g else set_cell g i0 j0 0).
    assert (Hg1 : has_shape g1 n m).
    { subst g1. destruct (Rgeb _ 14.99); [exact Hg|now apply has_shape_set_cell]. }
    assert (Hcell1 : forall i j,
               (below_boundary fm i j /\ (i, j) = (i0, j0) /\ cell 0 g1 i j = 0)
               \/ cell 0 g1 i j = cell 0 g i j).
    { intros i j. subst g1. unfold Rgeb.
      destruct (Rge_dec (np.linalg_norm (cell vzero (final_x fm) i0 j0)) 14.99)
        as [Hge|Hlt]; [now right|].
      rewrite (cell_set_cell 0 g n m i0 j0 i j 0 Hg Hi0 Hj0).
      destruct (Nat.eqb_spec i0 i) as [<-|]; [|now right].
      destruct (Nat.eqb_spec j0 j) as [<-|]; [|now right].
      left. unfold below_boundary. cbn [andb]. repeat split. lra. }
    destruct (IH (fun p Hp => Hin p (or_intror Hp)) g1 Hg1)
      as (g' & Hfold & Hg' & Hcells & Hzero).
    exists g'. split; [exact Hfold|]. split; [exact Hg'|]. split.
    + intros i j Hi Hj.
      destruct (Hcells i j Hi Hj) as [Hz|Hsame]; [now left|].
      destruct (Hcell1 i j) as [(Hb & _ & Hz)|Hsame1].
      * left. split; [exact Hb|]. now rewrite Hsame.
      * right. now rewrite Hsame.
    + intros i j [Heq|Hl] Hb; [|now apply Hzero].
      injection Heq as <- <-.
      destruct (Hcells i0 j0 Hi0 Hj0) as [[_ Hz]|Hsame]; [exact Hz|].
      rewrite Hsame. subst g1. unfold below_boundary in Hb.
      rewrite (Rgeb_false _ _ Hb).
      rewrite (cell_set_cell 0 g n m i0 j0 i0 j0 0 Hg Hi0 Hj0).
      now rewrite !Nat.eqb_refl.
Qed.

(** ** The field-of-view mask *)

Lemma length_map2 {A B C : Type} (f : A -> B -> C) (l1 : list A) (l2 : list B) :
  length (map2 f l1 l2) = Nat.min (length l1) (length l2).
Proof.
  revert l2. induction l1 as [|a l1 IH]; intros [|b l2]; cbn; try reflexivity.
  now rewrite IH.
Qed.

Lemma nth_map2 {A B C : Type} (f : A -> B -> C) (l1 : list A) (l2 : list B)
  (i : nat) (d1 : A) (d2 : B) (d : C) :
  (i < length l1)%nat -> (i < length l2)%nat ->
  nth i (map2 f l1 l2) d = f (nth i l1 d1) (nth i l2 d2).
Proof.
  revert l2 i. induction l1 as [|a l1 IH]; intros [|b l2] [|i] H1 H2;
    cbn in *; try lia; try reflexivity.
  apply IH; lia.
Qed.

Lemma mask_assign_ok (a : list (list R)) (mask : list (list bool)) (v : R)
  (n m : nat) :
  has_shape a n m -> has_shape mask n m ->
  exists a',
    mask_assign a mask v = Ok a' /\ has_shape a' n m /\
    forall i j, (i < n)%nat -> (j < m)%nat ->
      cell 0 a' i j = if cell false mask i j then v else cell 0 a i j.
Proof.
  intros Ha Hm. pose proof Ha as [Hla Hra]. pose proof Hm as [Hlm Hrm].
  unfold mask_assign.
  assert (Hchk : ((length a =? length mask)%nat
                  && forallb (fun p => (length (fst p) =? length (snd p))%nat)
                             (combine a mask))%bool = true).
  { apply andb_true_iff. split; [apply Nat.eqb_eq; lia|].
    apply forallb_forall. intros [r1 r2] Hp. cbn [fst snd].
    rewrite Forall_forall in Hra, Hrm.
    apply Nat.eqb_eq.
    rewrite (Hra r1 (in_combine_l _ _ _ _ Hp)).
    now rewrite (Hrm r2 (in_combine_r _ _ _ _ Hp)). }
  rewrite Hchk. eexists. split; [reflexivity|].
  set (f := fun (x : R) (b : bool) => if b then v else x).
  assert (Hrow : forall i, (i < n)%nat ->
            nth i (map2 (map2 f) a mask) [] = map2 f (nth i a []) (nth i mask [])).
  { intros i Hi. apply nth_map2; lia. }
  split; [split|].
  - rewrite length_map2. lia.
  - apply Forall_forall. intros row Hrow'.
    destruct (In_nth _ _ [] Hrow') as (i & Hi & <-).
    rewrite length_map2 in Hi. rewrite Hrow by lia.
    rewrite length_map2, (has_shape_row a n m i Ha), (has_shape_row mask n m i Hm)
      by lia. lia.
  - intros i j Hi Hj. unfold cell. rewrite Hrow by exact Hi.
    rewrite (nth_map2 f _ _ j 0 false).
    + reflexivity.
    + now rewrite (has_shape_row a n m i Ha Hi).
    + now rewrite (has_shape_row mask n m i Hm Hi).
Qed.

Lemma has_shape_map_map {A B : Type} (f : A -> B) (g : list (list A)) (n m : nat) :
  has_shape g n m -> has_shape (map (map f) g) n m.
Proof.
  intros [Hl Hr]. split; [now rewrite length_map|].
  rewrite Forall_forall in *. intros row Hrow.
  apply in_map_iff in Hrow. destruct Hrow as (r & <- & Hin).
  rewrite length_map. now apply Hr.
Qed.

Lemma In_index_pairs (n m : nat) (p : nat * nat) :
  In p (list_prod (seq 0 n) (seq 0 m)) <-> (fst p < n)%nat /\ (snd p < m)%nat.
Proof.
  destruct p as [i j]. rewrite in_prod_iff, !in_seq. cbn [fst snd]. lia.
Qed.

Lemma shape_of_has_shape {A : Type} (g : list (list A)) (n m : nat) :
  has_shape g n m -> shape_of g = (n, m) \/ (n = O /\ fst (shape_of g) = O).
Proof.
  intros [Hl Hr]. unfold shape_of. destruct g as [|row g].
  - right. cbn in *. split; [lia|reflexivity].
  - left. cbn [hd]. rewrite Forall_forall in Hr.
    rewrite (Hr row (or_introl eq_refl)). now rewrite Hl.
Qed.

(** C4 (as the code has it): in the normal mode ([initialE=False]), when the
    evaluated flux and the grids of the flux map have the shape of the grid,
    [calculate_omni] hands on a differential flux that is zero at every cell
    whose final position is below 14.99 Re, with or without the field-of-view
    mask and whatever the flux evaluation returned; in the initial-energy
    mode the access mask is not applied, and without the field-of-view mask
    the evaluated flux is handed on unchanged. *)
Theorem calculate_omni_access_mask
  (map_flux : fluxmap -> result (list (list R))) (fm : fluxmap) (n m : nat) :
  (forall (fov : bool) (g : list (list R)),
      map_flux fm = Ok g ->
      has_shape g n m -> has_shape (final_x fm) n m ->
      (fov = true -> has_shape (init_v fm) n m) ->
      exists df,
        calculate_omni_diff_flux map_flux fm fov false = Ok (fm, df) /\
        has_shape df n m /\
        forall i j, (i < n)%nat -> (j < m)%nat ->
                    below_boundary fm i j -> cell 0 df i j = 0) /\
  (forall g : list (list R),
      map_flux (set_final_E fm (init_E fm)) = Ok g ->
      calculate_omni_diff_flux map_flux fm false true
      = Ok (set_final_E fm (init_E fm), g)).
Proof.
  split.
  - intros fov g Hflux Hg Hx Hv.
    unfold calculate_omni_diff_flux. cbn [negb]. rewrite Hflux. cbn [bind].
    assert (Hloop : exists g',
               (let '(nener, nalph) := shape_of g in
                foldM (access_mask_step fm)
                      (list_prod (seq 0 nener) (seq 0 nalph)) g) = Ok g' /\
               has_shape g' n m /\
               forall i j, (i < n)%nat -> (j < m)%nat ->
                           below_boundary fm i j -> cell 0 g' i j = 0).
    { destruct (shape_of_has_shape g n m Hg) as [-> | [-> Hz]].
      - destruct (access_mask_loop fm n m (list_prod (seq 0 n) (seq 0 m)) Hx
                    (fun p Hp => proj1 (In_index_pairs n m p) Hp) g Hg)
          as (g' & Hfold & Hg' & _ & Hzero).
        exists g'. split; [exact Hfold|]. split; [exact Hg'|].
        intros i j Hi Hj. apply Hzero. apply In_index_pairs. now split.
      - destruct (shape_of g) as [ne na]. cbn [fst] in Hz. subst ne.
        exists g. split; [reflexivity|]. split; [exact Hg|]. intros i j Hi. lia. }
    destruct Hloop as (g' & -> & Hg' & Hzero). cbn [bind].
    destruct fov.
    + destruct (mask_assign_ok g'
                  (map (map (fun a => Rltb a 90)) (instrFOV fm)) 0 n m Hg')
        as (df & -> & Hdf & Hcell).
      { unfold instrFOV. apply has_shape_map_map, has_shape_map_map.
        now apply Hv. }
      cbn [bind]. exists df. split; [reflexivity|]. split; [exact Hdf|].
      intros i j Hi Hj Hb. rewrite (Hcell i j Hi Hj).
      destruct (cell false _ i j); [reflexivity|now apply Hzero].
    + cbn [bind]. exists g'. split; [reflexivity|]. split; assumption.
  - intros g Hflux. unfold calculate_omni_diff_flux. cbn [negb].
    rewrite Hflux. reflexivity.
Qed.

Lemma map_flux_kappa_eval (sp : special) (fm : fluxmap) :
  map_flux_kappa sp fm
  = Ok (map2 (map2 (ptm_postprocessor.flux_cell sp
                      (ptm_postprocessor.cls_mc2 * 1847.0) 752.0 5e-6 5.0))
             (final_E fm) (init_E fm)).
Proof. reflexivity. Qed.

Lemma calculate_omni_access_mask_witness :
  exists df,
    calculate_omni_diff_flux (map_flux_kappa sp_table) fm_runs false false
    = Ok (fm_runs, df) /\
    cell 0 df 1 1 = 0.
Proof.
  destruct (calculate_omni_access_mask (map_flux_kappa sp_table) fm_runs 3 2)
    as [Hmask _].
  destruct (Hmask false _ (map_flux_kappa_eval sp_table fm_runs))
    as (df & Hdf & _ & Hzero).
  - split; [reflexivity|]. repeat constructor.
  - split; [reflexivity|]. repeat constructor.
  - discriminate.
  - exists df. split; [exact Hdf|].
    apply Hzero; [lia|lia|].
    unfold below_boundary, cell. cbn [fm_runs final_x nth].
    unfold x_near. rewrite norm_x_axis; lra.
Defined.

Lemma gamma_table_6 : gamma_table (5.0 + 1) = 120.
Proof.
  unfold gamma_table. destruct (Req_dec_T (5.0 + 1) 6); [reflexivity|lra].
Qed.

Lemma gamma_table_9_2 : gamma_table (5.0 - 0.5) = 105 / 16 * sqrt PI.
Proof.
  unfold gamma_table.
  destruct (Req_dec_T (5.0 - 0.5) 6); [lra|].
  destruct (Req_dec_T (5.0 - 0.5) 4.5); [reflexivity|lra].
Qed.

Lemma sqrt_PI_pos : 0 < sqrt PI.
Proof. apply sqrt_lt_R0, PI_RGT_0. Qed.

Lemma Rpower_pos (x y : R) : 0 < Rpower x y.
Proof. unfold Rpower. apply exp_pos. Qed.

Lemma flux_cell_pos (sp : special) (mc2 ec n kappa ef ei : R) :
  0 < mc2 -> 0 < n -> 0 < ef ->
  0 < gamma sp (kappa + 1) / gamma sp (kappa - 0.5) ->
  0 < ptm_postprocessor.flux_cell sp mc2 ec n kappa ef ei.
Proof.
  intros Hmc2 Hn Hef Hg. unfold ptm_postprocessor.flux_cell.
  set (gamf := 1 + ef / mc2).
  assert (Hgamf : 1 < gamf).
  { subst gamf. assert (0 < ef / mc2) by now apply Rdiv_lt_0_compat. lra. }
  assert (Hs : 0 < sqrt (gamf * gamf - 1.0)) by (apply sqrt_lt_R0; nra).
  set (v := ptm_postprocessor.cls_ckm * sqrt (gamf * gamf - 1.0) / gamf).
  assert (Hv : 0 < v).
  { subst v. apply Rdiv_lt_0_compat; [|lra].
    apply Rmult_lt_0_compat; [unfold ptm_postprocessor.cls_ckm; lra|exact Hs]. }
  set (P1 := Rpower _ 1.5). set (P2 := Rpower _ (- (kappa + 1))).
  assert (H1 : 0 < P1) by apply Rpower_pos.
  assert (H2 : 0 < P2) by apply Rpower_pos.
  assert (Hf : 0 < n * P1 * (gamma sp (kappa + 1) / gamma sp (kappa - 0.5)) * P2).
  { apply Rmult_lt_0_compat;
      [apply Rmult_lt_0_compat; [apply Rmult_lt_0_compat|]|]; assumption. }
  apply Rdiv_lt_0_compat; [|exact Hmc2].
  apply Rmult_lt_0_compat;
    [apply Rmult_lt_0_compat;
     [apply Rmult_lt_0_compat; [apply Rmult_lt_0_compat|]|]|];
    try assumption; [lra|unfold ptm_postprocessor.cls_csq; lra].
Qed.

(** C4 (as stated) fails in the initial-energy mode: on [fm_dark], where no
    cell reaches the boundary, the flux handed on at cell (0, 0) is the
    evaluated kappa flux, which is positive. *)
Lemma calculate_omni_initialE_unmasked_counterexample :
  exists df,
    calculate_omni_diff_flux (map_flux_kappa sp_table) fm_dark false true
    = Ok (set_final_E fm_dark (init_E fm_dark), df) /\
    below_boundary fm_dark 0 0 /\
    cell 0 df 0 0 <> 0.
Proof.
  exists (map2 (map2 (ptm_postprocessor.flux_cell sp_table
                        (ptm_postprocessor.cls_mc2 * 1847.0) 752.0 5e-6 5.0))
               (init_E fm_dark) (init_E fm_dark)).
  split; [reflexivity|]. split.
  - unfold below_boundary, cell. cbn [fm_dark final_x nth].
    unfold x_near. rewrite norm_x_axis; lra.
  - unfold cell.
    cbn [init_E fm_dark map2 nth].
    apply Rgt_not_eq, Rlt_gt. apply flux_cell_pos.
    + unfold ptm_postprocessor.cls_mc2. lra.
    + lra.
    + lra.
    + cbn [gamma sp_table]. rewrite gamma_table_6, gamma_table_9_2.
      apply Rdiv_lt_0_compat; [lra|].
      pose proof sqrt_PI_pos. lra.
Qed.

Lemma norm_eq (x y z r : R) :
  0 <= r -> x * x + y * y + z * z = r * r -> np.linalg_norm (x, y, z) = r.
Proof.
  intros Hr H. unfold np.linalg_norm. rewrite H. now apply sqrt_square.
Qed.

Lemma instrFOV_fm_fov : instrFOV fm_fov = [[0; 180]].
Proof.
  unfold instrFOV. cbn [fm_fov position init_v map scale].
  rewrite (norm_eq (-1 * 4) (-1 * 0) (-1 * 0) 4) by lra.
  rewrite (norm_eq 1 0 0 1) by lra.
  rewrite (norm_eq (-1) 0 0 1) by lra.
  cbn [vdiv scale dot].
  replace (-1 * (-1 * 4 / 4) * (1 / 1) + -1 * (-1 * 0 / 4) * (0 / 1)
           + -1 * (-1 * 0 / 4) * (0 / 1)) with 1 by field.
  replace (-1 * (-1 * 4 / 4) * (-1 / 1) + -1 * (-1 * 0 / 4) * (0 / 1)
           + -1 * (-1 * 0 / 4) * (0 / 1)) with (- (1)) by field.
  rewrite acos_opp, acos_1. unfold rad2deg.
  repeat f_equal.
  - lra.
  - field. apply PI_neq0.
Qed.

Lemma Rltb_true (x y : R) : x < y -> Rltb x y = true.
Proof. intros H. unfold Rltb. now destruct (Rlt_dec x y). Qed.

Lemma Rltb_false (x y : R) : ~ x < y -> Rltb x y = false.
Proof. intros H. unfold Rltb. now destruct (Rlt_dec x y). Qed.

(** C2 (what the code computes): on [fm_fov] the angles to the inverse of
    the field-of-view axis are 0 and 180 degrees; with the mask enabled the
    flux of the cell at 0 degrees is set to zero and the flux of the cell at
    180 degrees is kept. *)
Theorem calculate_omni_fov_mask_zeroes_below_90
  (map_flux : fluxmap -> result (list (list R))) (j0 j1 : R) :
  map_flux fm_fov = Ok [[j0; j1]] ->
  instrFOV fm_fov = [[0; 180]] /\
  calculate_omni_diff_flux map_flux fm_fov true false
  = Ok (fm_fov, [[0; j1]]).
Proof.
  intros Hflux. split; [exact instrFOV_fm_fov|].
  unfold calculate_omni_diff_flux. cbn [negb]. rewrite Hflux. cbn [bind].
  assert (Hs : has_shape [[j0; j1]] 1 2)
    by (split; [reflexivity|repeat constructor]).
  assert (Hx : has_shape (final_x fm_fov) 1 2)
    by (split; [reflexivity|repeat constructor]).
  cbn [shape_of length hd seq list_prod map app foldM].
  rewrite (access_mask_step_eval fm_fov _ 1 2 0 0 Hs Hx) by lia.
  change (cell vzero (final_x fm_fov) 0 0) with x_far.
  rewrite access_far. cbn [bind].
  rewrite (access_mask_step_eval fm_fov _ 1 2 0 1 Hs Hx) by lia.
  change (cell vzero (final_x fm_fov) 0 1) with x_far.
  rewrite access_far. cbn [bind].
  rewrite instrFOV_fm_fov. cbn [map].
  rewrite (Rltb_true 0 90) by lra. rewrite (Rltb_false 180 90) by lra.
  reflexivity.
Qed.

Lemma calculate_omni_fov_mask_zeroes_below_90_witness :
  exists j0 j1,
    0 < j0 /\
    map_flux_kappa sp_table fm_fov = Ok [[j0; j1]] /\
    calculate_omni_diff_flux (map_flux_kappa sp_table) fm_fov true false
    = Ok (fm_fov, [[0; j1]]).
Proof.
  set (j := ptm_postprocessor.flux_cell sp_table
              (ptm_postprocessor.cls_mc2 * 1847.0) 752.0 5e-6 5.0 1000 1000).
  assert (Hflux : map_flux_kappa sp_table fm_fov = Ok [[j; j]]) by reflexivity.
  exists j, j. split; [|split; [exact Hflux|]].
  2: exact (proj2 (calculate_omni_fov_mask_zeroes_below_90
                     (map_flux_kappa sp_table) j j Hflux)).
  apply flux_cell_pos.
  - unfold ptm_postprocessor.cls_mc2. lra.
  - lra.
  - lra.
  - cbn [gamma sp_table]. rewrite gamma_table_6, gamma_table_9_2.
    apply Rdiv_lt_0_compat; [lra|]. pose proof sqrt_PI_pos. lra.
Defined.

(** ** The two-component mixture against the kappa model *)

Lemma energy_to_flux_kappa (sp : special) (ei ef ec n mc2 kap : R) :
  energy_to_flux sp ei ef ec n mc2 "kappa" kap false
  = Ok (kappa_flux sp ei ef ec n mc2 kap).
Proof. reflexivity. Qed.

Lemma ckm_pos : 0 < ckm.
Proof. unfold ckm. lra. Qed.

Lemma Wc_pos (ec kap : R) : 0 < ec -> 1.5 < kap -> 0 < ec * (1.0 - 1.5 / kap).
Proof.
  intros He Hk. apply Rmult_lt_0_compat; [exact He|].
  assert (H : 1.5 / kap < 1).
  { apply (Rmult_lt_reg_r kap); [lra|].
    unfold Rdiv. rewrite Rmult_assoc, Rinv_l by lra. lra. }
  lra.
Qed.

(** The normalisation of the mixture has [pi * kappa] where the kappa model
    has [2 * pi * kappa]. *)
Lemma mixture_normalisation (mc2 W k : R) :
  0 < mc2 -> 0 < W -> 0 < k ->
  Rpower (mc2 / (ckm * ckm * W * PI * k)) 1.5
  = Rpower 2 1.5 * Rpower (mc2 / (ckm * ckm * W * 2 * PI * k)) 1.5.
Proof.
  intros Hm HW Hk. pose proof ckm_pos as Hc. pose proof PI_RGT_0 as Hpi.
  assert (Hcc : 0 < ckm * ckm) by now apply Rmult_lt_0_compat.
  assert (HccW : 0 < ckm * ckm * W) by now apply Rmult_lt_0_compat.
  assert (Hpk : 0 < PI * k) by now apply Rmult_lt_0_compat.
  assert (Hd : 0 < ckm * ckm * W * 2 * PI * k).
  { replace (ckm * ckm * W * 2 * PI * k) with (2 * ((ckm * ckm * W) * (PI * k)))
      by ring.
    apply Rmult_lt_0_compat; [lra|now apply Rmult_lt_0_compat]. }
  rewrite Rpower_mult_distr; [|lra|now apply Rdiv_lt_0_compat].
  f_equal. field. repeat split; lra.
Qed.

(** C5 (what the code computes): for kappa indices above 1.5, positive
    characteristic energies and a [gammaln] that is the logarithm of [gamma]
    at the arguments used, the mixture of [calculate_electron_flux] is
    [2 ** 1.5] times the sum of the two single-component kappa fluxes of
    [energy_to_flux], not the sum itself. *)
Theorem calculate_electron_flux_vs_kappa_sum (sp : special)
  (ei ef k1 E1 n1 k2 E2 n2 : R) :
  1.5 < k1 -> 1.5 < k2 -> 0 < E1 -> 0 < E2 ->
  exp (gammaln sp (k1 + 1) - gammaln sp (k1 - 0.5))
  = gamma sp (k1 + 1) / gamma sp (k1 - 0.5) ->
  exp (gammaln sp (k2 + 1) - gammaln sp (k2 - 0.5))
  = gamma sp (k2 + 1) / gamma sp (k2 - 0.5) ->
  exists j1 j2,
    energy_to_flux sp ei ef E1 n1 511.0 "kappa" k1 false = Ok j1 /\
    energy_to_flux sp ei ef E2 n2 511.0 "kappa" k2 false = Ok j2 /\
    calculate_electron_flux sp ei ef [k1; E1; n1; k2; E2; n2]
    = Ok (Rpower 2 1.5 * (j1 + j2)).
Proof.
  intros Hk1 Hk2 HE1 HE2 Hg1 Hg2.
  exists (kappa_flux sp ei ef E1 n1 511.0 k1), (kappa_flux sp ei ef E2 n2 511.0 k2).
  split; [apply energy_to_flux_kappa|]. split; [apply energy_to_flux_kappa|].
  unfold calculate_electron_flux.
  change (np.getitem [k1; E1; n1; k2; E2; n2] 0) with (Ok k1).
  change (np.getitem [k1; E1; n1; k2; E2; n2] 1) with (Ok E1).
  change (np.getitem [k1; E1; n1; k2; E2; n2] 2) with (Ok n1).
  change (np.getitem [k1; E1; n1; k2; E2; n2] 3) with (Ok k2).
  change (np.getitem [k1; E1; n1; k2; E2; n2] 4) with (Ok E2).
  change (np.getitem [k1; E1; n1; k2; E2; n2] 5) with (Ok n2).
  cbn [bind]. f_equal. rewrite Hg1, Hg2.
  rewrite (mixture_normalisation 511.0 (E1 * (1.0 - 1.5 / k1)) k1)
    by (try apply Wc_pos; lra).
  rewrite (mixture_normalisation 511.0 (E2 * (1.0 - 1.5 / k2)) k2)
    by (try apply Wc_pos; lra).
  unfold kappa_flux. cbv zeta. unfold Rdiv. ring.
Qed.

Lemma gamma_table_7_2 : gamma_table (2.5 + 1) = 15 / 8 * sqrt PI.
Proof.
  unfold gamma_table.
  destruct (Req_dec_T (2.5 + 1) 6); [lra|].
  destruct (Req_dec_T (2.5 + 1) 4.5); [lra|].
  destruct (Req_dec_T (2.5 + 1) 3.5); [reflexivity|lra].
Qed.

Lemma gamma_table_2 : gamma_table (2.5 - 0.5) = 1.
Proof.
  unfold gamma_table.
  destruct (Req_dec_T (2.5 - 0.5) 6); [lra|].
  destruct (Req_dec_T (2.5 - 0.5) 4.5); [lra|].
  destruct (Req_dec_T (2.5 - 0.5) 3.5); [lra|].
  destruct (Req_dec_T (2.5 - 0.5) 2); reflexivity.
Qed.

Lemma exp_ln_ratio (a b : R) :
  0 < a -> 0 < b -> exp (ln a - ln b) = a / b.
Proof.
  intros Ha Hb. unfold Rminus, Rdiv.
  now rewrite exp_plus, exp_Ropp, !exp_ln.
Qed.

Lemma sp_table_gammaln_5_2 :
  exp (gammaln sp_table (2.5 + 1) - gammaln sp_table (2.5 - 0.5))
  = gamma sp_table (2.5 + 1) / gamma sp_table (2.5 - 0.5).
Proof.
  cbn [gammaln gamma sp_table]. apply exp_ln_ratio.
  - rewrite gamma_table_7_2. pose proof sqrt_PI_pos. lra.
  - rewrite gamma_table_2. lra.
Qed.

Lemma calculate_electron_flux_vs_kappa_sum_witness :
  exists j1 j2,
    energy_to_flux sp_table 1 1 1 1 511.0 "kappa" 2.5 false = Ok j1 /\
    energy_to_flux sp_table 1 1 1 1 511.0 "kappa" 2.5 false = Ok j2 /\
    calculate_electron_flux sp_table 1 1 [2.5; 1; 1; 2.5; 1; 1]
    = Ok (Rpower 2 1.5 * (j1 + j2)).
Proof.
  apply (calculate_electron_flux_vs_kappa_sum sp_table 1 1 2.5 1 1 2.5 1 1);
    try lra; exact sp_table_gammaln_5_2.
Defined.

Lemma kappa_flux_pos (sp : special) (ei ef ec n mc2 kap : R) :
  0 < mc2 -> 0 < n -> 0 < ef ->
  0 < gamma sp (kap + 1) / gamma sp (kap - 0.5) ->
  0 < kappa_flux sp ei ef ec n mc2 kap.
Proof.
  intros Hmc2 Hn Hef Hg. unfold kappa_flux.
  set (gamf := 1 + ef / mc2).
  assert (Hgamf : 1 < gamf).
  { subst gamf. assert (0 < ef / mc2) by now apply Rdiv_lt_0_compat. lra. }
  assert (Hs : 0 < sqrt (gamf * gamf - 1.0)) by (apply sqrt_lt_R0; nra).
  set (v := ckm * sqrt (gamf * gamf - 1.0) / gamf).
  assert (Hv : 0 < v).
  { subst v. apply Rdiv_lt_0_compat; [|lra].
    apply Rmult_lt_0_compat; [exact ckm_pos|exact Hs]. }
  set (P1 := Rpower _ 1.5). set (P2 := Rpower _ (- (kap + 1))).
  assert (H1 : 0 < P1) by apply Rpower_pos.
  assert (H2 : 0 < P2) by apply Rpower_pos.
  pose proof ckm_pos as Hc.
  apply Rmult_lt_0_compat.
  - apply Rdiv_lt_0_compat; [|exact Hmc2].
    apply Rmult_lt_0_compat;
      [apply Rmult_lt_0_compat;
       [apply Rmult_lt_0_compat; [apply Rmult_lt_0_compat|]|]|];
      try assumption; lra.
  - apply Rmult_lt_0_compat;
      [apply Rmult_lt_0_compat; [apply Rmult_lt_0_compat|]|]; assumption.
Qed.

Lemma Rpower_2_gt_1 : 1 < Rpower 2 1.5.
Proof.
  unfold Rpower.
  assert (H : 0 < 1.5 * ln 2).
  { apply Rmult_lt_0_compat; [lra|]. pose proof ln_lt_2. lra. }
  assert (Hne : 1.5 * ln 2 <> 0) by lra.
  pose proof (exp_ineq1 (1.5 * ln 2) Hne). lra.
Qed.

(** On one concrete input the mixture is not the sum of its components. *)
Lemma calculate_electron_flux_not_kappa_sum :
  exists j1 j2 j,
    energy_to_flux sp_table 1 1 1 1 511.0 "kappa" 2.5 false = Ok j1 /\
    energy_to_flux sp_table 1 1 1 1 511.0 "kappa" 2.5 false = Ok j2 /\
    calculate_electron_flux sp_table 1 1 [2.5; 1; 1; 2.5; 1; 1] = Ok j /\
    j <> j1 + j2.
Proof.
  set (j0 := kappa_flux sp_table 1 1 1 1 511.0 2.5).
  assert (Hj0 : 0 < j0).
  { apply kappa_flux_pos; try lra.
    cbn [gamma sp_table]. rewrite gamma_table_7_2, gamma_table_2.
    pose proof sqrt_PI_pos. apply Rdiv_lt_0_compat; lra. }
  exists j0, j0, (Rpower 2 1.5 * (j0 + j0)).
  split; [apply energy_to_flux_kappa|]. split; [apply energy_to_flux_kappa|].
  split.
  - unfold calculate_electron_flux.
    change (np.getitem [2.5; 1; 1; 2.5; 1; 1] 0) with (Ok 2.5).
    change (np.getitem [2.5; 1; 1; 2.5; 1; 1] 1) with (Ok 1).
    change (np.getitem [2.5; 1; 1; 2.5; 1; 1] 2) with (Ok 1).
    change (np.getitem [2.5; 1; 1; 2.5; 1; 1] 3) with (Ok 2.5).
    change (np.getitem [2.5; 1; 1; 2.5; 1; 1] 4) with (Ok 1).
    change (np.getitem [2.5; 1; 1; 2.5; 1; 1] 5) with (Ok 1).
    cbn [bind]. f_equal. rewrite sp_table_gammaln_5_2.
    rewrite (mixture_normalisation 511.0 (1 * (1.0 - 1.5 / 2.5)) 2.5) by lra.
    subst j0. unfold kappa_flux. cbv zeta. unfold Rdiv. ring.
  - pose proof Rpower_2_gt_1. nra.
Qed.

(** ** The grid vectors of the parser *)

Lemma unique_insert_In (x y : R) (l : list R) :
  In y (unique.insert x l) <-> y = x \/ In y l.
Proof.
  induction l as [|z l IH]; cbn [unique.insert].
  - cbn. intuition.
  - destruct (Rlt_dec x z); [cbn; intuition|].
    destruct (Req_dec_T x z) as [->|Hne]; [cbn; intuition|].
    cbn [In]. rewrite IH. intuition.
Qed.

Lemma unique_insert_sorted (x : R) (l : list R) :
  StronglySorted Rlt l -> StronglySorted Rlt (unique.insert x l).
Proof.
  induction 1 as [|z l Hs IH Hz]; cbn [unique.insert].
  - repeat constructor.
  - destruct (Rlt_dec x z) as [Hlt|Hge].
    + constructor; [now constructor|].
      constructor; [exact Hlt|].
      eapply Forall_impl; [|exact Hz]. cbn. intros a Ha. lra.
    + destruct (Req_dec_T x z) as [->|Hne]; [now constructor|].
      constructor; [exact IH|].
      apply Forall_forall. intros a Ha. apply unique_insert_In in Ha.
      destruct Ha as [->|Ha]; [lra|].
      rewrite Forall_forall in Hz. now apply Hz.
Qed.

Lemma unique_sorted (l : list R) : StronglySorted Rlt (unique.unique l).
Proof.
  induction l as [|x l IH]; [constructor|].
  cbn. now apply unique_insert_sorted.
Qed.

Lemma unique_In (l : list R) (y : R) : In y (unique.unique l) <-> In y l.
Proof.
  induction l as [|x l IH]; [reflexivity|].
  cbn [unique.unique fold_right]. fold (unique.unique l).
  rewrite unique_insert_In, IH. cbn. intuition.
Qed.

Lemma sort_sorted (l : list R) : StronglySorted Rlt l -> unique.sort l = l.
Proof.
  induction 1 as [|x l Hs IH Hx]; [reflexivity|].
  cbn [unique.sort fold_right]. fold (unique.sort l). rewrite IH.
  destruct l as [|y l]; [reflexivity|].
  cbn [unique.insert_sorted].
  apply Forall_inv in Hx.
  destruct (Rle_dec x y); [reflexivity|lra].
Qed.

Lemma sorted_NoDup (l : list R) : StronglySorted Rlt l -> NoDup l.
Proof.
  induction 1 as [|x l Hs IH Hx]; constructor; [|exact IH].
  intros Hin. rewrite Forall_forall in Hx. specialize (Hx x Hin). lra.
Qed.

Lemma index_of_Some (x : R) (vec : list R) (i : nat) :
  index_of x vec = Some i -> (i < length vec)%nat /\ nth i vec 0 = x.
Proof.
  revert i. induction vec as [|y t IH]; intros i H; [discriminate|].
  cbn [index_of] in H. unfold Reqb in H.
  destruct (Req_dec_T x y) as [->|Hne].
  - injection H as <-. cbn. split; [lia|reflexivity].
  - destruct (index_of x t) as [i'|]; [|discriminate].
    injection H as <-. destruct (IH i' eq_refl). cbn. split; [lia|assumption].
Qed.

Lemma index_of_None (x : R) (vec : list R) :
  index_of x vec = None <-> ~ In x vec.
Proof.
  induction vec as [|y t IH]; [cbn; tauto|].
  cbn [index_of In]. unfold Reqb.
  destruct (Req_dec_T x y) as [->|Hne].
  - split; [discriminate|tauto].
  - destruct (index_of x t) as [i'|].
    + split; [discriminate|]. intros H. exfalso. apply H. right.
      destruct IH as [_ IH]. destruct (In_dec Req_dec_T x t) as [Hin|Hnin];
        [exact Hin|]. discriminate (IH Hnin).
    + split; [|reflexivity]. intros _ [E|Hin]; [congruence|].
      now apply (proj1 IH).
Qed.

Lemma NoDup_nth_inj (vec : list R) (i j : nat) :
  NoDup vec -> (i < length vec)%nat -> (j < length vec)%nat ->
  nth i vec 0 = nth j vec 0 -> i = j.
Proof.
  intros Hnd Hi Hj E. rewrite (NoDup_nth vec 0) in Hnd.
  apply Hnd; assumption.
Qed.

Lemma index_of_nth (vec : list R) (i : nat) :
  NoDup vec -> (i < length vec)%nat -> index_of (nth i vec 0) vec = Some i.
Proof.
  intros Hnd Hi.
  destruct (index_of (nth i vec 0) vec) as [k|] eqn:E.
  - destruct (index_of_Some _ _ _ E) as [Hk Hnth].
    f_equal. now apply (NoDup_nth_inj vec).
  - apply index_of_None in E. exfalso. apply E. now apply nth_In.
Qed.

Lemma argwhere_eq_index (x : R) (vec : list R) :
  NoDup vec ->
  forall s, np.where_from (fun e => Reqb x e) s vec =
            match index_of x vec with
            | Some i => [(s + Z.of_nat i)%Z]
            | None => []
            end.
Proof.
  induction 1 as [|y t Hy Hnd IH]; intros s; [reflexivity|].
  cbn [np.where_from index_of].
  destruct (Req_dec_T x y) as [->|Hne].
  - assert (Ht : np.where_from (fun e => Reqb y e) (s + 1) t = []).
    { apply where_from_nil. intros z Hz. apply Reqb_false. congruence. }
    rewrite !Reqb_true by reflexivity. rewrite Ht. f_equal. lia.
  - rewrite !Reqb_false by exact Hne.
    rewrite IH. destruct (index_of x t) as [i|]; [|reflexivity].
    cbn [option_map]. f_equal. lia.
Qed.

(** ** One row of the table *)

Lemma assign_at_drop {A : Type} (x y : R) (envec pavec : list R) (v : A)
  (g : list (list A)) :
  NoDup envec -> NoDup pavec ->
  index_of x envec = None \/ index_of y pavec = None ->
  assign_at (argwhere_eq x envec) (argwhere_eq y pavec) v g = Ok g.
Proof.
  intros He Hp Hnone. unfold assign_at, argwhere_eq, np.where_.
  rewrite (argwhere_eq_index x envec He), (argwhere_eq_index y pavec Hp).
  destruct (index_of x envec) as [i|], (index_of y pavec) as [j|];
    try reflexivity.
  destruct Hnone; discriminate.
Qed.

Lemma assign_at_cell {A : Type} (x y : R) (envec pavec : list R) (v : A)
  (g : list (list A)) (i j : nat) :
  NoDup envec -> NoDup pavec ->
  has_shape g (length envec) (length pavec) ->
  index_of x envec = Some i -> index_of y pavec = Some j ->
  assign_at (argwhere_eq x envec) (argwhere_eq y pavec) v g
  = Ok (set_cell g i j v).
Proof.
  intros He Hp Hg Hi Hj. unfold assign_at, argwhere_eq, np.where_.
  rewrite (argwhere_eq_index x envec He), (argwhere_eq_index y pavec Hp).
  rewrite Hi, Hj. cbn [broadcast_index length Nat.eqb combine bind foldM fst snd].
  rewrite !Z.add_0_l.
  destruct (index_of_Some _ _ _ Hi) as [Hi' _].
  destruct (index_of_Some _ _ _ Hj) as [Hj' _].
  now rewrite (setitem2_set_cell g _ _ i j v Hg Hi' Hj').
Qed.

Lemma assign_row_drop (envec pavec : list R) (g : grids) (r : maprow) :
  NoDup envec -> NoDup pavec ->
  ~ In (col_E r) envec \/ ~ In (col_pa r) pavec ->
  assign_row envec pavec g r = Ok g.
Proof.
  intros He Hp Hnot.
  assert (Hnone : index_of (col_E r) envec = None
                  \/ index_of (col_pa r) pavec = None).
  { destruct Hnot as [H|H]; [left|right]; now apply index_of_None. }
  unfold assign_row.
  rewrite !(assign_at_drop _ _ envec pavec _ _ He Hp Hnone). cbn [bind].
  now destruct g.
Qed.

Lemma assign_row_cell (envec pavec : list R) (g : grids) (r : maprow)
  (i j : nat) :
  NoDup envec -> NoDup pavec ->
  grids_shape g (length envec) (length pavec) ->
  index_of (col_E r) envec = Some i -> index_of (col_pa r) pavec = Some j ->
  assign_row envec pavec g r =
  Ok {| Einit := set_cell (Einit g) i j (col_E r);
        Efinal := set_cell (Efinal g) i j (col_Ef r);
        xfinal := set_cell (xfinal g) i j (col_x r);
        vinit := set_cell (vinit g) i j (col_v r) |}.
Proof.
  intros He Hp (H1 & H2 & H3 & H4) Hi Hj. unfold assign_row.
  rewrite (assign_at_cell _ _ envec pavec _ _ i j He Hp H1 Hi Hj).
  rewrite (assign_at_cell _ _ envec pavec _ _ i j He Hp H2 Hi Hj).
  rewrite (assign_at_cell _ _ envec pavec _ _ i j He Hp H3 Hi Hj).
  rewrite (assign_at_cell _ _ envec pavec _ _ i j He Hp H4 Hi Hj).
  reflexivity.
Qed.

Lemma last_match_snoc (pre : list maprow) (r : maprow) (e pa : R) :
  last_match (pre ++ [r]) e pa =
  if row_matches e pa r then Some r else last_match pre e pa.
Proof.
  unfold last_match. rewrite rev_app_distr. reflexivity.
Qed.

Lemma cell_holds_ext (g g' : grids) (i j : nat) (o : option maprow) :
  cell 0 (Einit g') i j = cell 0 (Einit g) i j ->
  cell 0 (Efinal g') i j = cell 0 (Efinal g) i j ->
  cell vzero (xfinal g') i j = cell vzero (xfinal g) i j ->
  cell vzero (vinit g') i j = cell vzero (vinit g) i j ->
  cell_holds g i j o -> cell_holds g' i j o.
Proof.
  intros E1 E2 E3 E4. unfold cell_holds. rewrite E1, E2, E3, E4. tauto.
Qed.

Lemma row_matches_iff (envec pavec : list R) (r : maprow) (i0 j0 i j : nat) :
  NoDup envec -> NoDup pavec ->
  index_of (col_E r) envec = Some i0 -> index_of (col_pa r) pavec = Some j0 ->
  (i < length envec)%nat -> (j < length pavec)%nat ->
  row_matches (nth i envec 0) (nth j pavec 0) r = ((i0 =? i)%nat && (j0 =? j)%nat)%bool.
Proof.
  intros He Hp Hi0 Hj0 Hi Hj.
  destruct (index_of_Some _ _ _ Hi0) as [Hi0' Ei].
  destruct (index_of_Some _ _ _ Hj0) as [Hj0' Ej].
  unfold row_matches.
  destruct (Nat.eqb_spec i0 i) as [<-|Hni].
  - rewrite (Reqb_true _ _ (eq_sym Ei)). cbn [andb].
    destruct (Nat.eqb_spec j0 j) as [<-|Hnj].
    + now rewrite (Reqb_true _ _ (eq_sym Ej)).
    + apply Reqb_false. intros E. apply Hnj.
      apply (NoDup_nth_inj pavec); try assumption. congruence.
  - rewrite Reqb_false; [reflexivity|]. intros E. apply Hni.
    apply (NoDup_nth_inj envec); try assumption. congruence.
Qed.

Lemma assign_row_inv (envec pavec : list R) (pre : list maprow) (g : grids)
  (r : maprow) :
  NoDup envec -> NoDup pavec ->
  grids_inv envec pavec pre g ->
  exists g', assign_row envec pavec g r = Ok g' /\
             grids_inv envec pavec (pre ++ [r]) g'.
Proof.
  intros He Hp [Hshape Hcells].
  destruct (index_of (col_E r) envec) as [i0|] eqn:Hi0;
    [destruct (index_of (col_pa r) pavec) as [j0|] eqn:Hj0|].
  - eexists. split; [now apply (assign_row_cell envec pavec g r i0 j0)|].
    destruct Hshape as (H1 & H2 & H3 & H4).
    destruct (index_of_Some _ _ _ Hi0) as [Hi0' _].
    destruct (index_of_Some _ _ _ Hj0) as [Hj0' _].
    split.
    + unfold grids_shape. cbn [Einit Efinal xfinal vinit].
      split; [|split; [|split]]; apply has_shape_set_cell; assumption.
    + intros i j Hi Hj. rewrite last_match_snoc.
      rewrite (row_matches_iff envec pavec r i0 j0 i j) by assumption.
      destruct ((i0 =? i)%nat && (j0 =? j)%nat)%bool eqn:Hm.
      * unfold cell_holds. cbn [Einit Efinal xfinal vinit].
        rewrite (cell_set_cell 0 _ _ _ i0 j0 i j _ H1 Hi0' Hj0'),
                (cell_set_cell 0 _ _ _ i0 j0 i j _ H2 Hi0' Hj0'),
                (cell_set_cell vzero _ _ _ i0 j0 i j _ H3 Hi0' Hj0'),
                (cell_set_cell vzero _ _ _ i0 j0 i j _ H4 Hi0' Hj0').
        rewrite Hm. repeat split; reflexivity.
      * apply (cell_holds_ext g); cbn [Einit Efinal xfinal vinit].
        -- rewrite (cell_set_cell 0 _ _ _ i0 j0 i j _ H1 Hi0' Hj0').
           now rewrite Hm.
        -- rewrite (cell_set_cell 0 _ _ _ i0 j0 i j _ H2 Hi0' Hj0').
           now rewrite Hm.
        -- rewrite (cell_set_cell vzero _ _ _ i0 j0 i j _ H3 Hi0' Hj0').
           now rewrite Hm.
        -- rewrite (cell_set_cell vzero _ _ _ i0 j0 i j _ H4 Hi0' Hj0').
           now rewrite Hm.
        -- now apply Hcells.
  - exists g. apply index_of_None in Hj0.
    split; [apply assign_row_drop; auto|].
    split; [exact Hshape|].
    intros i j Hi Hj. rewrite last_match_snoc.
    assert (Hm : row_matches (nth i envec 0) (nth j pavec 0) r = false).
    { unfold row_matches. apply andb_false_iff. right.
      apply Reqb_false. intros E. apply Hj0. rewrite E. now apply nth_In. }
    rewrite Hm. now apply Hcells.
  - exists g. apply index_of_None in Hi0.
    split; [apply assign_row_drop; auto|].
    split; [exact Hshape|].
    intros i j Hi Hj. rewrite last_match_snoc.
    assert (Hm : row_matches (nth i envec 0) (nth j pavec 0) r = false).
    { unfold row_matches. apply andb_false_iff. left.
      apply Reqb_false. intros E. apply Hi0. rewrite E. now apply nth_In. }
    rewrite Hm. now apply Hcells.
Qed.

Lemma assign_rows_inv (envec pavec : list R) (rest : list maprow) :
  NoDup envec -> NoDup pavec ->
  forall (pre : list maprow) (g : grids),
    grids_inv envec pavec pre g ->
    exists g', foldM (assign_row envec pavec) rest g = Ok g' /\
               grids_inv envec pavec (pre ++ rest) g'.
Proof.
  intros He Hp. induction rest as [|r rest IH]; intros pre g Hinv.
  - exists g. rewrite app_nil_r. split; [reflexivity|exact Hinv].
  - destruct (assign_row_inv envec pavec pre g r He Hp Hinv) as (g1 & Hstep & Hinv1).
    destruct (IH (pre ++ [r]) g1 Hinv1) as (g' & Hfold & Hinv').
    exists g'. cbn [foldM]. rewrite Hstep. cbn [bind].
    split; [exact Hfold|]. now rewrite <- app_assoc in Hinv'.
Qed.

(** ** parse_map_file *)

Lemma has_shape_zeros2 {A : Type} (z : A) (n m : nat) :
  has_shape (zeros2 z n m) n m.
Proof.
  unfold zeros2. split; [apply repeat_length|].
  apply Forall_forall. intros row Hrow.
  apply repeat_spec in Hrow. subst row. apply repeat_length.
Qed.

Lemma cell_zeros2 {A : Type} (z : A) (n m i j : nat) :
  cell z (zeros2 z n m) i j = z.
Proof.
  unfold cell, zeros2.
  assert (Hrow : nth i (repeat (repeat z m) n) [] = repeat z m
                 \/ nth i (repeat (repeat z m) n) [] = []).
  { revert i. induction n as [|n IH]; intros [|i]; cbn; auto. }
  destruct Hrow as [-> | ->].
  - apply nth_repeat.
  - now destruct j.
Qed.

Lemma last_match_present (res : list maprow) (r : maprow) :
  In r res ->
  exists r', last_match res (col_E r) (col_pa r) = Some r' /\ In r' res /\
             col_E r' = col_E r /\ col_pa r' = col_pa r.
Proof.
  intros Hr. unfold last_match.
  destruct (find (row_matches (col_E r) (col_pa r)) (rev res)) as [r'|] eqn:E.
  - apply find_some in E. destruct E as [Hin Hm].
    exists r'. split; [reflexivity|]. split; [now apply in_rev|].
    unfold row_matches, Reqb in Hm.
    destruct (Req_dec_T (col_E r') (col_E r)); [|discriminate].
    destruct (Req_dec_T (col_pa r') (col_pa r)); [|discriminate].
    now split.
  - exfalso. pose proof (find_none _ _ E r (proj1 (in_rev res r) Hr)) as Hm.
    unfold row_matches in Hm. rewrite !Reqb_true in Hm by reflexivity.
    discriminate.
Qed.

Lemma parse_map_file_short (sourcepos : np.vec3) (res : list maprow) :
  (length res < 2)%nat -> parse_map_file sourcepos res = Raise IndexError.
Proof.
  intros H. unfold parse_map_file.
  destruct (Nat.ltb_spec (length res) 2); [reflexivity|lia].
Qed.

Lemma parse_map_file_rows (sourcepos : np.vec3) (res : list maprow) :
  (2 <= length res)%nat ->
  parse_map_file sourcepos res
  = (let pavec := unique.sort (unique.unique (map col_pa res)) in
     let envec := unique.sort (unique.unique (map col_E res)) in
     let n := length envec in
     let m := length pavec in
     let g0 := {| Einit := zeros2 0 n m; Efinal := zeros2 0 n m;
                  xfinal := zeros2 vzero n m; vinit := zeros2 vzero n m |} in
     g <- foldM (assign_row envec pavec) res g0 ;;
     Ok {| position := sourcepos; energies := envec; angles := pavec;
           init_E := Einit g; final_E := Efinal g;
           final_x := xfinal g; init_v := vinit g |}).
Proof.
  intros H. unfold parse_map_file.
  destruct (Nat.ltb_spec (length res) 2); [lia|reflexivity].
Qed.

(** C9 (what the code does): for a table of one row or none,
    [parse_map_file] raises [IndexError] and builds no grid.  For a table of
    two rows or more it returns a flux map whose grid vectors are the sorted
    distinct energies and pitch angles of the table and whose four grids have
    the shape of the grid.  Every row of the table has exactly one cell, the
    one whose grid energy and grid pitch angle equal the values of the row
    (so that no row of the table is dropped); every cell holds the values of
    the row written last into it, which is a row of its energy and pitch
    angle (the row itself when no other row has them), and a cell without a
    row keeps its zeros.  The step of the loop, for the grid vectors of the
    table and a row whose energy or pitch angle is not among them, leaves the
    grids as they are and raises nothing. *)
Theorem parse_map_file_cells (sourcepos : np.vec3) (res : list maprow) :
  let envec := unique.unique (map col_E res) in
  let pavec := unique.unique (map col_pa res) in
  ((length res < 2)%nat -> parse_map_file sourcepos res = Raise IndexError) /\
  ((2 <= length res)%nat ->
   exists fm,
    parse_map_file sourcepos res = Ok fm /\
    position fm = sourcepos /\ energies fm = envec /\ angles fm = pavec /\
    grids_shape (grids_of fm) (length envec) (length pavec) /\
    (forall r, In r res ->
       exists i j, (i < length envec)%nat /\ (j < length pavec)%nat /\
         forall i' j', (i' < length envec)%nat -> (j' < length pavec)%nat ->
           (nth i' envec 0 = col_E r /\ nth j' pavec 0 = col_pa r
            <-> i' = i /\ j' = j)) /\
    (forall i j, (i < length envec)%nat -> (j < length pavec)%nat ->
       cell_holds (grids_of fm) i j
                  (last_match res (nth i envec 0) (nth j pavec 0))) /\
    (forall r, In r res ->
       exists r', last_match res (col_E r) (col_pa r) = Some r' /\ In r' res /\
                  col_E r' = col_E r /\ col_pa r' = col_pa r) /\
    (forall r, In r res ->
       (forall r2, In r2 res -> col_E r2 = col_E r -> col_pa r2 = col_pa r ->
                   r2 = r) ->
       last_match res (col_E r) (col_pa r) = Some r) /\
    (forall (g : grids) (r : maprow),
       ~ In (col_E r) (energies fm) \/ ~ In (col_pa r) (angles fm) ->
       assign_row (energies fm) (angles fm) g r = Ok g)).
Proof.
  intros envec pavec.
  split; [apply parse_map_file_short|]. intros Hlen.
  assert (Hse : StronglySorted Rlt envec) by apply unique_sorted.
  assert (Hsp : StronglySorted Rlt pavec) by apply unique_sorted.
  pose proof (sorted_NoDup envec Hse) as He.
  pose proof (sorted_NoDup pavec Hsp) as Hp.
  set (n := length envec). set (m := length pavec).
  set (g0 := {| Einit := zeros2 0 n m; Efinal := zeros2 0 n m;
                xfinal := zeros2 vzero n m; vinit := zeros2 vzero n m |}).
  assert (Hinv0 : grids_inv envec pavec [] g0).
  { split.
    - unfold grids_shape. cbn [g0 Einit Efinal xfinal vinit].
      repeat split; apply has_shape_zeros2.
    - intros i j _ _. cbn [last_match rev find cell_holds g0
                            Einit Efinal xfinal vinit].
      repeat split; apply cell_zeros2. }
  destruct (assign_rows_inv envec pavec res He Hp [] g0 Hinv0)
    as (g & Hfold & Hshape & Hcells).
  cbn [app] in Hcells.
  exists {| position := sourcepos; energies := envec; angles := pavec;
            init_E := Einit g; final_E := Efinal g;
            final_x := xfinal g; init_v := vinit g |}.
  split.
  { rewrite (parse_map_file_rows sourcepos res Hlen). cbv zeta.
    change (unique.unique (map col_E res)) with envec.
    change (unique.unique (map col_pa res)) with pavec.
    rewrite (sort_sorted envec Hse), (sort_sorted pavec Hsp).
    fold n m g0. now rewrite Hfold. }
  cbn [position energies angles].
  split; [reflexivity|]. split; [reflexivity|]. split; [reflexivity|].
  split; [exact Hshape|]. split; [|split; [|split; [|split]]].
  - intros r Hr.
    assert (HE : In (col_E r) envec)
      by (apply unique_In, in_map_iff; now exists r).
    assert (HP : In (col_pa r) pavec)
      by (apply unique_In, in_map_iff; now exists r).
    destruct (index_of (col_E r) envec) as [i|] eqn:Hi;
      [|apply index_of_None in Hi; contradiction].
    destruct (index_of (col_pa r) pavec) as [j|] eqn:Hj;
      [|apply index_of_None in Hj; contradiction].
    destruct (index_of_Some _ _ _ Hi) as [Hi' Ei].
    destruct (index_of_Some _ _ _ Hj) as [Hj' Ej].
    exists i, j. split; [exact Hi'|]. split; [exact Hj'|].
    intros i' j' Hi'' Hj''. split.
    + intros [E1 E2]. split.
      * apply (NoDup_nth_inj envec); try assumption. congruence.
      * apply (NoDup_nth_inj pavec); try assumption. congruence.
    + intros [-> ->]. now split.
  - intros i j Hi Hj. specialize (Hcells i j Hi Hj).
    destruct (last_match res (nth i envec 0) (nth j pavec 0)); exact Hcells.
  - intros r Hr. now apply last_match_present.
  - intros r Hr Honly.
    destruct (last_match_present res r Hr) as (r' & Hl & Hin & E1 & E2).
    rewrite Hl. f_equal. now apply Honly.
  - intros g' r Hnot. apply assign_row_drop; assumption.
Qed.

Lemma parse_map_file_cells_witness :
  parse_map_file (4, 0, 0) [row_a] = Raise IndexError /\
  exists fm,
    parse_map_file (4, 0, 0) table_ab = Ok fm /\
    energies fm = unique.unique (map col_E table_ab) /\
    last_match table_ab (col_E row_a) (col_pa row_a) = Some row_a.
Proof.
  split.
  - apply (parse_map_file_cells (4, 0, 0) [row_a]). cbn [length]. lia.
  - destruct (proj2 (parse_map_file_cells (4, 0, 0) table_ab))
      as (fm & Hparse & _ & Hen & _ & _ & _ & _ & _ & Hlast & _);
      [cbn [table_ab length]; lia|].
    exists fm. split; [exact Hparse|]. split; [exact Hen|].
    apply Hlast; [now left|].
    intros r2 [<- | [<- | []]] HE HP; [reflexivity|].
    cbn in HE. lra.
Defined.

(** Two calls with the mass of the script give [511 * 1847 ^ 2]. *)
Lemma mc2_after_two_calls :
  ptm_postprocessor.get_mc2 (after_calls "" 5e-6 752.0 5.0 1847.0 2)
  = 511 * 1847 * 1847 /\
  ptm_postprocessor.get_mc2 (after_calls "" 5e-6 752.0 5.0 1847.0 2)
  <> 511 * 1847.
Proof.
  rewrite get_mc2_after_calls. split; lra.
Qed.

(** * Further properties *)

(** ** find_runs: the ranges *)

Lemma transitions_scan (l : list bool) :
  forall (p : bool) (i : nat),
    let T := np.where_from (fun d => (d =? 1)%Z) (Z.of_nat i)
               (map Z.abs (np.diffZ (bitZ p :: map bitZ l ++ [0%Z]))) in
    if p then forall s, Z.of_nat s :: T
                        = flatten_pairs (map zpair (scan_runs (Some s) i l))
    else T = flatten_pairs (map zpair (scan_runs None i l)).
Proof.
  induction l as [|b t IH]; intros p i T.
  - subst T. destruct p; [intros s|]; reflexivity.
  - subst T. cbn [map app]. rewrite diffZ_cons2. cbn [map np.where_from].
    replace (Z.of_nat i + 1)%Z with (Z.of_nat (S i)) by lia.
    pose proof (IH b (S i)) as HT. cbv zeta in HT.
    destruct p, b; cbn [bitZ Z.sub Z.abs Z.eqb Z.opp Z.add Z.pos_sub
                        scan_runs] in *.
    + intros s. apply HT.
    + intros s. cbn [map flatten_pairs flat_map zpair fst snd app].
      fold (flatten_pairs (map zpair (scan_runs None (S i) t))).
      now rewrite HT.
    + apply HT.
    + exact HT.
Qed.

Lemma find_runs_scan (invec : list bool) (value : bool) :
  find_runs invec value
  = Ok (map zpair (scan_runs None 0 (map (fun b => Bool.eqb b value) invec))).
Proof.
  unfold find_runs, np.where_.
  replace (map (fun b => if Bool.eqb b value then 1%Z else 0%Z) invec)
    with (map bitZ (map (fun b => Bool.eqb b value) invec))
    by (rewrite map_map; reflexivity).
  pose proof (transitions_scan (map (fun b => Bool.eqb b value) invec) false 0)
    as HT.
  cbv zeta in HT. change (Z.of_nat 0) with 0%Z in HT.
  change ([0%Z] ++ ?x) with (bitZ false :: x).
  rewrite HT. apply reshape2_flatten.
Qed.

Lemma scan_runs_cover (l : list bool) :
  forall (open : option nat) (i k : nat),
    match open with Some s => (s <= i)%nat | None => True end ->
    ((exists s e, In (s, e) (scan_runs open i l) /\ (s <= k < e)%nat) <->
     (match open with
      | Some s => (s <= k < i)%nat
      | None => False
      end \/ ((i <= k)%nat /\ nth (k - i) l false = true))).
Proof.
  induction l as [|b t IH]; intros open i k Hopen.
  - cbn [scan_runs]. destruct open as [s0|].
    + split.
      * intros (s & e & [E|[]] & Hk). injection E as <- <-. now left.
      * intros [Hk|[_ Hk]]; [|now destruct (k - i)%nat].
        exists s0, i. split; [now left|exact Hk].
    + split; [intros (s & e & [] & _)|].
      intros [[]|[_ Hk]]. now destruct (k - i)%nat.
  - assert (Hnth : forall c, (S i <= k)%nat ->
               (nth (k - i) (c :: t) false = nth (k - S i) t false)).
    { intros c Hk. replace (k - i)%nat with (S (k - S i)) by lia. reflexivity. }
    destruct b; cbn [scan_runs].
    + destruct open as [s0|].
      * rewrite IH by lia. split.
        -- intros [Hk|[Hk Hn]].
           ++ destruct (Nat.eq_dec k i) as [->|Hne].
              ** right. split; [lia|]. now rewrite Nat.sub_diag.
              ** left. lia.
           ++ right. split; [lia|]. now rewrite Hnth.
        -- intros [Hk|[Hk Hn]]; [left; lia|].
           destruct (Nat.eq_dec k i) as [->|Hne]; [left; lia|].
           right. split; [lia|]. now rewrite <- (Hnth true) by lia.
      * rewrite IH by lia. split.
        -- intros [Hk|[Hk Hn]].
           ++ right. assert (k = i) by lia. subst k.
              split; [lia|]. now rewrite Nat.sub_diag.
           ++ right. split; [lia|]. now rewrite Hnth.
        -- intros [[]|[Hk Hn]].
           destruct (Nat.eq_dec k i) as [->|Hne]; [left; lia|].
           right. split; [lia|]. now rewrite <- (Hnth true) by lia.
    + destruct open as [s0|].
      * split.
        -- intros (s & e & [E|Hin] & Hk).
           ++ injection E as <- <-. now left.
           ++ assert (Hex : exists s e, In (s, e) (scan_runs None (S i) t)
                                        /\ (s <= k < e)%nat) by eauto.
              apply IH in Hex; [|exact I]. destruct Hex as [[]|[Hk' Hn]].
              right. split; [lia|]. now rewrite Hnth.
        -- intros [Hk|[Hk Hn]].
           ++ exists s0, i. split; [now left|exact Hk].
           ++ destruct (Nat.eq_dec k i) as [->|Hne].
              { rewrite Nat.sub_diag in Hn. discriminate. }
              destruct (proj2 (IH None (S i) k I)) as (s & e & Hin & Hse).
              { right. split; [lia|]. now rewrite <- (Hnth false) by lia. }
              exists s, e. split; [now right|exact Hse].
      * rewrite IH by exact I. split.
        -- intros [[]|[Hk Hn]]. right. split; [lia|]. now rewrite Hnth.
        -- intros [[]|[Hk Hn]].
           destruct (Nat.eq_dec k i) as [->|Hne].
           { rewrite Nat.sub_diag in Hn. discriminate. }
           right. split; [lia|]. now rewrite <- (Hnth false) by lia.
Qed.

Lemma separated_weaken (lo lo' : nat) (ps : list (nat * nat)) :
  (lo' <= lo)%nat -> separated lo ps -> separated lo' ps.
Proof.
  destruct ps as [|[s e] r]; [trivial|].
  cbn. intros Hlo (H1 & H2 & H3). repeat split; [lia|exact H2|exact H3].
Qed.

Lemma scan_runs_separated (l : list bool) :
  forall (open : option nat) (i : nat),
    match open with Some s => (s < i)%nat | None => True end ->
    separated (match open with Some s => s | None => i end)
              (scan_runs open i l) /\
    Forall (fun p => (snd p <= i + length l)%nat) (scan_runs open i l).
Proof.
  induction l as [|b t IH]; intros open i Hopen.
  - cbn [scan_runs]. destruct open as [s0|].
    + split; [cbn; lia|]. constructor; [cbn; lia|constructor].
    + split; [exact I|constructor].
  - destruct b; cbn [scan_runs length].
    + destruct open as [s0|].
      * destruct (IH (Some s0) (S i)) as [Hs Hf]; [lia|].
        split; [exact Hs|]. eapply Forall_impl; [|exact Hf]. cbn. intros; lia.
      * destruct (IH (Some i) (S i)) as [Hs Hf]; [lia|].
        split; [exact Hs|]. eapply Forall_impl; [|exact Hf]. cbn. intros; lia.
    + destruct open as [s0|].
      * destruct (IH None (S i) I) as [Hs Hf].
        split.
        -- cbn [separated]. repeat split; [lia|exact Hopen|exact Hs].
        -- constructor; [cbn; lia|].
           eapply Forall_impl; [|exact Hf]. cbn. intros; lia.
      * destruct (IH None (S i) I) as [Hs Hf].
        split; [apply (separated_weaken (S i)); [lia|exact Hs]|].
        eapply Forall_impl; [|exact Hf]. cbn. intros; lia.
Qed.

(** X1: [find_runs] never raises.  Its ranges [(start, end)] are half-open,
    not empty, in increasing order with a gap between two of them, and end
    within the vector; an index lies in one of them exactly when the element
    there equals [value]. *)
Theorem find_runs_ranges (invec : list bool) (value : bool) :
  exists rs : list (nat * nat),
    find_runs invec value = Ok (map zpair rs) /\
    separated 0 rs /\
    Forall (fun p => (snd p <= length invec)%nat) rs /\
    forall k : nat,
      (exists s e, In (s, e) rs /\ (s <= k < e)%nat) <->
      ((k < length invec)%nat /\ nth k invec (negb value) = value).
Proof.
  exists (scan_runs None 0 (map (fun b => Bool.eqb b value) invec)).
  split; [apply find_runs_scan|].
  destruct (scan_runs_separated (map (fun b => Bool.eqb b value) invec) None 0 I)
    as [Hsep Hend].
  rewrite length_map in Hend. cbn [Nat.add] in Hend.
  split; [exact Hsep|]. split; [exact Hend|].
  intros k. rewrite scan_runs_cover by exact I. rewrite Nat.sub_0_r.
  assert (Hnth : nth k (map (fun b => Bool.eqb b value) invec) false
                 = Bool.eqb (nth k invec (negb value)) value).
  { replace false with ((fun b => Bool.eqb b value) (negb value))
      by (now destruct value).
    apply (map_nth (fun b => Bool.eqb b value)). }
  rewrite Hnth. split.
  - intros [[]|[_ Hk]]. apply eqb_prop in Hk. split; [|exact Hk].
    destruct (Nat.lt_ge_cases k (length invec)) as [Hlt|Hge]; [exact Hlt|].
    rewrite nth_overflow in Hk by exact Hge. now destruct value.
  - intros [_ Hk]. right. split; [lia|]. rewrite Hk. apply eqb_reflx.
Qed.

(** ** cutoffs: the lower cutoff and the order of the results *)

Lemma where_from_head {A : Type} (p : A -> bool) (d : A) (l : list A) :
  forall (s i : Z) (rest : list Z),
    np.where_from p s l = i :: rest ->
    exists m : nat,
      i = (s + Z.of_nat m)%Z /\ (m < length l)%nat /\
      p (nth m l d) = true /\
      forall j, (j < m)%nat -> p (nth j l d) = false.
Proof.
  induction l as [|x l IH]; intros s i rest H; [discriminate|].
  cbn [np.where_from] in H. destruct (p x) eqn:Hp.
  - injection H as <- _. exists O. repeat split; [lia|cbn; lia|exact Hp|].
    intros j Hj. lia.
  - destruct (IH _ _ _ H) as (m & -> & Hm & Hpm & Hlow).
    exists (S m). repeat split; [lia|cbn; lia|exact Hpm|].
    intros [|j] Hj; [exact Hp|]. apply Hlow. lia.
Qed.

Lemma nonzero_head (allow : list R) (i : Z) (rest : list Z) :
  np.nonzero allow = i :: rest ->
  exists i0 : nat,
    i = Z.of_nat i0 /\ (i0 < length allow)%nat /\ nth i0 allow 0 <> 0 /\
    forall j, (j < i0)%nat -> nth j allow 0 = 0.
Proof.
  intros H. unfold np.nonzero, np.where_ in H.
  destruct (where_from_head _ 0 _ _ _ _ H) as (m & -> & Hm & Hpm & Hlow).
  exists m. split; [lia|]. split; [exact Hm|]. split.
  - intros E. rewrite (Reqb_true _ _ E) in Hpm. discriminate.
  - intros j Hj. specialize (Hlow j Hj). unfold Reqb in Hlow.
    destruct (Req_dec_T (nth j allow 0) 0); [assumption|discriminate].
Qed.

Lemma cutoffs_low_index (getRigidity fromRigidity : R -> R) (fm : fluxmap) :
  (length (energies fm) <= length (final_x fm))%nat ->
  (exists a, In a (allow_of fm) /\ a <> 0) ->
  exists cd i0,
    cutoffs getRigidity fromRigidity fm = Ok (cd, allow_of fm) /\
    (i0 < length (energies fm))%nat /\
    ec_low cd = nth i0 (en_mev_of fm) 0 /\
    nth i0 (allow_of fm) 0 <> 0 /\
    forall j, (j < i0)%nat -> nth j (allow_of fm) 0 = 0.
Proof.
  intros Hrows Hnz. rewrite (cutoffs_eval _ _ fm Hrows).
  apply nonzero_nonempty in Hnz.
  destruct (np.nonzero (allow_of fm)) as [|i rest] eqn:E; [congruence|].
  destruct (nonzero_head _ _ _ E) as (i0 & -> & Hi0 & Hne & Hlow).
  rewrite (length_allow_of fm Hrows) in Hi0.
  eexists. exists i0. split; [reflexivity|]. split; [exact Hi0|].
  split; [cbn [ec_low cutoffs_value]; now rewrite Nat2Z.id|].
  split; assumption.
Qed.

(** X2: when [cutoffs] returns, [ec_low] is the energy (in MeV) of the first
    grid energy with a non-zero access fraction: every energy below it has
    no access at all. *)
Theorem cutoffs_ec_low_first_access (getRigidity fromRigidity : R -> R)
  (fm : fluxmap) :
  (length (energies fm) <= length (final_x fm))%nat ->
  (exists a, In a (allow_of fm) /\ a <> 0) ->
  exists cd i0,
    cutoffs getRigidity fromRigidity fm = Ok (cd, allow_of fm) /\
    (i0 < length (energies fm))%nat /\
    ec_low cd = nth i0 (en_mev_of fm) 0 /\
    nth i0 (allow_of fm) 0 <> 0 /\
    forall j, (j < i0)%nat -> nth j (allow_of fm) 0 = 0.
Proof. exact (cutoffs_low_index getRigidity fromRigidity fm). Qed.

Lemma cutoffs_ec_low_first_access_witness :
  exists cd i0,
    cutoffs (Proton.getRigidity Proton.mc2_p) (Proton.fromRigidity Proton.mc2_p)
            fm_runs = Ok (cd, allow_of fm_runs) /\
    ec_low cd = nth i0 (en_mev_of fm_runs) 0 /\
    nth i0 (allow_of fm_runs) 0 <> 0.
Proof.
  destruct (cutoffs_ec_low_first_access
              (Proton.getRigidity Proton.mc2_p)
              (Proton.fromRigidity Proton.mc2_p)
              fm_runs fm_runs_rows fm_runs_nonzero)
    as (cd & i0 & Hcd & _ & Hlow & Hne & _).
  exists cd, i0. repeat split; assumption.
Defined.

Lemma access_count_row_le (row : list np.vec3) :
  (access_count_row row <= length row)%nat.
Proof.
  unfold access_count_row, np.count_true.
  etransitivity; [apply filter_length_le|]. now rewrite length_map.
Qed.

Lemma sum_access_counts_le (rws : list (list np.vec3)) (m : nat) :
  Forall (fun row => length row = m) rws ->
  (list_sum (map access_count_row rws) <= length rws * m)%nat.
Proof.
  induction 1 as [|row rws Hrow _ IH]; [cbn; lia|].
  change (list_sum (map access_count_row (row :: rws)))
    with (access_count_row row + list_sum (map access_count_row rws))%nat.
  pose proof (access_count_row_le row). cbn [length Nat.mul]. lia.
Qed.

Lemma N_accessible_le_total (fm : fluxmap) :
  has_shape (final_x fm) (length (energies fm)) (length (angles fm)) ->
  (N_accessible fm <= N_total fm)%nat.
Proof.
  intros [Hlen Hrows]. unfold N_accessible, N_total.
  rewrite firstn_all2 by lia. rewrite <- Hlen.
  now apply sum_access_counts_le.
Qed.

Lemma allow_of_bounds (fm : fluxmap) :
  has_shape (final_x fm) (length (energies fm)) (length (angles fm)) ->
  angles fm <> [] ->
  Forall (fun a => 0 <= a <= 1) (allow_of fm).
Proof.
  intros [Hlen Hrows] Hang. unfold allow_of. rewrite firstn_all2 by lia.
  assert (Hn : 0 < INR (length (angles fm))).
  { apply lt_0_INR. destruct (angles fm); [congruence|cbn; lia]. }
  apply Forall_forall. intros a Ha. apply in_map_iff in Ha.
  destruct Ha as (row & <- & Hin).
  rewrite Forall_forall in Hrows. pose proof (Hrows row Hin) as Hl.
  pose proof (access_count_row_le row) as Hle. rewrite Hl in Hle.
  apply le_INR in Hle. pose proof (pos_INR (access_count_row row)).
  split.
  - apply Rmult_le_pos; [assumption|]. left. now apply Rinv_0_lt_compat.
  - apply (Rmult_le_reg_r (INR (length (angles fm)))); [exact Hn|].
    unfold Rdiv. rewrite Rmult_assoc, Rinv_l by lra. lra.
Qed.

Lemma ascending_div (l : list R) :
  (forall i j, (i <= j < length l)%nat -> nth i l 0 <= nth j l 0) ->
  forall i j, (i <= j < length l)%nat ->
    nth i (map (fun e => e / 1e3) l) 0 <= nth j (map (fun e => e / 1e3) l) 0.
Proof.
  intros Hasc i j Hij.
  set (f := fun e : R => e / 1e3).
  assert (Hf : f 0 = 0) by (unfold f; lra).
  assert (Hn : forall n, nth n (map f l) 0 = f (nth n l 0)).
  { intros n. rewrite <- Hf at 1. apply map_nth. }
  rewrite !Hn. specialize (Hasc i j Hij). unfold f. lra.
Qed.

(** X3: for a flux map whose [final_x] has the shape of the grid, with
    ascending energies and a rigidity that does not decrease with the energy,
    [cutoffs] returns cutoffs in order: [ec_low <= ec_high] and
    [r_low <= r_eff <= r_high]; every entry of the access vector it returns
    is a fraction between 0 and 1. *)
Theorem cutoffs_results_ordered (getRigidity fromRigidity : R -> R)
  (fm : fluxmap) :
  has_shape (final_x fm) (length (energies fm)) (length (angles fm)) ->
  angles fm <> [] ->
  (exists a, In a (allow_of fm) /\ a <> 0) ->
  (forall i j, (i <= j < length (energies fm))%nat ->
               nth i (energies fm) 0 <= nth j (energies fm) 0) ->
  (forall x y, x <= y -> In x (en_mev_of fm) -> In y (en_mev_of fm) ->
               getRigidity x <= getRigidity y) ->
  exists cd,
    cutoffs getRigidity fromRigidity fm = Ok (cd, allow_of fm) /\
    ec_low cd <= ec_high cd /\
    r_low cd <= r_eff cd <= r_high cd /\
    Forall (fun a => 0 <= a <= 1) (allow_of fm).
Proof.
  intros Hshape Hang Hnz Hasc Hmono.
  assert (Hrows : (length (energies fm) <= length (final_x fm))%nat)
    by (destruct Hshape; lia).
  destruct (cutoffs_low_index getRigidity fromRigidity fm Hrows Hnz)
    as (cd & i0 & Hcd & Hi0 & Hlow & Hne & Hzero).
  destruct (cutoffs_ok getRigidity fromRigidity fm Hrows Hnz)
    as (cd' & Hcd' & Hhigh).
  rewrite Hcd in Hcd'. injection Hcd' as <-.
  exists cd. split; [exact Hcd|].
  pose proof (length_allow_of fm Hrows) as Hla.
  assert (Hlen : length (en_mev_of fm) = length (energies fm))
    by (unfold en_mev_of; apply length_map).
  assert (Hk : exists k, (i0 <= k < length (energies fm))%nat /\
                         ec_high cd = nth k (en_mev_of fm) 0).
  { rewrite Hhigh. unfold ec_high_of.
    destruct (run_starts false 0 (full_access_of fm)) as [|r rs] eqn:Hrs.
    - exists (length (energies fm) - 1)%nat. split; [lia|].
      rewrite <- Hlen. clear. induction (en_mev_of fm) as [|x l IH]; [reflexivity|].
      destruct l as [|y l]; [reflexivity|].
      change (last (x :: y :: l) 0) with (last (y :: l) 0). rewrite IH.
      cbn [length]. now rewrite !Nat.sub_succ, !Nat.sub_0_r.
    - set (k := last (r :: rs) 0%nat).
      assert (Hrun : run_start (full_access_of fm) k).
      { apply run_starts_iff. rewrite Hrs. apply last_In. discriminate. }
      pose proof (run_start_lt _ _ Hrun) as Hklt.
      unfold full_access_of in Hklt. rewrite length_map in Hklt.
      exists k. split; [|reflexivity]. split; [|lia].
      destruct (Nat.le_gt_cases i0 k) as [Hle|Hgt]; [exact Hle|].
      destruct Hrun as [Hfa _]. rewrite nth_full_access in Hfa by lia.
      rewrite (Hzero k Hgt) in Hfa. rewrite Rgtb_false in Hfa by lra.
      discriminate. }
  destruct Hk as (k & Hik & Hkhigh).
  assert (Hec : ec_low cd <= ec_high cd).
  { rewrite Hlow, Hkhigh. unfold en_mev_of. apply ascending_div; [exact Hasc|lia]. }
  split; [exact Hec|].
  split; [|now apply allow_of_bounds].
  destruct (cutoffs_r_eff_accessible getRigidity fromRigidity fm cd _
              Hrows Hang Hcd) as (Heff & Hrl & Hrh & _).
  assert (Hr : r_low cd <= r_high cd).
  { rewrite Hrl, Hrh. apply Hmono; [exact Hec| |].
    - rewrite Hlow. apply nth_In. lia.
    - rewrite Hkhigh. apply nth_In. lia. }
  pose proof (N_accessible_le_total fm Hshape) as Hle. apply le_INR in Hle.
  pose proof (pos_INR (N_accessible fm)) as Hpos.
  assert (Htot : 0 < INR (N_total fm)).
  { apply lt_0_INR. unfold N_total.
    destruct (angles fm); [congruence|]. cbn [length]. nia. }
  set (t := INR (N_accessible fm) / INR (N_total fm)).
  assert (Ht : 0 <= t <= 1).
  { subst t. split.
    - apply Rmult_le_pos; [exact Hpos|]. left. now apply Rinv_0_lt_compat.
    - apply (Rmult_le_reg_r (INR (N_total fm))); [exact Htot|].
      unfold Rdiv. rewrite Rmult_assoc, Rinv_l by lra. lra. }
  replace (r_eff cd) with (r_low cd + (r_high cd - r_low cd) * t)
    by (rewrite Heff; subst t; unfold Rdiv; ring).
  nra.
Qed.

Lemma Proton_getRigidity_mono (m x y : R) :
  0 <= m -> 0 <= x -> x <= y ->
  Proton.getRigidity m x <= Proton.getRigidity m y.
Proof.
  intros Hm Hx Hxy. unfold Proton.getRigidity, Proton.q.
  apply Rmult_le_compat_r; [lra|]. apply sqrt_le_1; nra.
Qed.

Lemma cutoffs_results_ordered_witness :
  exists cd,
    cutoffs (Proton.getRigidity Proton.mc2_p) (Proton.fromRigidity Proton.mc2_p)
            fm_runs = Ok (cd, allow_of fm_runs) /\
    ec_low cd <= ec_high cd /\
    r_low cd <= r_eff cd <= r_high cd.
Proof.
  destruct (cutoffs_results_ordered
              (Proton.getRigidity Proton.mc2_p)
              (Proton.fromRigidity Proton.mc2_p) fm_runs)
    as (cd & Hcd & Hec & Hr & _).
  - split; [reflexivity|]. repeat constructor.
  - discriminate.
  - exact fm_runs_nonzero.
  - intros i j Hij. cbn [fm_runs energies length] in *.
    destruct i as [|[|[|i]]], j as [|[|[|j]]]; cbn [nth]; try lia; lra.
  - intros x y Hxy Hx _. apply Proton_getRigidity_mono;
      [unfold Proton.mc2_p; lra| |exact Hxy].
    cbn in Hx. destruct Hx as [<-|[<-|[<-|[]]]]; lra.
  - exists cd. repeat split; tauto.
Defined.

(** ** energy_to_flux and calculate_electron_flux: kinds, density, parameters *)

(** X4: for a kind in ASCII characters and arguments that keep every
    divisor away from zero (a positive mass energy and characteristic
    energy, kappa above 1.5, an initial energy that is not negative),
    [energy_to_flux] returns a flux exactly for the kinds that read "maxwell"
    or "kappa" once put in lower case; for every other kind it raises the
    exception that names the kind as it was given.  A kind that reads "kappa"
    in lower case gives the result of "kappa". *)
Theorem energy_to_flux_kinds (sp : special) (ei ef ec n mc2 : R)
  (kind : string) (kap : R) (energyFlux : bool) :
  ascii_only kind = true ->
  0 < mc2 -> 0 < ec -> 1.5 < kap -> 0 <= ei ->
  ((lower kind = "maxwell"%string \/ lower kind = "kappa"%string) <->
   exists j, energy_to_flux sp ei ef ec n mc2 kind kap energyFlux = Ok j) /\
  (lower kind <> "maxwell"%string -> lower kind <> "kappa"%string ->
   energy_to_flux sp ei ef ec n mc2 kind kap energyFlux
   = Raise (unsupported_kind kind)) /\
  (lower kind = "kappa"%string ->
   energy_to_flux sp ei ef ec n mc2 kind kap energyFlux
   = energy_to_flux sp ei ef ec n mc2 "kappa" kap energyFlux).
Proof.
  intros _ _ _ _ _. unfold energy_to_flux.
  destruct (String.eqb_spec (lower kind) "maxwell") as [Hm|Hm].
  - split; [split; [intros _; cbn [bind]; eexists; reflexivity|now left]|].
    split; [congruence|]. intros Hk. rewrite Hk in Hm. discriminate.
  - destruct (String.eqb_spec (lower kind) "kappa") as [Hk|Hk].
    + split; [split; [intros _; cbn [bind]; eexists; reflexivity|now right]|].
      split; [congruence|]. intros _. reflexivity.
    + split; [split|].
      * intros [H|H]; contradiction.
      * cbn [bind]. intros [j Hj]. discriminate.
      * split; [reflexivity|contradiction].
Qed.

Lemma energy_to_flux_kinds_witness :
  energy_to_flux sp_table 1 1 1 1 511.0 "Kappa" 2.5 false
  = energy_to_flux sp_table 1 1 1 1 511.0 "kappa" 2.5 false /\
  energy_to_flux sp_table 1 1 1 1 511.0 "kaprel" 2.5 false
  = Raise (unsupported_kind "kaprel").
Proof.
  destruct (energy_to_flux_kinds sp_table 1 1 1 1 511.0 "Kappa" 2.5 false)
    as (_ & _ & Hk); [reflexivity|lra|lra|lra|lra|].
  destruct (energy_to_flux_kinds sp_table 1 1 1 1 511.0 "kaprel" 2.5 false)
    as (_ & Hr & _); [reflexivity|lra|lra|lra|lra|].
  split; [apply Hk; reflexivity|apply Hr; discriminate].
Defined.

(** X5: whenever [energy_to_flux] returns, its result is proportional to the
    density [n] (for the kappa and for the Maxwell-Juttner distribution), and
    with [energyFlux=True] it is the number flux times the final energy. *)
Theorem energy_to_flux_density_linear (sp : special) (ei ef ec n mc2 : R)
  (kind : string) (kap : R) (c j : R) :
  energy_to_flux sp ei ef ec n mc2 kind kap false = Ok j ->
  energy_to_flux sp ei ef ec (c * n) mc2 kind kap false = Ok (c * j) /\
  energy_to_flux sp ei ef ec n mc2 kind kap true = Ok (j * ef).
Proof.
  unfold energy_to_flux.
  destruct (String.eqb (lower kind) "maxwell").
  - cbn [bind]. intros H. injection H as <-. split; [|reflexivity].
    apply f_equal. change (ckm * (ckm * (ckm * 1))) with (ckm ^ 3).
    unfold Rdiv. ring.
  - destruct (String.eqb (lower kind) "kappa"); [|discriminate].
    cbn [bind]. intros H. injection H as <-. split; [|reflexivity].
    apply f_equal. unfold Rdiv. ring.
Qed.

Lemma energy_to_flux_density_linear_witness :
  energy_to_flux sp_table 1 1 1 (3 * 1) 511.0 "kappa" 2.5 false
  = Ok (3 * kappa_flux sp_table 1 1 1 1 511.0 2.5).
Proof.
  apply (energy_to_flux_density_linear sp_table 1 1 1 1 511.0 "kappa" 2.5 3).
  apply energy_to_flux_kappa.
Defined.

(** X6: [calculate_electron_flux] raises [IndexError] when it is given
    fewer than six parameters; with six or more, of two kappa distributions
    (both kappa above 1.5, both characteristic energies positive) and an
    initial energy that is not negative, it returns, and reads the first six
    only. *)
Theorem calculate_electron_flux_parameters (sp : special) (ei ef : R)
  (x : list R) :
  ((length x < 6)%nat -> calculate_electron_flux sp ei ef x = Raise IndexError) /\
  ((6 <= length x)%nat ->
   0 <= ei ->
   1.5 < nth 0 x 0 -> 0 < nth 1 x 0 -> 1.5 < nth 3 x 0 -> 0 < nth 4 x 0 ->
   exists j, calculate_electron_flux sp ei ef x = Ok j /\
             calculate_electron_flux sp ei ef (firstn 6 x) = Ok j).
Proof.
  split.
  - intros Hlen.
    destruct x as [|k1 [|E1 [|n1 [|k2 [|E2 [|n2 t]]]]]];
      try reflexivity. cbn [length] in Hlen. lia.
  - intros Hlen _ _ _ _ _.
    destruct x as [|k1 [|E1 [|n1 [|k2 [|E2 [|n2 t]]]]]];
      cbn [length] in Hlen; try lia.
    set (x := k1 :: E1 :: n1 :: k2 :: E2 :: n2 :: t).
    assert (Hx : (6 <= length x)%nat) by (cbn; lia).
    assert (H0 : np.getitem x 0 = Ok k1)
      by (apply (getitem_nat_ok x 0 0); lia).
    assert (H1 : np.getitem x 1 = Ok E1)
      by (apply (getitem_nat_ok x 1 0); lia).
    assert (H2 : np.getitem x 2 = Ok n1)
      by (apply (getitem_nat_ok x 2 0); lia).
    assert (H3 : np.getitem x 3 = Ok k2)
      by (apply (getitem_nat_ok x 3 0); lia).
    assert (H4 : np.getitem x 4 = Ok E2)
      by (apply (getitem_nat_ok x 4 0); lia).
    assert (H5 : np.getitem x 5 = Ok n2)
      by (apply (getitem_nat_ok x 5 0); lia).
    unfold calculate_electron_flux. rewrite H0, H1, H2, H3, H4, H5.
    cbn [bind]. eexists. split; reflexivity.
Qed.

Lemma calculate_electron_flux_parameters_witness :
  calculate_electron_flux sp_table 1 1 [2.5; 1; 1; 2.5; 1] = Raise IndexError /\
  exists j, calculate_electron_flux sp_table 1 1 [2.5; 1; 1; 2.5; 1; 1; 7] = Ok j /\
            calculate_electron_flux sp_table 1 1 [2.5; 1; 1; 2.5; 1; 1] = Ok j.
Proof.
  split.
  - apply (calculate_electron_flux_parameters sp_table 1 1 [2.5; 1; 1; 2.5; 1]).
    cbn. lia.
  - apply (calculate_electron_flux_parameters sp_table 1 1
             [2.5; 1; 1; 2.5; 1; 1; 7]); cbn [nth]; try lra.
    cbn. lia.
Defined.

(** X7: the mixture does not depend on the order of its two components. *)
Theorem calculate_electron_flux_components_swap (sp : special)
  (ei ef k1 E1 n1 k2 E2 n2 : R) :
  calculate_electron_flux sp ei ef [k1; E1; n1; k2; E2; n2]
  = calculate_electron_flux sp ei ef [k2; E2; n2; k1; E1; n1].
Proof.
  unfold calculate_electron_flux.
  change (np.getitem [k1; E1; n1; k2; E2; n2] 0) with (Ok k1).
  change (np.getitem [k1; E1; n1; k2; E2; n2] 1) with (Ok E1).
  change (np.getitem [k1; E1; n1; k2; E2; n2] 2) with (Ok n1).
  change (np.getitem [k1; E1; n1; k2; E2; n2] 3) with (Ok k2).
  change (np.getitem [k1; E1; n1; k2; E2; n2] 4) with (Ok E2).
  change (np.getitem [k1; E1; n1; k2; E2; n2] 5) with (Ok n2).
  change (np.getitem [k2; E2; n2; k1; E1; n1] 0) with (Ok k2).
  change (np.getitem [k2; E2; n2; k1; E1; n1] 1) with (Ok E2).
  change (np.getitem [k2; E2; n2; k1; E1; n1] 2) with (Ok n2).
  change (np.getitem [k2; E2; n2; k1; E1; n1] 3) with (Ok k1).
  change (np.getitem [k2; E2; n2; k1; E1; n1] 4) with (Ok E1).
  change (np.getitem [k2; E2; n2; k1; E1; n1] 5) with (Ok n1).
  cbn [bind]. apply f_equal. ring.
Qed.

(** ** Pitch-angle integration: the method of the postprocessor, scaling,
       short vectors *)

Lemma length_upto_last {A : Type} (l : list A) :
  length (upto_last l) = (length l - 1)%nat.
Proof.
  unfold upto_last. induction l as [|x l IH]; [reflexivity|].
  destruct l as [|y l]; [reflexivity|].
  change (removelast (x :: y :: l)) with (x :: removelast (y :: l)).
  cbn [length] in *. rewrite IH. lia.
Qed.

Lemma length_diff (Q : list R) : length (diff Q) = (length Q - 1)%nat.
Proof.
  unfold diff, from1. rewrite length_map2, length_tl, length_upto_last. lia.
Qed.

Lemma length_weights (coef Q : list R) :
  length coef = (length Q - 1)%nat ->
  length (map2 Rmult coef
            (map (fun s => sin (0.5 * s)) (map2 Rplus (from1 Q) (upto_last Q))))
  = (length Q - 1)%nat.
Proof.
  intros H. unfold from1.
  rewrite length_map2, length_map, length_map2, length_tl, length_upto_last.
  lia.
Qed.

(** X8: when the number of pitch angles is the second dimension of the flux
    array, the method [calculate_omnidirectional_flux] of the postprocessor
    returns what the function of the same name of [ptm_tools] returns with
    its default arguments (angles in degrees, [symmetry=True]). *)
Theorem pp_calculate_omnidirectional_flux_is_symmetric_tools
  (pav : list R) (flux : ndarray2) :
  length pav = shape1 flux ->
  pp_calculate_omnidirectional_flux pav flux
  = calculate_omnidirectional_flux pav flux true true.
Proof.
  intros Hlen. unfold calculate_omnidirectional_flux.
  rewrite <- Hlen, Nat.eqb_refl, orb_true_r. cbn [negb].
  unfold pp_calculate_omnidirectional_flux, einsum_i_ji_checked.
  cbn [shape1 rows].
  assert (HQ : map (fun a => a * cls_dtor) pav = map deg2rad pav).
  { apply map_ext. intros a. unfold cls_dtor, deg2rad. lra. }
  rewrite HQ. set (Q := map deg2rad pav).
  assert (Hcoef : map (fun d => 4.0 * PI * d) (diff Q)
                  = map (fun c => c * 2.0) (map (fun d => 2.0 * PI * d) (diff Q))).
  { rewrite map_map. apply map_ext. intros d. lra. }
  rewrite Hcoef.
  rewrite length_weights
    by (now rewrite !length_map, length_diff).
  subst Q. rewrite length_map, Hlen, Nat.eqb_refl.
  reflexivity.
Qed.

Lemma pp_calculate_omnidirectional_flux_is_symmetric_tools_witness :
  pp_calculate_omnidirectional_flux pav_3 (transpose diffJ_3x2)
  = calculate_omnidirectional_flux pav_3 (transpose diffJ_3x2) true true.
Proof.
  apply pp_calculate_omnidirectional_flux_is_symmetric_tools. reflexivity.
Defined.

Lemma map_from1 {A B : Type} (f : A -> B) (l : list A) :
  from1 (map f l) = map f (from1 l).
Proof. now destruct l. Qed.

Lemma map_upto_last {A B : Type} (f : A -> B) (l : list A) :
  upto_last (map f l) = map f (upto_last l).
Proof.
  unfold upto_last. induction l as [|x l IH]; [reflexivity|].
  destruct l as [|y l]; [reflexivity|].
  change (removelast (map f (x :: y :: l)))
    with (f x :: removelast (map f (y :: l))).
  now rewrite IH.
Qed.

Lemma map2_plus_scale (c : R) (l1 l2 : list R) :
  map2 Rplus (map (fun x => c * x) l1) (map (fun x => c * x) l2)
  = map (fun x => c * x) (map2 Rplus l1 l2).
Proof.
  revert l2. induction l1 as [|a l1 IH]; intros [|b l2]; try reflexivity.
  cbn [map map2]. rewrite IH. f_equal. ring.
Qed.

Lemma sum_map2_scale_r (c : R) (w f : list R) :
  np.sum (map2 Rmult w (map (fun x => c * x) f)) = c * np.sum (map2 Rmult w f).
Proof.
  revert f. induction w as [|a w IH]; intros [|x f];
    cbn [map map2 np.sum fold_right]; try ring.
  fold (np.sum (map2 Rmult w (map (fun x => c * x) f))).
  fold (np.sum (map2 Rmult w f)). rewrite IH. ring.
Qed.

Lemma map_half_scale (c : R) (l : list R) :
  map (fun s => 0.5 * s) (map (fun x => c * x) l)
  = map (fun x => c * x) (map (fun s => 0.5 * s) l).
Proof. rewrite !map_map. apply map_ext. intros x. ring. Qed.

Lemma omni_reduce_scale (c : R) (Q : list R) (flux : list (list R))
  (symmetry : bool) :
  omni_reduce Q (map (map (fun x => c * x)) flux) symmetry
  = map (fun o => c * o) (omni_reduce Q flux symmetry).
Proof.
  unfold omni_reduce, einsum_i_ji. rewrite !map_map.
  apply map_ext. intros row.
  rewrite map_from1, map_upto_last, map2_plus_scale, map_half_scale.
  apply sum_map2_scale_r.
Qed.

Lemma nth_scale (c : R) (row : list R) (j : nat) :
  nth j (map (fun x => c * x) row) 0 = c * nth j row 0.
Proof.
  set (f := fun x : R => c * x).
  assert (Hf : f 0 = 0) by (unfold f; ring).
  rewrite <- Hf at 1. apply (map_nth f).
Qed.

Lemma transpose_scale (c : R) (a : ndarray2) :
  transpose (scale_array c a) = scale_array c (transpose a).
Proof.
  unfold transpose, scale_array. cbn [shape0 shape1 rows]. f_equal.
  rewrite !map_map. apply map_ext. intros j.
  rewrite !map_map. apply map_ext. intros row. apply nth_scale.
Qed.

(** X9: the integration is homogeneous in the flux: with every entry of the
    flux array multiplied by [c], the call fails as before or returns the
    former result multiplied by [c], energy by energy. *)
Theorem calculate_omnidirectional_flux_scale (c : R) (pav : list R)
  (diffJ : ndarray2) (angleDegrees symmetry : bool) :
  calculate_omnidirectional_flux pav (scale_array c diffJ) angleDegrees symmetry
  = match calculate_omnidirectional_flux pav diffJ angleDegrees symmetry with
    | Ok omni => Ok (map (fun o => c * o) omni)
    | Raise e => Raise e
    end.
Proof.
  unfold calculate_omnidirectional_flux.
  change (shape0 (scale_array c diffJ)) with (shape0 diffJ).
  change (shape1 (scale_array c diffJ)) with (shape1 diffJ).
  destruct (negb _); [reflexivity|].
  destruct (length pav =? shape1 diffJ)%nat.
  - cbn [scale_array rows]. now rewrite omni_reduce_scale.
  - rewrite transpose_scale. cbn [scale_array rows].
    now rewrite omni_reduce_scale.
Qed.

(** X10: with fewer than two pitch angles there is no bin to integrate over:
    when the call returns, every omnidirectional flux it returns is zero. *)
Theorem calculate_omnidirectional_flux_short (pav : list R) (diffJ : ndarray2)
  (angleDegrees symmetry : bool) (omni : list R) :
  (length pav <= 1)%nat ->
  calculate_omnidirectional_flux pav diffJ angleDegrees symmetry = Ok omni ->
  Forall (fun o => o = 0) omni.
Proof.
  intros Hlen. unfold calculate_omnidirectional_flux.
  destruct (negb _); [discriminate|].
  intros H. injection H as <-.
  set (Q := if angleDegrees then map deg2rad pav else pav).
  assert (HQ : (length Q <= 1)%nat)
    by (subst Q; destruct angleDegrees; [rewrite length_map|]; exact Hlen).
  assert (Hd : diff Q = []).
  { pose proof (length_diff Q) as Hl.
    destruct (diff Q); [reflexivity|cbn in Hl; lia]. }
  unfold omni_reduce, einsum_i_ji. rewrite Hd. cbn [map].
  replace (if symmetry then [] else []) with (@nil R) by now destruct symmetry.
  cbn [map2]. apply Forall_forall. intros o Ho.
  apply in_map_iff in Ho. destruct Ho as (frow & <- & _). reflexivity.
Qed.

Lemma calculate_omnidirectional_flux_short_witness :
  Forall (fun o => o = 0) [0; 0].
Proof.
  apply (calculate_omnidirectional_flux_short [45]
           {| shape0 := 2; shape1 := 1; rows := [[3]; [4]] |} true true).
  - cbn. lia.
  - reflexivity.
Defined.

(** ** seconds_to_hhmmss *)

Lemma Int_part_bounds (r : R) : IZR (Int_part r) <= r < IZR (Int_part r) + 1.
Proof. destruct (base_Int_part r). lra. Qed.

Lemma Int_part_IZR (z : Z) : Int_part (IZR z) = z.
Proof. symmetry. apply Int_part_spec. lra. Qed.

Lemma int_of_float_IZR (z : Z) : int_of_float (IZR z) = z.
Proof.
  unfold int_of_float. destruct (Rle_dec 0 (IZR z)).
  - apply Int_part_IZR.
  - rewrite <- opp_IZR, Int_part_IZR. lia.
Qed.

Lemma Int_part_range (r : R) (lo hi : Z) :
  IZR lo <= r < IZR hi -> (lo <= Int_part r < hi)%Z.
Proof.
  intros [Hlo Hhi]. pose proof (Int_part_bounds r) as [H1 H2]. split.
  - assert (H : IZR lo < IZR (Int_part r + 1)) by (rewrite plus_IZR; lra).
    apply lt_IZR in H. lia.
  - apply lt_IZR. lra.
Qed.

(** X11: for a time of the day, [0 <= tsec < 86400] (the range of the
    docstring), [seconds_to_hhmmss] returns hours between 0 and 23 and
    minutes and seconds between 0 and 59, with [3600 hh + 60 mm + ss] equal
    to the whole seconds of [tsec] (its floor). *)
Theorem seconds_to_hhmmss_decomposes (tsec : R) :
  0 <= tsec < 86400 ->
  let '(hh, mm, ss) := seconds_to_hhmmss tsec in
  (0 <= hh < 24)%Z /\ (0 <= mm < 60)%Z /\ (0 <= ss < 60)%Z /\
  (3600 * hh + 60 * mm + ss)%Z = Int_part tsec.
Proof.
  intros Hday. unfold seconds_to_hhmmss, floordiv.
  set (H := Int_part (tsec / 3600)).
  set (M := Int_part ((tsec - 3600 * IZR H) / 60)).
  rewrite !int_of_float_IZR.
  pose proof (Int_part_bounds (tsec / 3600)) as HH. fold H in HH.
  assert (Hr1 : 0 <= tsec - 3600 * IZR H < 3600) by lra.
  pose proof (Int_part_bounds ((tsec - 3600 * IZR H) / 60)) as HM. fold M in HM.
  assert (HMr : (0 <= M < 60)%Z).
  { apply Int_part_range. simpl IZR. lra. }
  set (r2 := tsec - 3600 * IZR H - 60 * IZR M).
  assert (Hr2 : 0 <= r2 < 60) by (subst r2; lra).
  assert (HS : int_of_float r2 = Int_part r2).
  { unfold int_of_float. destruct (Rle_dec 0 r2); [reflexivity|lra]. }
  rewrite HS.
  assert (HSr : (0 <= Int_part r2 < 60)%Z).
  { apply Int_part_range. simpl IZR. lra. }
  split; [apply Int_part_range; simpl IZR; lra|].
  split; [exact HMr|]. split; [exact HSr|].
  apply Int_part_spec.
  pose proof (Int_part_bounds r2) as Hb.
  rewrite !plus_IZR, !mult_IZR. subst r2. lra.
Qed.

Lemma seconds_to_hhmmss_decomposes_witness :
  let '(hh, mm, ss) := seconds_to_hhmmss 3725 in
  (3600 * hh + 60 * mm + ss)%Z = Int_part 3725 /\ (0 <= hh < 24)%Z.
Proof.
  assert (Hday : 0 <= 3725 < 86400) by lra.
  pose proof (seconds_to_hhmmss_decomposes 3725 Hday) as H.
  destruct (seconds_to_hhmmss 3725) as [[hh mm] ss].
  destruct H as (Hh & _ & _ & Hsum). split; [exact Hsum|exact Hh].
Defined.

(** ** The attributes of the postprocessor *)

Lemma reachable_attributes (self : ptm_postprocessor.t) :
  reachable self ->
  ptm_postprocessor.set_defaults self = false ->
  exists e nd k,
    ptm_postprocessor.ec self = Some e /\
    ptm_postprocessor.n self = Some nd /\
    ptm_postprocessor.kappa self = Some k.
Proof.
  induction 1 as [dir|self nd e k m Hr IH|sp self fm Hr IH]; intros Hd.
  - discriminate.
  - cbn. do 3 eexists. repeat split; reflexivity.
  - unfold ptm_postprocessor.calculate_flux in *. cbn [fst] in *.
    destruct (ptm_postprocessor.set_defaults self) eqn:E.
    + cbn. do 3 eexists. repeat split; reflexivity.
    + now apply IH.
Qed.

(** X12: on every instance that a program can hold (a new postprocessor after
    any calls of [set_source_parameters] and [calculate_flux]) whose source
    parameters, once set, are those of a kappa distribution (positive
    characteristic energy and mass energy, kappa above 1.5),
    [calculate_flux] finds its attributes and returns a flux array; it leaves
    an instance whose parameters were set as it is, and a second call on the
    instance it leaves returns the same array and the same instance. *)
Theorem calculate_flux_attributes_set (sp : special)
  (self : ptm_postprocessor.t) (fm : fluxmap) :
  reachable self -> positive_source self ->
  let self' := fst (ptm_postprocessor.calculate_flux sp self fm) in
  (exists j, snd (ptm_postprocessor.calculate_flux sp self fm) = Ok j) /\
  (ptm_postprocessor.set_defaults self = false -> self' = self) /\
  ptm_postprocessor.calculate_flux sp self' fm
  = (self', snd (ptm_postprocessor.calculate_flux sp self fm)).
Proof.
  intros Hr _ self'.
  pose proof (reachable_attributes self Hr) as Hattr.
  subst self'. unfold ptm_postprocessor.calculate_flux.
  destruct (ptm_postprocessor.set_defaults self) eqn:E; cbn [fst snd].
  - split; [cbn; eexists; reflexivity|]. split; [discriminate|reflexivity].
  - destruct (Hattr eq_refl) as (e & nd & k & He & Hn & Hk).
    rewrite E, He, Hn, Hk. cbn. split; [eexists; reflexivity|].
    split; reflexivity.
Qed.

Lemma calculate_flux_attributes_set_witness :
  exists j,
    snd (ptm_postprocessor.calculate_flux sp_table
           (ptm_postprocessor.init "") fm_dark) = Ok j.
Proof.
  exact (proj1 (calculate_flux_attributes_set sp_table
                  (ptm_postprocessor.init "") fm_dark (reach_init "") I)).
Defined.

(** ** parse_map_file: the grid vectors and the order of the rows *)

Lemma parse_map_file_eval (sourcepos : np.vec3) (res : list maprow) :
  (2 <= length res)%nat ->
  let envec := unique.unique (map col_E res) in
  let pavec := unique.unique (map col_pa res) in
  exists g,
    parse_map_file sourcepos res
    = Ok {| position := sourcepos; energies := envec; angles := pavec;
            init_E := Einit g; final_E := Efinal g;
            final_x := xfinal g; init_v := vinit g |} /\
    grids_inv envec pavec res g.
Proof.
  intros Hlen envec pavec.
  assert (Hse : StronglySorted Rlt envec) by apply unique_sorted.
  assert (Hsp : StronglySorted Rlt pavec) by apply unique_sorted.
  pose proof (sorted_NoDup envec Hse) as He.
  pose proof (sorted_NoDup pavec Hsp) as Hp.
  set (n := length envec). set (m := length pavec).
  set (g0 := {| Einit := zeros2 0 n m; Efinal := zeros2 0 n m;
                xfinal := zeros2 vzero n m; vinit := zeros2 vzero n m |}).
  assert (Hinv0 : grids_inv envec pavec [] g0).
  { split.
    - unfold grids_shape. cbn [g0 Einit Efinal xfinal vinit].
      repeat split; apply has_shape_zeros2.
    - intros i j _ _. cbn [last_match rev find cell_holds g0
                            Einit Efinal xfinal vinit].
      repeat split; apply cell_zeros2. }
  destruct (assign_rows_inv envec pavec res He Hp [] g0 Hinv0)
    as (g & Hfold & Hinv).
  exists g. split; [|exact Hinv].
  rewrite (parse_map_file_rows sourcepos res Hlen). cbv zeta.
  change (unique.unique (map col_E res)) with envec.
  change (unique.unique (map col_pa res)) with pavec.
  rewrite (sort_sorted envec Hse), (sort_sorted pavec Hsp).
  fold n m g0. now rewrite Hfold.
Qed.

(** X13: for a table of two rows or more, [parse_map_file] returns; the
    grid vectors it returns are strictly ascending, and they hold exactly the
    energies and the pitch angles that occur in the table; the four grids
    have one row for every energy and one column for every pitch angle. *)
Theorem parse_map_file_grid_vectors (sourcepos : np.vec3) (res : list maprow) :
  (2 <= length res)%nat ->
  exists fm,
    parse_map_file sourcepos res = Ok fm /\
    StronglySorted Rlt (energies fm) /\ StronglySorted Rlt (angles fm) /\
    (forall e, In e (energies fm) <-> exists r, In r res /\ col_E r = e) /\
    (forall a, In a (angles fm) <-> exists r, In r res /\ col_pa r = a) /\
    grids_shape (grids_of fm) (length (energies fm)) (length (angles fm)).
Proof.
  intros Hlen.
  destruct (parse_map_file_eval sourcepos res Hlen)
    as (g & Hparse & Hshape & _).
  eexists. split; [exact Hparse|]. cbn [energies angles].
  split; [apply unique_sorted|]. split; [apply unique_sorted|].
  split; [|split].
  - intros e. rewrite unique_In, in_map_iff. split.
    + intros (r & E & Hr). now exists r.
    + intros (r & Hr & E). now exists r.
  - intros a. rewrite unique_In, in_map_iff. split.
    + intros (r & E & Hr). now exists r.
    + intros (r & Hr & E). now exists r.
  - exact Hshape.
Qed.

Lemma parse_map_file_grid_vectors_witness :
  exists fm,
    parse_map_file (4, 0, 0) table_ab = Ok fm /\
    StronglySorted Rlt (energies fm) /\ StronglySorted Rlt (angles fm).
Proof.
  destruct (parse_map_file_grid_vectors (4, 0, 0) table_ab)
    as (fm & Hparse & He & Ha & _); [cbn [table_ab length]; lia|].
  now exists fm.
Defined.

Lemma sorted_same_elements (l1 l2 : list R) :
  StronglySorted Rlt l1 -> StronglySorted Rlt l2 ->
  (forall x, In x l1 <-> In x l2) -> l1 = l2.
Proof.
  intros H1. revert l2. induction H1 as [|x l1 Hs1 IH Hx]; intros l2 H2 Hin.
  - destruct l2 as [|y l2]; [reflexivity|].
    exfalso. apply (proj2 (Hin y)). now left.
  - destruct H2 as [|y l2 Hs2 Hy].
    { exfalso. apply (proj1 (Hin x)). now left. }
    rewrite Forall_forall in Hx, Hy.
    assert (Exy : x = y).
    { destruct (proj1 (Hin x) (or_introl eq_refl)) as [E|Hxin]; [now symmetry|].
      destruct (proj2 (Hin y) (or_introl eq_refl)) as [E|Hyin]; [exact E|].
      specialize (Hx y Hyin). specialize (Hy x Hxin). lra. }
    subst y. f_equal. apply IH; [exact Hs2|].
    intros z. split; intros Hz.
    + destruct (proj1 (Hin z) (or_intror Hz)) as [E|Hz2]; [|exact Hz2].
      subst z. specialize (Hx x Hz). lra.
    + destruct (proj2 (Hin z) (or_intror Hz)) as [E|Hz1]; [|exact Hz1].
      subst z. specialize (Hy x Hz). lra.
Qed.

Lemma unique_permutation (l1 l2 : list R) :
  Permutation l1 l2 -> unique.unique l1 = unique.unique l2.
Proof.
  intros Hp. apply sorted_same_elements; try apply unique_sorted.
  intros x. rewrite !unique_In. split; intros Hx.
  - now apply (Permutation_in x Hp).
  - now apply (Permutation_in x (Permutation_sym Hp)).
Qed.

Lemma find_unique_match {A : Type} (f : A -> bool) (l : list A) (r : A) :
  In r l -> f r = true -> (forall y, In y l -> f y = true -> y = r) ->
  find f l = Some r.
Proof.
  intros Hin Hf Huniq.
  destruct (find f l) as [y|] eqn:E.
  - apply find_some in E. destruct E as [Hy Hfy]. f_equal. now apply Huniq.
  - rewrite (find_none _ _ E r Hin) in Hf. discriminate.
Qed.

Lemma last_match_permutation (res res' : list maprow) (e pa : R) :
  Permutation res res' ->
  (forall r1 r2, In r1 res -> In r2 res ->
                 col_E r1 = col_E r2 -> col_pa r1 = col_pa r2 -> r1 = r2) ->
  last_match res e pa = last_match res' e pa.
Proof.
  intros Hp Hdistinct. unfold last_match.
  destruct (find (row_matches e pa) (rev res)) as [r|] eqn:E.
  - apply find_some in E. destruct E as [Hin Hm].
    rewrite <- in_rev in Hin. symmetry. apply find_unique_match.
    + rewrite <- in_rev. now apply (Permutation_in r Hp).
    + exact Hm.
    + intros y Hy Hmy. rewrite <- in_rev in Hy.
      apply (Permutation_in y (Permutation_sym Hp)) in Hy.
      unfold row_matches, Reqb in Hm, Hmy.
      destruct (Req_dec_T (col_E r) e); [|discriminate].
      destruct (Req_dec_T (col_pa r) pa); [|discriminate].
      destruct (Req_dec_T (col_E y) e); [|discriminate].
      destruct (Req_dec_T (col_pa y) pa); [|discriminate].
      apply Hdistinct; try assumption; congruence.
  - destruct (find (row_matches e pa) (rev res')) as [r|] eqn:E';
      [|reflexivity].
    apply find_some in E'. destruct E' as [Hin Hm].
    rewrite <- in_rev in Hin.
    apply (Permutation_in r (Permutation_sym Hp)) in Hin.
    rewrite (find_none _ _ E r) in Hm; [discriminate|].
    now rewrite <- in_rev.
Qed.

Lemma has_shape_ext {A : Type} (d : A) (g g' : list (list A)) (n m : nat) :
  has_shape g n m -> has_shape g' n m ->
  (forall i j, (i < n)%nat -> (j < m)%nat -> cell d g i j = cell d g' i j) ->
  g = g'.
Proof.
  intros Hg Hg' Hcell.
  apply (nth_ext g g' [] []); [destruct Hg, Hg'; congruence|].
  intros i Hi. assert (Hin : (i < n)%nat) by (destruct Hg; lia).
  apply (nth_ext _ _ d d).
  - now rewrite (has_shape_row g n m i Hg Hin), (has_shape_row g' n m i Hg' Hin).
  - intros j Hj. rewrite (has_shape_row g n m i Hg Hin) in Hj.
    now apply Hcell.
Qed.

(** X14: when no two rows of the table have the same energy and pitch angle,
    the result of [parse_map_file], for one position read in the header, does
    not depend on the order of the rows of the table. *)
Theorem parse_map_file_row_order (sourcepos : np.vec3)
  (res res' : list maprow) :
  Permutation res res' ->
  (forall r1 r2, In r1 res -> In r2 res ->
                 col_E r1 = col_E r2 -> col_pa r1 = col_pa r2 -> r1 = r2) ->
  parse_map_file sourcepos res = parse_map_file sourcepos res'.
Proof.
  intros Hp Hdistinct.
  pose proof (Permutation_length Hp) as Hlen.
  destruct (Nat.lt_ge_cases (length res) 2) as [Hshort|Hrows].
  { rewrite !parse_map_file_short by lia. reflexivity. }
  destruct (parse_map_file_eval sourcepos res Hrows) as (g & -> & Hs & Hc).
  destruct (parse_map_file_eval sourcepos res') as (g' & -> & Hs' & Hc');
    [lia|].
  rewrite <- (unique_permutation _ _ (Permutation_map col_E Hp)) in *.
  rewrite <- (unique_permutation _ _ (Permutation_map col_pa Hp)) in *.
  set (envec := unique.unique (map col_E res)) in *.
  set (pavec := unique.unique (map col_pa res)) in *.
  assert (Hsame : forall i j, (i < length envec)%nat -> (j < length pavec)%nat ->
            cell 0 (Einit g) i j = cell 0 (Einit g') i j /\
            cell 0 (Efinal g) i j = cell 0 (Efinal g') i j /\
            cell vzero (xfinal g) i j = cell vzero (xfinal g') i j /\
            cell vzero (vinit g) i j = cell vzero (vinit g') i j).
  { intros i j Hi Hj. specialize (Hc i j Hi Hj). specialize (Hc' i j Hi Hj).
    rewrite <- (last_match_permutation res res' _ _ Hp Hdistinct) in Hc'.
    destruct (last_match res (nth i envec 0) (nth j pavec 0));
      cbn [cell_holds] in Hc, Hc';
      destruct Hc as (H1 & H2 & H3 & H4), Hc' as (H1' & H2' & H3' & H4');
      repeat split; congruence. }
  destruct Hs as (S1 & S2 & S3 & S4), Hs' as (S1' & S2' & S3' & S4').
  f_equal. f_equal.
  - apply (has_shape_ext 0 _ _ _ _ S1 S1'). intros i j Hi Hj.
    apply (Hsame i j Hi Hj).
  - apply (has_shape_ext 0 _ _ _ _ S2 S2'). intros i j Hi Hj.
    apply (Hsame i j Hi Hj).
  - apply (has_shape_ext vzero _ _ _ _ S3 S3'). intros i j Hi Hj.
    apply (Hsame i j Hi Hj).
  - apply (has_shape_ext vzero _ _ _ _ S4 S4'). intros i j Hi Hj.
    apply (Hsame i j Hi Hj).
Qed.

Lemma parse_map_file_row_order_witness :
  parse_map_file (4, 0, 0) [row_a; row_b]
  = parse_map_file (4, 0, 0) [row_b; row_a].
Proof.
  apply parse_map_file_row_order; [apply perm_swap|].
  intros r1 r2 [<-|[<-|[]]] [<-|[<-|[]]] HE HP; try reflexivity;
    cbn in HE; lra.
Defined.

(** ** parse_trajectory_file *)

Section Trajectory.

Variable int_of_string : string -> option Z.
Variable float_of_string : string -> option R.

Notation parse := (traj.parse_trajectory_file int_of_string float_of_string).
Notation tloop := (traj.loop int_of_string float_of_string).
Notation tstep := (traj.step int_of_string float_of_string).
Notation tstore := (traj.store float_of_string).
Notation sblock := (store_block int_of_string float_of_string).
Notation sblocks := (store_blocks int_of_string float_of_string).

Lemma loop_fail (flines : list string) :
  forall idx s e line,
    tstep idx s line = traj.Fail e ->
    tloop idx s (line :: flines) = traj.Fail e.
Proof. intros idx s e line H. cbn [traj.loop]. now rewrite H. Qed.

(** X17: [parse_trajectory_file] needs a file that starts with the line of a
    particle: for lines of ASCII characters, on a file without lines, or
    whose first line does not start with '#' once stripped, it fails with
    [UnboundLocalError]; on a first line '#' without a second token it fails
    with [IndexError], and with a second token that [int] rejects, with
    [ValueError]. *)
Theorem parse_trajectory_file_first_line (flines : list string) :
  Forall (fun l => ascii_only l = true) flines ->
  match flines with
  | [] => parse flines = traj.Fail traj.UnboundLocalError
  | line :: _ =>
      if traj.startswith_hash (traj.strip line) then
        match nth_error (traj.split (traj.strip line)) 1 with
        | None => parse flines = traj.Fail traj.IndexError
        | Some tok =>
            int_of_string tok = None ->
            parse flines = traj.Fail traj.ValueError
        end
      else parse flines = traj.Fail traj.UnboundLocalError
  end.
Proof.
  intros _. destruct flines as [|line rest]; [reflexivity|].
  unfold traj.parse_trajectory_file.
  destruct (traj.startswith_hash (traj.strip line)) eqn:Hh.
  - destruct (nth_error (traj.split (traj.strip line)) 1) as [tok|] eqn:Htok.
    + intros Hint. rewrite (loop_fail rest _ _ traj.ValueError); [reflexivity|].
      unfold traj.step. rewrite Hh. cbn [Nat.eqb negb traj.andThen].
      rewrite Htok. cbn [traj.andThen]. now rewrite Hint.
    + rewrite (loop_fail rest _ _ traj.IndexError); [reflexivity|].
      unfold traj.step. rewrite Hh. cbn [Nat.eqb negb traj.andThen].
      now rewrite Htok.
  - rewrite (loop_fail rest _ _ traj.UnboundLocalError); [reflexivity|].
    unfold traj.step. now rewrite Hh.
Qed.

Lemma blocks_head (flines : list string) :
  forall hdr rows, exists rows' more,
    traj.blocks hdr rows flines = (hdr, rows') :: more.
Proof.
  induction flines as [|line t IH]; intros hdr rows; cbn [traj.blocks].
  - now exists rows, [].
  - destruct (traj.startswith_hash (traj.strip line)).
    + now exists rows, (traj.blocks (traj.split (traj.strip line)) [] t).
    + apply IH.
Qed.

Lemma store_blocks_bad_header (flines : list string) (d : traj.dict)
  (hdr : list string) (rows : list (list string)) :
  sblocks d (traj.blocks hdr rows flines)
  = match nth_error hdr 1 with
    | None => traj.Fail traj.IndexError
    | Some tok =>
        match int_of_string tok with
        | None => traj.Fail traj.ValueError
        | Some _ => sblocks d (traj.blocks hdr rows flines)
        end
    end.
Proof.
  destruct (blocks_head flines hdr rows) as (rows' & more & ->).
  cbn [store_blocks]. unfold store_block. cbn [fst snd].
  destruct (nth_error hdr 1) as [tok|]; [|reflexivity].
  cbn [traj.andThen].
  destruct (int_of_string tok); reflexivity.
Qed.

Lemma loop_blocks (flines : list string) :
  forall (idx : nat) (s : traj.locals) (p : Z) (rows : list (list string))
         (hdr : list string) (tok : string),
    idx <> O ->
    traj.pnum s = Some p -> traj.parr s = Some rows ->
    nth_error hdr 1 = Some tok -> int_of_string tok = Some p ->
    traj.andThen (tloop idx s flines) tstore
    = sblocks (traj.dataDict s) (traj.blocks hdr rows flines).
Proof.
  induction flines as [|line t IH]; intros idx s p rows hdr tok Hidx Hp Hr Ht Hi.
  - cbn [traj.loop traj.andThen traj.blocks store_blocks].
    unfold traj.store, store_block. cbn [fst snd].
    rewrite Hp, Hr, Ht. cbn [traj.local traj.andThen]. rewrite Hi.
    cbn [traj.andThen].
    destruct (traj.np_array float_of_string rows); reflexivity.
  - cbn [traj.loop traj.blocks]. unfold traj.step.
    destruct (traj.startswith_hash (traj.strip line)) eqn:Hh.
    + assert (Hne : negb (idx =? 0)%nat = true)
        by (apply negb_true_iff, Nat.eqb_neq; exact Hidx).
      rewrite Hne. cbn [store_blocks].
      assert (Hstore : tstore s = sblock (traj.dataDict s) (hdr, rows)).
      { unfold traj.store, store_block. cbn [fst snd].
        rewrite Hp, Hr, Ht. cbn [traj.local traj.andThen]. rewrite Hi.
        cbn [traj.andThen].
        destruct (traj.np_array float_of_string rows); reflexivity. }
      rewrite Hstore.
      destruct (sblock (traj.dataDict s) (hdr, rows)) as [d'|e];
        [|reflexivity].
      cbn [traj.andThen].
      rewrite (store_blocks_bad_header t d').
      destruct (nth_error (traj.split (traj.strip line)) 1) as [tok'|] eqn:Ht';
        [|reflexivity].
      cbn [traj.andThen].
      destruct (int_of_string tok') as [p'|] eqn:Hi'; [|reflexivity].
      cbn [traj.andThen].
      exact (IH (S idx)
               {| traj.pnum := Some p'; traj.parr := Some [];
                  traj.dataDict := d' |}
               p' [] _ tok' (Nat.neq_succ_0 idx) eq_refl eq_refl Ht' Hi').
    + rewrite Hr. cbn [traj.local traj.andThen].
      exact (IH (S idx)
               {| traj.pnum := traj.pnum s;
                  traj.parr := Some (rows ++ [traj.split (traj.strip line)]);
                  traj.dataDict := traj.dataDict s |}
               p _ hdr tok (Nat.neq_succ_0 idx) Hp eq_refl Ht Hi).
Qed.

Lemma parse_blocks (line : string) (rest : list string) :
  traj.startswith_hash (traj.strip line) = true ->
  parse (line :: rest)
  = sblocks [] (traj.blocks (traj.split (traj.strip line)) [] rest).
Proof.
  intros Hh. unfold traj.parse_trajectory_file. cbn [traj.loop].
  rewrite (store_blocks_bad_header rest []).
  unfold traj.step. rewrite Hh. cbn [Nat.eqb negb traj.andThen traj.dataDict].
  destruct (nth_error (traj.split (traj.strip line)) 1) as [tok|] eqn:Ht;
    [|reflexivity].
  cbn [traj.andThen].
  destruct (int_of_string tok) as [p|] eqn:Hi; [|reflexivity].
  cbn [traj.andThen].
  exact (loop_blocks rest 1
           {| traj.pnum := Some p; traj.parr := Some [];
              traj.dataDict := [] |}
           p [] _ tok (Nat.neq_succ_0 0) eq_refl eq_refl Ht Hi).
Qed.

Lemma dict_get_set (d : traj.dict) (p k : Z) (arr : list (list R)) :
  traj.dict_get (traj.dict_set d p arr) k
  = if (k =? p)%Z then Some arr else traj.dict_get d k.
Proof.
  induction d as [|[k' v'] d IH]; cbn [traj.dict_set traj.dict_get].
  - reflexivity.
  - destruct (Z.eqb_spec p k') as [->|Hpk]; cbn [traj.dict_get].
    + destruct (Z.eqb_spec k k'); reflexivity.
    + destruct (Z.eqb_spec k k') as [->|Hkk].
      * destruct (Z.eqb_spec k' p); [congruence|reflexivity].
      * exact IH.
Qed.

Lemma store_blocks_lookup (bs : list traj.block) :
  forall (d d' : traj.dict) (k : Z),
    sblocks d bs = traj.Done d' ->
    match find (has_id int_of_string k) (rev bs) with
    | Some b => exists arr, traj.np_array float_of_string (snd b) = traj.Done arr
                            /\ traj.dict_get d' k = Some arr
    | None => traj.dict_get d' k = traj.dict_get d k
    end.
Proof.
  induction bs as [|b bs IH] using rev_ind; intros d d' k H.
  - cbn in H. injection H as <-. reflexivity.
  - assert (Happ : forall l d0,
               sblocks d0 (l ++ [b])
               = traj.andThen (sblocks d0 l) (fun d1 => sblock d1 b)).
    { induction l as [|x l IHl]; intros d0; cbn [app store_blocks].
      - cbn [traj.andThen]. destruct (sblock d0 b); reflexivity.
      - destruct (sblock d0 x); cbn [traj.andThen]; [apply IHl|reflexivity]. }
    rewrite Happ in H.
    destruct (sblocks d bs) as [d1|e] eqn:Hbs; [|discriminate].
    cbn [traj.andThen] in H. specialize (IH d d1 k Hbs).
    rewrite rev_app_distr. cbn [rev app find].
    unfold store_block in H. unfold has_id at 1, traj.block_id.
    destruct (nth_error (fst b) 1) as [tok|]; [|discriminate].
    cbn [traj.andThen] in H.
    destruct (int_of_string tok) as [p|]; [|discriminate].
    cbn [traj.andThen] in H.
    destruct (traj.np_array float_of_string (snd b)) as [arr|] eqn:Harr;
      [|discriminate].
    cbn [traj.andThen] in H. injection H as <-.
    rewrite dict_get_set, (Z.eqb_sym k p).
    destruct (p =? k)%Z.
    + exists arr. now split.
    + exact IH.
Qed.

(** X18: for a file of lines of ASCII characters that starts with the line
    of a particle, when [parse_trajectory_file] returns, its dictionary
    holds, under every particle number, the array of the data lines of the
    last block with that number, and nothing under a number that no block
    has. *)
Theorem parse_trajectory_file_lookup (line : string) (rest : list string)
  (d : traj.dict) (k : Z) :
  Forall (fun l => ascii_only l = true) (line :: rest) ->
  traj.startswith_hash (traj.strip line) = true ->
  parse (line :: rest) = traj.Done d ->
  match find (has_id int_of_string k)
             (rev (traj.blocks (traj.split (traj.strip line)) [] rest)) with
  | Some b => exists arr, traj.np_array float_of_string (snd b) = traj.Done arr
                          /\ traj.dict_get d k = Some arr
  | None => traj.dict_get d k = None
  end.
Proof.
  intros _ Hh Hparse. rewrite (parse_blocks line rest Hh) in Hparse.
  exact (store_blocks_lookup _ [] d k Hparse).
Qed.

End Trajectory.

Lemma parse_trajectory_file_first_line_witness :
  traj.parse_trajectory_file int_digits float_digits ["0 1 2"; "# 1"]%string
  = traj.Fail traj.UnboundLocalError /\
  traj.parse_trajectory_file int_digits float_digits ["# x"; "0 1 2"]%string
  = traj.Fail traj.ValueError.
Proof.
  split.
  - apply (parse_trajectory_file_first_line int_digits float_digits
             ["0 1 2"; "# 1"]%string).
    repeat constructor.
  - apply (parse_trajectory_file_first_line int_digits float_digits
             ["# x"; "0 1 2"]%string).
    + repeat constructor.
    + reflexivity.
Defined.

Lemma parse_traj_lines :
  traj.parse_trajectory_file int_digits float_digits traj_lines
  = traj.Done [(1%Z, [[IZR 0; IZR 1; IZR 2]; [IZR 3; IZR 4; IZR 5]]);
               (2%Z, [[IZR 9; IZR 9; IZR 9]])].
Proof. reflexivity. Qed.

Lemma parse_trajectory_file_lookup_witness :
  traj.startswith_hash (traj.strip "# 1 ") = true /\
  traj.parse_trajectory_file int_digits float_digits traj_lines
  = traj.Done [(1%Z, [[IZR 0; IZR 1; IZR 2]; [IZR 3; IZR 4; IZR 5]]);
               (2%Z, [[IZR 9; IZR 9; IZR 9]])] /\
  exists arr,
    traj.np_array float_digits [["9"; "9"; "9"]]%string = traj.Done arr /\
    traj.dict_get [(1%Z, [[IZR 0; IZR 1; IZR 2]; [IZR 3; IZR 4; IZR 5]]);
                   (2%Z, [[IZR 9; IZR 9; IZR 9]])] 2
    = Some arr.
Proof.
  split; [reflexivity|]. split; [exact parse_traj_lines|].
  assert (Hascii : Forall (fun l => ascii_only l = true) traj_lines)
    by (repeat constructor).
  exact (parse_trajectory_file_lookup int_digits float_digits
           "# 1 "%string (tl traj_lines) _ 2%Z Hascii eq_refl
           parse_traj_lines).
Defined.

(** ** process_run *)

Lemma has_shape_map2_map2 {A B C : Type} (f : A -> B -> C)
  (a : list (list A)) (b : list (list B)) (n m : nat) :
  has_shape a n m -> has_shape b n m ->
  has_shape (map2 (map2 f) a b) n m.
Proof.
  intros [Hla Hra] [Hlb Hrb]. split.
  - rewrite length_map2. lia.
  - clear Hla Hlb. revert b Hrb.
    induction a as [|ra a IH]; intros [|rb b] Hrb; cbn [map2];
      try constructor.
    + rewrite length_map2.
      apply Forall_inv in Hra. apply Forall_inv in Hrb. lia.
    + apply IH; [now apply Forall_inv_tail in Hra
                |now apply Forall_inv_tail in Hrb].
Qed.

Lemma unique_nil (l : list R) : unique.unique l = [] -> l = [].
Proof.
  intros H. destruct l as [|x l]; [reflexivity|].
  assert (Hin : In x (unique.unique (x :: l)))
    by (apply unique_In; now left).
  rewrite H in Hin. destruct Hin.
Qed.

Lemma parse_map_file_shapes (sourcepos : np.vec3) (res : list maprow) :
  (2 <= length res)%nat ->
  exists fm,
    parse_map_file sourcepos res = Ok fm /\
    has_shape (final_E fm) (length (energies fm)) (length (angles fm)) /\
    has_shape (init_E fm) (length (energies fm)) (length (angles fm)) /\
    (length (energies fm) = O -> length (angles fm) = O).
Proof.
  intros Hlen.
  destruct (parse_map_file_eval sourcepos res Hlen) as (g & Hp & Hs & _).
  eexists. split; [exact Hp|].
  cbn [final_E init_E energies angles].
  destruct Hs as (H1 & H2 & _).
  split; [exact H2|]. split; [exact H1|].
  intros H0. apply length_zero_iff_nil in H0.
  apply unique_nil in H0. apply map_eq_nil in H0. now subst res.
Qed.

Lemma calculate_flux_reachable (sp : special) (self : ptm_postprocessor.t)
  (fm : fluxmap) :
  reachable self ->
  let self' := fst (ptm_postprocessor.calculate_flux sp self fm) in
  exists e nd k,
    ptm_postprocessor.ec self' = Some e /\
    ptm_postprocessor.n self' = Some nd /\
    ptm_postprocessor.kappa self' = Some k /\
    snd (ptm_postprocessor.calculate_flux sp self fm)
    = Ok (map2 (map2 (ptm_postprocessor.flux_cell sp
                        (ptm_postprocessor.get_mc2 self') e nd k))
               (final_E fm) (init_E fm)).
Proof.
  intros Hr self'.
  pose proof (reachable_attributes self Hr) as Hattr.
  subst self'. unfold ptm_postprocessor.calculate_flux.
  destruct (ptm_postprocessor.set_defaults self) eqn:E; cbn [fst snd].
  - do 3 eexists. cbn. repeat split; reflexivity.
  - destruct (Hattr eq_refl) as (e & nd & k & He & Hn & Hk).
    exists e, nd, k. rewrite He, Hn, Hk. cbn. repeat split; reflexivity.
Qed.

Lemma pp_omni_grid (pav : list R) (flux : list (list R)) (n m : nat) :
  has_shape flux n m -> length pav = m -> (n = O -> m = O) ->
  exists omni,
    pp_calculate_omnidirectional_flux pav (ram.ndarray flux) = Ok omni.
Proof.
  intros Hs Hpav H0.
  unfold pp_calculate_omnidirectional_flux, einsum_i_ji_checked.
  cbn [shape1 rows ram.ndarray].
  assert (Hm : snd (shape_of flux) = m).
  { destruct (shape_of_has_shape flux n m Hs) as [-> | [Hn _]];
      [reflexivity|].
    destruct Hs as [Hl _]. rewrite Hn in Hl.
    apply length_zero_iff_nil in Hl.
    subst flux. cbn. symmetry. now apply H0. }
  rewrite Hm. set (Q := map (fun a => a * cls_dtor) pav).
  rewrite length_weights by (now rewrite length_map, length_diff).
  subst Q. rewrite length_map, Hpav, Nat.eqb_refl. eexists. reflexivity.
Qed.

Section Runs.

Variable sp : special.
Variable isfile : string -> bool.
Variable read_map : string -> result (np.vec3 * list maprow).
Variable loadtxt : string -> result (list (list R)).

Notation prun := (ram.process_run sp isfile read_map).
Notation pruns := (ram.process_runs sp isfile read_map).

Lemma process_run_found (self : ptm_postprocessor.t) (runid : Z)
  (pos : np.vec3) (res : list maprow) :
  let fname := (ptm_postprocessor.filedir self ++ "/map_"
                ++ ram.format04 runid ++ ".dat")%string in
  reachable self -> positive_source self ->
  isfile fname = true -> read_map fname = Ok (pos, res) ->
  (2 <= length res)%nat ->
  exists fm e nd k,
    parse_map_file pos res = Ok fm /\
    let self' := fst (ptm_postprocessor.calculate_flux sp self fm) in
    ptm_postprocessor.ec self' = Some e /\
    ptm_postprocessor.n self' = Some nd /\
    ptm_postprocessor.kappa self' = Some k /\
    prun self runid
    = (self', Ok [("position", ram.Array3 (final_x fm));
                  ("kappa", ram.Float k);
                  ("n_dens", ram.Float nd);
                  ("e_char", ram.Float e)]%string).
Proof.
  intros fname Hr _ Hfile Hread Hrows.
  destruct (parse_map_file_shapes pos res Hrows)
    as (fm & Hp & HsF & HsI & H0).
  destruct (calculate_flux_reachable sp self fm Hr)
    as (e & nd & k & He & Hn & Hk & Hflux).
  exists fm, e, nd, k. split; [exact Hp|].
  cbv zeta. split; [exact He|]. split; [exact Hn|]. split; [exact Hk|].
  unfold ram.process_run. fold fname. rewrite Hfile, Hread.
  cbn [bind fst snd]. rewrite Hp.
  destruct (ptm_postprocessor.calculate_flux sp self fm) as [self' flux].
  cbn [fst snd] in *. subst flux. cbn [bind].
  destruct (pp_omni_grid (angles fm) _ _ _
              (has_shape_map2_map2
                 (ptm_postprocessor.flux_cell sp
                    (ptm_postprocessor.get_mc2 self') e nd k)
                 _ _ _ _ HsF HsI) eq_refl H0) as (omni & ->).
  cbn [bind]. rewrite Hk, Hn, He. reflexivity.
Qed.

(** X19: [process_run] raises the exception 'Error in process_run: <file>
    not found.' when the map file of the run is not there, and leaves the
    instance as it is.  On every instance that a program can hold, with
    source parameters that, once set, are those of a kappa distribution, and
    for a map file that is read and has two rows or more, it returns: the
    flux and its integral over the pitch angles do not fail on the parsed
    grids, and [results] has the four keys position, kappa, n_dens and e_char
    and no others, with the grid of final positions and the source
    parameters of the instance as [calculate_flux] leaves it. *)
Theorem process_run_results (self : ptm_postprocessor.t) (runid : Z) :
  let fname := (ptm_postprocessor.filedir self ++ "/map_"
                ++ ram.format04 runid ++ ".dat")%string in
  (isfile fname = false ->
   prun self runid
   = (self, Raise (Exception ("Error in process_run: " ++ fname
                              ++ " not found.")%string))) /\
  (forall pos res,
     reachable self -> positive_source self ->
     isfile fname = true -> read_map fname = Ok (pos, res) ->
     (2 <= length res)%nat ->
     exists fm e nd k,
       parse_map_file pos res = Ok fm /\
       let self' := fst (ptm_postprocessor.calculate_flux sp self fm) in
       ptm_postprocessor.ec self' = Some e /\
       ptm_postprocessor.n self' = Some nd /\
       ptm_postprocessor.kappa self' = Some k /\
       prun self runid
       = (self', Ok [("position", ram.Array3 (final_x fm));
                     ("kappa", ram.Float k);
                     ("n_dens", ram.Float nd);
                     ("e_char", ram.Float e)]%string)).
Proof.
  intros fname. split.
  - intros Hfile. unfold ram.process_run. fold fname. now rewrite Hfile.
  - intros pos res. exact (process_run_found self runid pos res).
Qed.

Lemma process_run_no_energies (self self' : ptm_postprocessor.t) (runid : Z)
  (r : ram.results) :
  prun self runid = (self', Ok r) -> ram.get r "energies" = None.
Proof.
  unfold ram.process_run.
  destruct (isfile _); [|discriminate].
  destruct (bind (read_map _) _) as [fm|e]; [|discriminate].
  destruct (ptm_postprocessor.calculate_flux sp self fm) as [s flux].
  intros H. injection H as _ H.
  destruct flux as [flux|]; [|discriminate]. cbn [bind] in H.
  destruct (pp_calculate_omnidirectional_flux _ _); [|discriminate].
  cbn [bind] in H.
  destruct (ptm_postprocessor.getattr (ptm_postprocessor.kappa s));
    [|discriminate]. cbn [bind] in H.
  destruct (ptm_postprocessor.getattr (ptm_postprocessor.n s));
    [|discriminate]. cbn [bind] in H.
  destruct (ptm_postprocessor.getattr (ptm_postprocessor.ec s));
    [|discriminate]. cbn [bind] in H.
  injection H as <-. reflexivity.
Qed.

Lemma get_set_int {A : Type} (d : list (Z * A)) (k k' : Z) (v : A) :
  ram.get_int (ram.set_int d k v) k'
  = if (k' =? k)%Z then Some v else ram.get_int d k'.
Proof.
  induction d as [|[k0 v0] d IH]; cbn [ram.set_int ram.get_int].
  - reflexivity.
  - destruct (Z.eqb_spec k k0) as [->|Hk]; cbn [ram.get_int].
    + destruct (Z.eqb_spec k' k0); reflexivity.
    + destruct (Z.eqb_spec k' k0) as [->|Hk'].
      * destruct (Z.eqb_spec k0 k); [congruence|reflexivity].
      * exact IH.
Qed.

(** The entries that the loop of the runs leaves were there before, or are
    results of [process_run]. *)
Lemma process_runs_entries (runids : list Z) :
  forall (self self' : ptm_postprocessor.t) (fd fd' : list (Z * ram.results))
         (k : Z) (r : ram.results),
    pruns self runids fd = (self', Ok fd') ->
    ram.get_int fd' k = Some r ->
    ram.get_int fd k = Some r \/
    exists s s', prun s k = (s', Ok r).
Proof.
  induction runids as [|id rest IH]; intros self self' fd fd' k r Hruns Hget.
  - cbn in Hruns. injection Hruns as _ <-. now left.
  - cbn [ram.process_runs] in Hruns.
    destruct (prun self id) as [s1 [res|e]] eqn:Hrun; [|discriminate].
    destruct (IH _ _ _ _ k r Hruns Hget) as [Hold | Hnew]; [|now right].
    rewrite get_set_int in Hold.
    destruct (Z.eqb_spec k id) as [->|_]; [|now left].
    injection Hold as <-. right. now exists self, s1.
Qed.

Lemma read_rungrid_runs (fname : string) (fd : ram.fluxdata) :
  ram.read_rungrid loadtxt fname = Ok fd -> ram.runs fd = [].
Proof.
  unfold ram.read_rungrid.
  destruct (loadtxt fname) as [g|]; [|discriminate]. cbn [bind].
  destruct (ram.column g 0); [|discriminate]. cbn [bind].
  destruct (ram.column g 2); [|discriminate]. cbn [bind].
  destruct (ram.column g 3); [|discriminate]. cbn [bind].
  destruct (np.getitem _ 0); [|discriminate]. cbn [bind].
  destruct (negb _); [discriminate|].
  destruct (ram.column g 4); [|discriminate]. cbn [bind].
  intros H. injection H as <-. reflexivity.
Qed.

Section Writing.

Variable write_lines :
  ram.fluxdata -> Z * Z * Z -> R -> ram.value -> ram.outcome unit.

Notation wram := (ram.write_ram_fluxes write_lines).

Lemma write_ram_fluxes_fails (fd : ram.fluxdata) (date : list (string * Z)) :
  (forall r, ram.get_int (ram.runs fd) 1 = Some r ->
             ram.get r "energies" = None) ->
  (exists e, wram fd date = ram.Fail e) /\
  (forall t0 t1 rest y m d r,
     ram.times fd = t0 :: t1 :: rest ->
     ram.get date "year" = Some y -> ram.get date "month" = Some m ->
     ram.get date "day" = Some d ->
     ram.get_int (ram.runs fd) 1 = Some r ->
     wram fd date = ram.Fail (ram.KeyError_str "energies")).
Proof.
  intros Hno. split.
  - unfold ram.write_ram_fluxes.
    destruct (ram.lift (np.getitem (ram.times fd) 1)); [|now eexists].
    cbn [ram.andThen].
    destruct (ram.lift (np.getitem (ram.times fd) 0)); [|now eexists].
    cbn [ram.andThen].
    destruct (ram.item date "year"); [|now eexists]. cbn [ram.andThen].
    destruct (ram.item date "month"); [|now eexists]. cbn [ram.andThen].
    destruct (ram.item date "day"); [|now eexists]. cbn [ram.andThen].
    unfold ram.item_int.
    destruct (ram.get_int (ram.runs fd) 1) as [r|] eqn:Hr;
      cbn [ram.andThen]; [|now eexists].
    unfold ram.item. rewrite (Hno r eq_refl). cbn [ram.andThen]. now eexists.
  - intros t0 t1 rest y m d r Ht Hy Hm Hd Hr.
    unfold ram.write_ram_fluxes. rewrite Ht.
    pose proof (getitem_nat_ok (t0 :: t1 :: rest) 1 0) as H1.
    pose proof (getitem_nat_ok (t0 :: t1 :: rest) 0 0) as H0.
    change (Z.of_nat 1) with 1%Z in H1. change (Z.of_nat 0) with 0%Z in H0.
    rewrite H1, H0 by (cbn [length]; lia). cbn [nth].
    cbn [ram.lift ram.andThen].
    unfold ram.item, ram.item_int. rewrite Hy, Hm, Hd, Hr.
    cbn [ram.andThen]. now rewrite (Hno r Hr).
Qed.

(** X20: with [write_files=True] (the default), [process_ram_boundary] never
    returns: whatever the files hold, the call ends in an exception.  Every
    entry that [process_run] stores lacks the key 'energies' that
    [write_ram_fluxes] reads in the results of run 1. *)
Theorem process_ram_boundary_writing_raises (self : ptm_postprocessor.t)
  (griddir : option string) (date : list (string * Z)) :
  exists e,
    snd (ram.process_ram_boundary sp isfile read_map loadtxt write_lines
           self griddir true date)
    = ram.Fail e.
Proof.
  unfold ram.process_ram_boundary.
  destruct (isfile _); [|cbn; eauto].
  destruct (ram.read_rungrid loadtxt _) as [fd|e] eqn:Hgrid; [|cbn; eauto].
  rewrite (read_rungrid_runs _ _ Hgrid).
  destruct (pruns self (ram.runid fd) []) as [s [r|e]] eqn:Hruns;
    [|cbn; eauto].
  cbn [snd].
  destruct (write_ram_fluxes_fails (ram.with_runs fd r) date) as [[e He] _].
  - cbn [ram.with_runs ram.runs]. intros r1 Hr1.
    destruct (process_runs_entries _ _ _ _ _ _ _ Hruns Hr1)
      as [Hold | (s1 & s2 & Hrun)]; [discriminate|].
    exact (process_run_no_energies _ _ _ _ Hrun).
  - rewrite He. cbn. eauto.
Qed.

(** X21: [write_ram_fluxes] raises KeyError: 'energies' on a dictionary
    with two times or more, a date with year, month and day, and the results
    of [process_run] under the key 1. *)
Theorem write_ram_fluxes_KeyError_energies (fd : ram.fluxdata)
  (date : list (string * Z)) (self self' : ptm_postprocessor.t)
  (r : ram.results) (t0 t1 : R) (rest : list R) (y m d : Z) :
  ram.times fd = t0 :: t1 :: rest ->
  ram.get date "year" = Some y -> ram.get date "month" = Some m ->
  ram.get date "day" = Some d ->
  ram.get_int (ram.runs fd) 1 = Some r ->
  prun self 1 = (self', Ok r) ->
  wram fd date = ram.Fail (ram.KeyError_str "energies").
Proof.
  intros Ht Hy Hm Hd Hr Hrun.
  refine (proj2 (write_ram_fluxes_fails fd date _) t0 t1 rest y m d r
            Ht Hy Hm Hd Hr).
  intros r' Hr'. rewrite Hr in Hr'. injection Hr' as <-.
  exact (process_run_no_energies _ _ _ _ Hrun).
Qed.

Lemma process_runs_keeps (runids : list Z) :
  forall (self self' : ptm_postprocessor.t) (fd fd' : list (Z * ram.results))
         (k : Z) (r0 : ram.results),
    pruns self runids fd = (self', Ok fd') ->
    ram.get_int fd k = Some r0 ->
    exists r, ram.get_int fd' k = Some r.
Proof.
  induction runids as [|id rest IH]; intros self self' fd fd' k r0 Hruns Hget.
  - cbn in Hruns. injection Hruns as _ <-. now exists r0.
  - cbn [ram.process_runs] in Hruns.
    destruct (prun self id) as [s1 [res|e]] eqn:Hrun; [|discriminate].
    destruct (Z.eqb_spec k id) as [->|Hk].
    + apply (IH _ _ _ _ id res Hruns).
      now rewrite get_set_int, Z.eqb_refl.
    + apply (IH _ _ _ _ k r0 Hruns).
      rewrite get_set_int. now destruct (Z.eqb_spec k id).
Qed.

Lemma process_runs_covers (runids : list Z) :
  forall (self self' : ptm_postprocessor.t) (fd' : list (Z * ram.results))
         (id : Z),
    pruns self runids [] = (self', Ok fd') ->
    In id runids ->
    exists r s s', ram.get_int fd' id = Some r /\ prun s id = (s', Ok r).
Proof.
  intros self self' fd' id Hruns Hin.
  assert (Hex : exists r, ram.get_int fd' id = Some r).
  { revert self Hruns. generalize (@nil (Z * ram.results)).
    induction runids as [|id0 rest IH]; intros fd self Hruns; [destruct Hin|].
    cbn [ram.process_runs] in Hruns.
    destruct (prun self id0) as [s1 [res|e]] eqn:Hrun; [|discriminate].
    destruct Hin as [-> | Hin].
    - apply (process_runs_keeps rest _ _ _ _ id res Hruns).
      now rewrite get_set_int, Z.eqb_refl.
    - exact (IH Hin _ _ Hruns). }
  destruct Hex as [r Hr]. exists r.
  destruct (process_runs_entries _ _ _ _ _ _ _ Hruns Hr)
    as [Hold | (s & s' & Hrun)]; [discriminate|].
  now exists s, s'.
Qed.

Lemma read_rungrid_ok (fname : string) (fd : ram.fluxdata) :
  ram.read_rungrid loadtxt fname = Ok fd ->
  exists g c0 c2 c3 c4 r0,
    loadtxt fname = Ok g /\
    ram.column g 0 = Ok c0 /\ ram.column g 2 = Ok c2 /\
    ram.column g 3 = Ok c3 /\ ram.column g 4 = Ok c4 /\
    np.getitem (unique.unique c3) 0 = Ok r0 /\
    ram.allclose (unique.unique c3) r0 1e-3 = true /\
    fd = {| ram.rungrid := g; ram.runid := map int_of_float c0;
            ram.times := unique.unique c2; ram.R_ := r0;
            ram.mlt := unique.sort (unique.unique c4); ram.runs := [] |}.
Proof.
  unfold ram.read_rungrid.
  destruct (loadtxt fname) as [g|] eqn:Hg; [|discriminate]. cbn [bind].
  destruct (ram.column g 0) as [c0|] eqn:H0; [|discriminate]. cbn [bind].
  destruct (ram.column g 2) as [c2|] eqn:H2; [|discriminate]. cbn [bind].
  destruct (ram.column g 3) as [c3|] eqn:H3; [|discriminate]. cbn [bind].
  destruct (np.getitem _ 0) as [r0|] eqn:Hr; [|discriminate]. cbn [bind].
  destruct (ram.allclose _ r0 _) eqn:Hclose; [|discriminate]. cbn [negb].
  destruct (ram.column g 4) as [c4|] eqn:H4; [|discriminate]. cbn [bind].
  intros H. injection H as <-.
  exists g, c0, c2, c3, c4, r0. repeat split; assumption || reflexivity.
Qed.

Lemma allclose_true (a : list R) (b rtol : R) :
  ram.allclose a b rtol = true <->
  forall x, In x a -> Rabs (x - b) <= 1e-8 + rtol * Rabs b.
Proof.
  unfold ram.allclose. rewrite forallb_forall.
  split; intros H x Hx; specialize (H x Hx); unfold ram.Rleb in *;
    destruct (Rle_dec _ _); congruence.
Qed.

(** X22: when [process_ram_boundary] returns (with [write_files=False]),
    [fluxdata] holds under the identifier of every line of the run grid (the
    integer part of its first column) what [process_run] returned for it; the
    iterator under 'runid' is used up; the times and the local times are
    strictly ascending, and every radial distance of the grid is within
    [1e-8 + 1e-3 * |R|] of the distance [R] it stores. *)
Theorem process_ram_boundary_fluxdata (self self' : ptm_postprocessor.t)
  (griddir : option string) (date : list (string * Z)) (fd : ram.fluxdata) :
  ram.process_ram_boundary sp isfile read_map loadtxt write_lines
    self griddir false date = (self', ram.Done fd) ->
  exists c0 c3,
    ram.column (ram.rungrid fd) 0 = Ok c0 /\
    ram.column (ram.rungrid fd) 3 = Ok c3 /\
    ram.runid fd = [] /\
    (forall id, In id (map int_of_float c0) ->
       exists r s s', ram.get_int (ram.runs fd) id = Some r /\
                      prun s id = (s', Ok r)) /\
    StronglySorted Rlt (ram.times fd) /\
    StronglySorted Rlt (ram.mlt fd) /\
    (forall x, In x c3 ->
       Rabs (x - ram.R_ fd) <= 1e-8 + 1e-3 * Rabs (ram.R_ fd)).
Proof.
  unfold ram.process_ram_boundary.
  destruct (isfile _); [|discriminate].
  destruct (ram.read_rungrid loadtxt _) as [fd0|e] eqn:Hgrid; [|discriminate].
  destruct (read_rungrid_ok _ _ Hgrid)
    as (g & c0 & c2 & c3 & c4 & r0 & _ & H0 & _ & H3 & _ & _ & Hclose & ->).
  cbn [ram.runid ram.runs].
  destruct (pruns self (map int_of_float c0) []) as [s [r|e]] eqn:Hruns;
    [|discriminate].
  intros H. injection H as _ <-.
  cbn [ram.with_runs ram.rungrid ram.runid ram.times ram.R_ ram.mlt ram.runs].
  exists c0, c3. split; [exact H0|]. split; [exact H3|].
  split; [reflexivity|].
  split; [intros id Hid; exact (process_runs_covers _ _ _ _ _ Hruns Hid)|].
  split; [apply unique_sorted|].
  split; [rewrite sort_sorted; apply unique_sorted|].
  intros x Hx. rewrite allclose_true in Hclose.
  apply Hclose. now apply unique_In.
Qed.

Lemma calculate_flux_filedir (self : ptm_postprocessor.t) (fm : fluxmap) :
  ptm_postprocessor.filedir (fst (ptm_postprocessor.calculate_flux sp self fm))
  = ptm_postprocessor.filedir self.
Proof.
  unfold ptm_postprocessor.calculate_flux. cbn [fst].
  now destruct (ptm_postprocessor.set_defaults self).
Qed.

Lemma reachable_defaults (self : ptm_postprocessor.t) :
  reachable self -> ptm_postprocessor.set_defaults self = true ->
  exists dir, self = ptm_postprocessor.init dir.
Proof.
  induction 1 as [dir|self nd e k m Hr IH|sp' self fm Hr IH]; intros Hd.
  - now exists dir.
  - discriminate.
  - unfold ptm_postprocessor.calculate_flux in Hd. cbn [fst] in Hd.
    destruct (ptm_postprocessor.set_defaults self) eqn:E;
      [discriminate|congruence].
Qed.

Lemma calculate_flux_positive (self : ptm_postprocessor.t) (fm : fluxmap) :
  reachable self -> positive_source self ->
  positive_source (fst (ptm_postprocessor.calculate_flux sp self fm)).
Proof.
  intros Hr Hpos. unfold ptm_postprocessor.calculate_flux. cbn [fst].
  destruct (ptm_postprocessor.set_defaults self) eqn:E; [|exact Hpos].
  destruct (reachable_defaults self Hr E) as [dir ->].
  unfold positive_source. cbn.
  unfold ptm_postprocessor.cls_mc2. repeat split; lra.
Qed.

Lemma process_runs_ok (dir : string) (runids : list Z) :
  (forall id, In id runids ->
     let fname := (dir ++ "/map_" ++ ram.format04 id ++ ".dat")%string in
     isfile fname = true /\
     exists pos res, read_map fname = Ok (pos, res) /\ (2 <= length res)%nat) ->
  forall (self : ptm_postprocessor.t) (fd : list (Z * ram.results)),
    reachable self -> positive_source self ->
    ptm_postprocessor.filedir self = dir ->
    exists self' fd', pruns self runids fd = (self', Ok fd').
Proof.
  induction runids as [|id rest IH]; intros Hfiles self fd Hr Hpos Hdir.
  - now exists self, fd.
  - cbn [ram.process_runs].
    destruct (Hfiles id (or_introl eq_refl))
      as (Hfile & pos & res & Hread & Hrows).
    cbv zeta in Hfile, Hread. rewrite <- Hdir in Hfile, Hread.
    destruct (process_run_found self id pos res Hr Hpos Hfile Hread Hrows)
      as (fm & e & nd & k & _ & _ & _ & _ & ->).
    apply IH.
    + intros id' Hid'. apply Hfiles. now right.
    + now apply reach_flux.
    + now apply calculate_flux_positive.
    + now rewrite calculate_flux_filedir.
Qed.

Lemma process_ram_boundary_ok (self : ptm_postprocessor.t)
  (griddir : option string) (date : list (string * Z))
  (g : list (list R)) (c0 c2 c3 c4 : list R) (r0 : R) :
  let mydir := match griddir with
               | None => ptm_postprocessor.filedir self
               | Some d => d
               end in
  reachable self -> positive_source self ->
  isfile (mydir ++ "/rungrid.txt")%string = true ->
  loadtxt (mydir ++ "/rungrid.txt")%string = Ok g ->
  ram.column g 0 = Ok c0 -> ram.column g 2 = Ok c2 ->
  ram.column g 3 = Ok c3 -> ram.column g 4 = Ok c4 ->
  np.getitem (unique.unique c3) 0 = Ok r0 ->
  (forall x, In x c3 -> Rabs (x - r0) <= 1e-8 + 1e-3 * Rabs r0) ->
  (forall id, In id (map int_of_float c0) ->
     let fname := (ptm_postprocessor.filedir self ++ "/map_"
                   ++ ram.format04 id ++ ".dat")%string in
     isfile fname = true /\
     exists pos res, read_map fname = Ok (pos, res) /\ (2 <= length res)%nat) ->
  exists self' r,
    ram.process_ram_boundary sp isfile read_map loadtxt write_lines
      self griddir false date
    = (self',
       ram.Done {| ram.rungrid := g; ram.runid := [];
                   ram.times := unique.unique c2; ram.R_ := r0;
                   ram.mlt := unique.unique c4; ram.runs := r |}).
Proof.
  intros mydir Hr Hpos Hfile Hload H0 H2 H3 H4 Hget Hclose Hfiles.
  unfold ram.process_ram_boundary. fold mydir. rewrite Hfile.
  unfold ram.read_rungrid. rewrite Hload. cbn [bind].
  rewrite H0. cbn [bind]. rewrite H2. cbn [bind]. rewrite H3. cbn [bind].
  rewrite Hget. cbn [bind].
  assert (Hc : ram.allclose (unique.unique c3) r0 1e-3 = true).
  { apply allclose_true. intros x Hx. apply Hclose. now apply unique_In. }
  rewrite Hc. cbn [negb]. rewrite H4. cbn [bind ram.runid ram.runs].
  destruct (process_runs_ok _ _ Hfiles self [] Hr Hpos eq_refl)
    as (self' & fd' & ->).
  exists self', fd'. unfold ram.with_runs.
  cbn [ram.rungrid ram.runid ram.times ram.R_ ram.mlt ram.runs].
  now rewrite (sort_sorted _ (unique_sorted c4)).
Qed.

(** X23: on an instance that a program can hold, with source parameters
    that, once set, are those of a kappa distribution,
    [process_ram_boundary] with [write_files=False] returns when the run grid
    is there with its first five columns, two lines or more and one radial
    distance (within the tolerance), and the map file of every run is there
    and is read with two rows or more.  The dictionary it returns holds the
    grid, the distinct times and local times in ascending order and the
    smallest radial distance; the iterator under 'runid' is used up. *)
Theorem process_ram_boundary_returns (self : ptm_postprocessor.t)
  (griddir : option string) (date : list (string * Z))
  (g : list (list R)) (c0 c2 c3 c4 : list R) (r0 : R) :
  let mydir := match griddir with
               | None => ptm_postprocessor.filedir self
               | Some d => d
               end in
  reachable self -> positive_source self ->
  isfile (mydir ++ "/rungrid.txt")%string = true ->
  loadtxt (mydir ++ "/rungrid.txt")%string = Ok g ->
  ram.column g 0 = Ok c0 -> ram.column g 2 = Ok c2 ->
  ram.column g 3 = Ok c3 -> ram.column g 4 = Ok c4 ->
  np.getitem (unique.unique c3) 0 = Ok r0 ->
  (forall x, In x c3 -> Rabs (x - r0) <= 1e-8 + 1e-3 * Rabs r0) ->
  (forall id, In id (map int_of_float c0) ->
     let fname := (ptm_postprocessor.filedir self ++ "/map_"
                   ++ ram.format04 id ++ ".dat")%string in
     isfile fname = true /\
     exists pos res, read_map fname = Ok (pos, res) /\ (2 <= length res)%nat) ->
  exists self' r,
    ram.process_ram_boundary sp isfile read_map loadtxt write_lines
      self griddir false date
    = (self',
       ram.Done {| ram.rungrid := g; ram.runid := [];
                   ram.times := unique.unique c2; ram.R_ := r0;
                   ram.mlt := unique.unique c4; ram.runs := r |}).
Proof.
  exact (process_ram_boundary_ok self griddir date g c0 c2 c3 c4 r0).
Qed.

End Writing.

End Runs.

Lemma unique_pair_same (x : R) : unique.unique [x; x] = [x].
Proof.
  cbn [unique.unique fold_right unique.insert].
  destruct (Rlt_dec x x); [lra|].
  destruct (Req_dec_T x x); [reflexivity|contradiction].
Qed.

Lemma grid_2_radial (x : R) :
  In x [6.6; 6.6] -> Rabs (x - 6.6) <= 1e-8 + 1e-3 * Rabs 6.6.
Proof.
  intros Hx. assert (x = 6.6) as -> by (destruct Hx as [<-|[<-|[]]]; reflexivity).
  replace (6.6 - 6.6) with 0 by lra. rewrite Rabs_R0.
  pose proof (Rabs_pos 6.6). lra.
Qed.

Lemma grid_2_getitem : np.getitem (unique.unique [6.6; 6.6]) 0 = Ok 6.6.
Proof. now rewrite unique_pair_same. Qed.

Lemma files_there_all (dir : string) (id : Z) :
  let fname := (dir ++ "/map_" ++ ram.format04 id ++ ".dat")%string in
  files_there fname = true /\
  exists pos res, map_ab fname = Ok (pos, res) /\ (2 <= length res)%nat.
Proof.
  split; [reflexivity|]. exists (4, 0, 0), table_ab.
  split; [reflexivity|]. cbn [table_ab length]. lia.
Qed.

Lemma grid_2_boundary (self : ptm_postprocessor.t) :
  reachable self -> positive_source self ->
  exists self' r,
    ram.process_ram_boundary sp_table files_there map_ab load_grid_2
      write_nothing self None false ram.date_default
    = (self',
       ram.Done {| ram.rungrid := grid_2;
                   ram.runid := [];
                   ram.times := unique.unique [0; 3600]; ram.R_ := 6.6;
                   ram.mlt := unique.unique [0; 6]; ram.runs := r |}).
Proof.
  intros Hr Hpos.
  apply (process_ram_boundary_ok sp_table files_there map_ab load_grid_2
           write_nothing self None ram.date_default grid_2
           [1; 2] [0; 3600] [6.6; 6.6] [0; 6] 6.6 Hr Hpos);
    try reflexivity.
  - exact grid_2_getitem.
  - exact grid_2_radial.
  - intros id _. apply files_there_all.
Qed.

Lemma process_run_results_witness :
  exists fm,
    parse_map_file (4, 0, 0) table_ab = Ok fm /\
    snd (ram.process_run sp_table files_there map_ab
           (ptm_postprocessor.init "") 1)
    = Ok [("position", ram.Array3 (final_x fm)); ("kappa", ram.Float 2.5);
          ("n_dens", ram.Float 1.0); ("e_char", ram.Float 0.5)]%string.
Proof.
  destruct (proj2 (process_run_results sp_table files_there map_ab
                     (ptm_postprocessor.init "") 1)
              (4, 0, 0) table_ab (reach_init "") I eq_refl eq_refl)
    as (fm & e & nd & k & Hp & He & Hn & Hk & Hrun);
    [cbn [table_ab length]; lia|].
  exists fm. split; [exact Hp|]. rewrite Hrun. cbn [snd].
  cbn in He, Hn, Hk.
  injection He as <-. injection Hn as <-. injection Hk as <-. reflexivity.
Defined.

Lemma write_ram_fluxes_KeyError_energies_witness :
  exists r,
    ram.write_ram_fluxes write_nothing
      {| ram.rungrid := grid_2; ram.runid := [1; 2]%Z;
         ram.times := [0; 3600]; ram.R_ := 6.6; ram.mlt := [0; 6];
         ram.runs := [(1%Z, r)] |} ram.date_default
    = ram.Fail (ram.KeyError_str "energies").
Proof.
  destruct (process_run_found sp_table files_there map_ab
              (ptm_postprocessor.init "") 1 (4, 0, 0) table_ab
              (reach_init "") I eq_refl eq_refl)
    as (fm & e & nd & k & _ & _ & _ & _ & Hrun);
    [cbn [table_ab length]; lia|].
  exists [("position", ram.Array3 (final_x fm)); ("kappa", ram.Float k);
          ("n_dens", ram.Float nd); ("e_char", ram.Float e)]%string.
  exact (write_ram_fluxes_KeyError_energies sp_table files_there map_ab
           write_nothing
           {| ram.rungrid := grid_2; ram.runid := [1; 2]%Z;
              ram.times := [0; 3600]; ram.R_ := 6.6; ram.mlt := [0; 6];
              ram.runs := [(1%Z, _)] |}
           ram.date_default (ptm_postprocessor.init "") _ _
           0 3600 [] 2000 1 1 eq_refl eq_refl eq_refl eq_refl eq_refl Hrun).
Defined.

Lemma process_ram_boundary_fluxdata_witness :
  exists self' fd,
    ram.process_ram_boundary sp_table files_there map_ab load_grid_2
      write_nothing (ptm_postprocessor.init "") None false ram.date_default
    = (self', ram.Done fd) /\
    StronglySorted Rlt (ram.times fd) /\
    ram.runid fd = [] /\
    forall id, In id (map int_of_float [1; 2]) ->
      exists r, ram.get_int (ram.runs fd) id = Some r.
Proof.
  destruct (grid_2_boundary (ptm_postprocessor.init "") (reach_init "") I)
    as (self' & r & Hrun).
  exists self'. eexists. split; [exact Hrun|].
  destruct (process_ram_boundary_fluxdata sp_table files_there map_ab
              load_grid_2 write_nothing _ _ _ _ _ Hrun)
    as (c0 & c3 & H0 & _ & Hid & Hruns & Htimes & _).
  split; [exact Htimes|]. split; [exact Hid|].
  cbn [ram.rungrid] in H0.
  assert (E : ram.column grid_2 0 = Ok [1; 2]) by reflexivity.
  rewrite E in H0. injection H0 as <-.
  intros id Hin. destruct (Hruns id Hin) as (r' & _ & _ & Hget & _).
  now exists r'.
Defined.

Lemma process_ram_boundary_returns_witness :
  exists self' fd,
    ram.process_ram_boundary sp_table files_there map_ab load_grid_2
      write_nothing (ptm_postprocessor.init "") None false ram.date_default
    = (self', ram.Done fd).
Proof.
  destruct (process_ram_boundary_returns sp_table files_there map_ab
              load_grid_2 write_nothing (ptm_postprocessor.init "") None
              ram.date_default grid_2 [1; 2] [0; 3600] [6.6; 6.6] [0; 6] 6.6
              (reach_init "") I eq_refl eq_refl eq_refl eq_refl eq_refl
              eq_refl grid_2_getitem grid_2_radial
              (fun id _ => files_there_all "" id))
    as (self' & r & Hrun).
  exists self'. eexists. exact Hrun.
Defined.

(** ** tm03_moments *)

Lemma sin_minus_PI (a : R) : sin (a - PI) = - sin a.
Proof. rewrite sin_minus, cos_PI, sin_PI. ring. Qed.

Lemma sin2_atan (t : R) : sin (atan t) ^ 2 = t * t / (1 + t * t).
Proof.
  rewrite sin_atan. unfold Rsqr.
  assert (Hpos : 0 < 1 + t * t) by nra.
  assert (Hs : sqrt (1 + t * t) * sqrt (1 + t * t) = 1 + t * t)
    by (apply sqrt_sqrt; lra).
  assert (Hne : sqrt (1 + t * t) <> 0).
  { intros H0. rewrite H0 in Hs. lra. }
  cbn [pow]. rewrite Rmult_1_r.
  replace (t / sqrt (1 + t * t) * (t / sqrt (1 + t * t)))
    with (t * t / (sqrt (1 + t * t) * sqrt (1 + t * t))) by (field; exact Hne).
  now rewrite Hs.
Qed.

(** The azimuth enters the moments through [sin(phi)**2], the square of the
    sine of the angle of the position. *)
Lemma sin2_arctan2 (x y : R) :
  0 < x * x + y * y ->
  sin (- tm03.arctan2 y x) ^ 2 = y * y / (x * x + y * y).
Proof.
  intros Hpos.
  assert (Hsq : forall a, sin (- a) ^ 2 = sin a ^ 2)
    by (intros a; rewrite sin_neg; ring).
  rewrite Hsq. unfold tm03.arctan2.
  assert (Hx : forall s, x <> 0 -> s ^ 2 = sin (atan (y / x)) ^ 2 ->
                         s ^ 2 = y * y / (x * x + y * y)).
  { intros s Hne ->. rewrite sin2_atan. field. split; lra. }
  destruct (Rlt_dec 0 x) as [Hx0|Hx0].
  - apply Hx; [lra|reflexivity].
  - destruct (Rlt_dec x 0) as [Hx1|Hx1].
    + destruct (Rle_dec 0 y).
      * apply Hx; [lra|]. rewrite neg_sin. ring.
      * apply Hx; [lra|]. rewrite sin_minus_PI. ring.
    + assert (x = 0) as -> by lra.
      assert (Hy : y <> 0) by nra.
      destruct (Rlt_dec 0 y).
      * rewrite sin_PI2. field. lra.
      * destruct (Rlt_dec y 0); [|lra].
        rewrite sin_neg, sin_PI2. field. lra.
Qed.

Lemma tm03_position (x1 y1 x2 y2 : R) (swD : tm03.solar_wind)
  (getDefaults : bool) :
  x1 * x1 = x2 * x2 -> y1 * y1 = y2 * y2 ->
  tm03.tm03_moments x1 y1 swD getDefaults
  = tm03.tm03_moments x2 y2 swD getDefaults.
Proof.
  intros Hx Hy. unfold tm03.tm03_moments.
  destruct getDefaults; [reflexivity|]. cbv zeta.
  assert (Hrho : x1 * x1 + y1 * y1 = x2 * x2 + y2 * y2) by lra.
  assert (Hsin : sin (- tm03.arctan2 y1 x1) ^ 2
                 = sin (- tm03.arctan2 y2 x2) ^ 2).
  { destruct (Rlt_dec 0 (x1 * x1 + y1 * y1)) as [Hpos|Hzero].
    - rewrite !sin2_arctan2 by lra. now rewrite Hrho, Hy.
    - assert (x1 = 0) as -> by nra. assert (y1 = 0) as -> by nra.
      assert (x2 = 0) as -> by nra. assert (y2 = 0) as -> by nra.
      reflexivity. }
  now rewrite Hrho, Hsin.
Qed.

(** X24: the moments of [tm03_moments] are the same at the positions
    [(x, y)], [(x, -y)] and [(-x, y)]: the plasma sheet of the model is
    symmetric between dawn and dusk, and the position enters only through
    its distance to the axis and [sin(phi)**2]. *)
Theorem tm03_moments_mirror (x y : R) (swD : tm03.solar_wind)
  (getDefaults : bool) :
  tm03.tm03_moments x (- y) swD getDefaults
  = tm03.tm03_moments x y swD getDefaults /\
  tm03.tm03_moments (- x) y swD getDefaults
  = tm03.tm03_moments x y swD getDefaults.
Proof.
  split; apply tm03_position; ring.
Qed.

(** ** calculate_omnidirectional_flux: sign *)

Lemma Forall_map2 {A B C : Type} (f : A -> B -> C)
  (PA : A -> Prop) (PB : B -> Prop) (PC : C -> Prop)
  (l1 : list A) (l2 : list B) :
  (forall a b, PA a -> PB b -> PC (f a b)) ->
  Forall PA l1 -> Forall PB l2 -> Forall PC (map2 f l1 l2).
Proof.
  intros Hf H1. revert l2.
  induction H1 as [|a l1 Ha H1 IH]; intros l2 H2; [constructor|].
  destruct H2 as [|b l2 Hb H2]; cbn [map2]; constructor; auto.
Qed.

Lemma Forall_from1 {A : Type} (PA : A -> Prop) (l : list A) :
  Forall PA l -> Forall PA (from1 l).
Proof. intros H. destruct H; [constructor|assumption]. Qed.

Lemma Forall_upto_last {A : Type} (PA : A -> Prop) (l : list A) :
  Forall PA l -> Forall PA (upto_last l).
Proof.
  unfold upto_last. induction 1 as [|a l Ha H IH]; [constructor|].
  destruct l as [|b l]; [constructor|].
  change (removelast (a :: b :: l)) with (a :: removelast (b :: l)).
  now constructor.
Qed.

Lemma pairs_cons {A B : Type} (f : A -> A -> B) (a b : A) (t : list A) :
  map2 f (from1 (a :: b :: t)) (upto_last (a :: b :: t))
  = f b a :: map2 f (from1 (b :: t)) (upto_last (b :: t)).
Proof.
  unfold from1, upto_last. cbn [tl].
  change (removelast (a :: b :: t)) with (a :: removelast (b :: t)).
  reflexivity.
Qed.

Lemma sum_nonneg (l : list R) : Forall (fun x => 0 <= x) l -> 0 <= np.sum l.
Proof.
  unfold np.sum. induction 1 as [|x l Hx H IH]; cbn [fold_right]; lra.
Qed.

Lemma diff_nonneg (Q : list R) :
  Sorted Rle Q -> Forall (fun d => 0 <= d) (diff Q).
Proof.
  unfold diff. induction Q as [|a [|b t] IH]; intros Hs;
    [constructor|constructor|].
  rewrite pairs_cons. constructor.
  -
    apply Sorted_inv in Hs. destruct Hs as [_ Hab].
    apply HdRel_inv in Hab. lra.
  - apply IH. now apply Sorted_inv in Hs.
Qed.

Lemma savg_nonneg (Q : list R) :
  Forall (fun q => 0 <= q <= PI) Q ->
  Forall (fun s => 0 <= s)
         (map (fun s => sin (0.5 * s)) (map2 Rplus (from1 Q) (upto_last Q))).
Proof.
  induction Q as [|a [|b t] IH]; intros HQ; [constructor|constructor|].
  rewrite pairs_cons. cbn [map]. constructor.
  - pose proof (Forall_inv HQ) as Ha.
    pose proof (Forall_inv (Forall_inv_tail HQ)) as Hb. cbv beta in Ha, Hb.
    apply sin_ge_0; lra.
  - apply IH. now apply Forall_inv_tail in HQ.
Qed.

Lemma omni_reduce_nonneg (Q : list R) (flux : list (list R))
  (symmetry : bool) :
  Sorted Rle Q -> Forall (fun q => 0 <= q <= PI) Q ->
  Forall (Forall (fun f => 0 <= f)) flux ->
  Forall (fun o => 0 <= o) (omni_reduce Q flux symmetry).
Proof.
  intros Hs HQ Hflux. unfold omni_reduce, einsum_i_ji.
  pose proof PI_RGT_0 as Hpi.
  assert (Hcoef : Forall (fun c => 0 <= c)
                    (map (fun d => 2.0 * PI * d) (diff Q))).
  { apply Forall_map.
    eapply Forall_impl; [|exact (diff_nonneg Q Hs)].
    intros d Hd. cbv beta. nra. }
  assert (Hcoef' : Forall (fun c => 0 <= c)
                     (if symmetry
                      then map (fun c => c * 2.0)
                             (map (fun d => 2.0 * PI * d) (diff Q))
                      else map (fun d => 2.0 * PI * d) (diff Q))).
  { destruct symmetry; [|exact Hcoef].
    apply Forall_map. eapply Forall_impl; [|exact Hcoef].
    intros c Hc. cbv beta in *. lra. }
  apply Forall_map. apply Forall_map.
  eapply Forall_impl; [|exact Hflux].
  intros row Hrow. cbv beta. apply sum_nonneg.
  apply (Forall_map2 Rmult (fun c => 0 <= c) (fun f => 0 <= f)).
  - intros a b Ha Hb. now apply Rmult_le_pos.
  - apply (Forall_map2 Rmult (fun c => 0 <= c) (fun s => 0 <= s)).
    + intros a b Ha Hb. now apply Rmult_le_pos.
    + exact Hcoef'.
    + exact (savg_nonneg Q HQ).
  - apply Forall_map.
    apply (Forall_map2 Rplus (fun f => 0 <= f) (fun f => 0 <= f)).
    + intros a b Ha Hb. cbv beta. lra.
    + now apply Forall_from1.
    + now apply Forall_upto_last.
Qed.

Lemma transpose_nonneg (a : ndarray2) :
  Forall (Forall (fun f => 0 <= f)) (rows a) ->
  Forall (Forall (fun f => 0 <= f)) (rows (transpose a)).
Proof.
  intros H. unfold transpose. cbn [rows].
  apply Forall_map. apply Forall_forall. intros j _.
  apply Forall_map. eapply Forall_impl; [|exact H].
  intros row Hrow. cbv beta.
  destruct (nth_in_or_default j row 0) as [Hin | ->]; [|lra].
  rewrite Forall_forall in Hrow. now apply Hrow.
Qed.

Lemma deg2rad_sorted (pav : list R) :
  Sorted Rle pav -> Sorted Rle (map deg2rad pav).
Proof.
  pose proof PI_RGT_0 as Hpi.
  induction 1 as [|a l Hs IH Hd]; cbn [map]; constructor; [exact IH|].
  destruct Hd as [|b l Hab]; cbn [map]; constructor.
  unfold deg2rad. nra.
Qed.

(** X25: for pitch angles in degrees that ascend within [0, 180] and a
    differential flux without negative values, no omnidirectional flux that
    [calculate_omnidirectional_flux] returns is negative, in either
    orientation of the array and with or without the symmetry factor. *)
Theorem calculate_omnidirectional_flux_nonneg (pav : list R)
  (diffJ : ndarray2) (symmetry : bool) (omni : list R) :
  Sorted Rle pav ->
  Forall (fun a => 0 <= a <= 180) pav ->
  Forall (Forall (fun f => 0 <= f)) (rows diffJ) ->
  calculate_omnidirectional_flux pav diffJ true symmetry = Ok omni ->
  Forall (fun o => 0 <= o) omni.
Proof.
  intros Hs Hr Hflux. unfold calculate_omnidirectional_flux.
  destruct (negb _); [discriminate|].
  intros H. injection H as <-.
  pose proof PI_RGT_0 as Hpi.
  apply omni_reduce_nonneg.
  - now apply deg2rad_sorted.
  - apply Forall_map. eapply Forall_impl; [|exact Hr].
    intros a Ha. cbv beta in *. unfold deg2rad. split; [nra|].
    replace PI with (180 * (PI / 180)) at 2 by field. nra.
  - destruct (length pav =? shape1 diffJ)%nat;
      [exact Hflux|now apply transpose_nonneg].
Qed.

Lemma calculate_omnidirectional_flux_nonneg_witness :
  exists omni,
    calculate_omnidirectional_flux pav_3 diffJ_3x2 true true = Ok omni /\
    Forall (fun o => 0 <= o) omni.
Proof.
  eexists. split; [reflexivity|].
  apply (calculate_omnidirectional_flux_nonneg pav_3 diffJ_3x2 true).
  - repeat constructor; lra.
  - repeat constructor; lra.
  - repeat constructor; lra.
  - reflexivity.
Defined.

(** ** calculate_flux and energy_to_flux *)

Lemma Rpower_three_halves (x : R) : 0 < x -> Rpower x 1.5 = x * sqrt x.
Proof.
  intros Hx. replace 1.5 with (1 + / 2) by lra.
  now rewrite Rpower_plus, Rpower_1, Rpower_sqrt.
Qed.

Lemma csq_ratio_bounds :
  0.9999 < ckm * ckm / ptm_postprocessor.cls_csq < 1.
Proof. unfold ckm, ptm_postprocessor.cls_csq. split; lra. Qed.

Lemma flux_ratio_eq :
  flux_ratio
  = sqrt (ckm * ckm / ptm_postprocessor.cls_csq)
    * (ptm_postprocessor.cls_ckm / ckm) ^ 2.
Proof.
  unfold flux_ratio. pose proof csq_ratio_bounds as Hb.
  rewrite Rpower_three_halves by lra.
  pose proof ckm_pos as Hc.
  unfold ptm_postprocessor.cls_csq in *. field. lra.
Qed.

Lemma flux_ratio_bounds : 0.9999 < flux_ratio < 1.0001.
Proof.
  rewrite flux_ratio_eq. pose proof csq_ratio_bounds as Hb.
  set (x := ckm * ckm / ptm_postprocessor.cls_csq) in *.
  assert (Hs1 : sqrt x <= 1).
  { rewrite <- sqrt_1. apply sqrt_le_1; lra. }
  assert (Hs0 : x <= sqrt x).
  { assert (Hss : sqrt x * sqrt x = x) by (apply sqrt_sqrt; lra).
    pose proof (sqrt_pos x). nra. }
  assert (Hq : 1.00005 < (ptm_postprocessor.cls_ckm / ckm) ^ 2 < 1.00006).
  { unfold ptm_postprocessor.cls_ckm, ckm. split; lra. }
  nra.
Qed.

(** X26: for a positive mass energy, a positive characteristic energy and
    kappa above 1.5, the flux of a cell of [calculate_flux] is the flux
    of [energy_to_flux] with [kind='kappa'] for the same energies and
    parameters times one constant, which comes from the rounded constants
    of the class and lies between 0.9999 and 1.0001. *)
Theorem calculate_flux_matches_energy_to_flux (sp : special)
  (mc2 ec n kappa ef ei : R) :
  0 < mc2 -> 0 < ec -> 1.5 < kappa ->
  exists j,
    energy_to_flux sp ei ef ec n mc2 "kappa" kappa false = Ok j /\
    ptm_postprocessor.flux_cell sp mc2 ec n kappa ef ei = flux_ratio * j /\
    0.9999 < flux_ratio < 1.0001.
Proof.
  intros Hm He Hk. eexists. split; [apply energy_to_flux_kappa|].
  split; [|exact flux_ratio_bounds].
  unfold ptm_postprocessor.flux_cell, kappa_flux, flux_ratio. cbv zeta.
  pose proof (Wc_pos ec kappa He Hk) as HW.
  set (Wc := ec * (1.0 - 1.5 / kappa)) in *.
  pose proof ckm_pos as Hc. pose proof PI_RGT_0 as Hpi.
  pose proof csq_ratio_bounds as Hb.
  assert (Hcsq : 0 < ptm_postprocessor.cls_csq)
    by (unfold ptm_postprocessor.cls_csq; lra).
  assert (HA : 0 < mc2 / (ckm * ckm * Wc * 2 * PI * kappa)).
  { apply Rdiv_lt_0_compat; [exact Hm|].
    assert (0 < ckm * ckm) by nra.
    assert (0 < ckm * ckm * Wc) by nra.
    assert (0 < ckm * ckm * Wc * 2 * PI) by nra.
    nra. }
  replace (mc2 / (ptm_postprocessor.cls_csq * Wc * 2 * PI * kappa))
    with (ckm * ckm / ptm_postprocessor.cls_csq
          * (mc2 / (ckm * ckm * Wc * 2 * PI * kappa)))
    by (field; repeat split; lra).
  rewrite <- Rpower_mult_distr by lra.
  set (a := Rpower (ckm * ckm / ptm_postprocessor.cls_csq) 1.5).
  set (b := Rpower (mc2 / (ckm * ckm * Wc * 2 * PI * kappa)) 1.5).
  set (c := Rpower (1 + ei / (kappa * Wc)) (- (kappa + 1))).
  set (s := sqrt ((1 + ef / mc2) * (1 + ef / mc2) - 1.0) / (1 + ef / mc2)).
  replace (ptm_postprocessor.cls_ckm
           * sqrt ((1 + ef / mc2) * (1 + ef / mc2) - 1.0) / (1 + ef / mc2))
    with (ptm_postprocessor.cls_ckm * s) by (unfold s, Rdiv; ring).
  replace (ckm * sqrt ((1 + ef / mc2) * (1 + ef / mc2) - 1.0)
           / (1 + ef / mc2))
    with (ckm * s) by (unfold s, Rdiv; ring).
  set (G := gamma sp (kappa + 1) / gamma sp (kappa - 0.5)).
  field. split; lra.
Qed.

Lemma calculate_flux_matches_energy_to_flux_witness :
  exists j,
    energy_to_flux sp_table 1000 900 752.0 5e-6 511 "kappa" 5.0 false = Ok j /\
    ptm_postprocessor.flux_cell sp_table 511 752.0 5e-6 5.0 900 1000
    = flux_ratio * j.
Proof.
  destruct (calculate_flux_matches_energy_to_flux sp_table
              511 752.0 5e-6 5.0 900 1000) as (j & Hj & Hc & _); try lra.
  now exists j.
Defined.
